(** * Adaptive sampling learners: a shallow embedding and its properties

    The development follows [adaptive/learner.py] (base contract, scalar
    average learner, 1-D learner, balancing learner, [restore]) and
    [adaptive/learner/learner2D.py] (2-D learner).

    Numbers.  Python floats are idealised as exact real numbers ([R]); the
    two infinities that the code manipulates ([np.inf], [float('inf')]) are
    explicit in [pyfloat].  Operations that raise in Python (division by
    zero, [math.sqrt] of a negative number, a missing dictionary key, an
    ordering comparison between unrelated types) return [Raised] here.

    Exact reals say what the formulas of the code compute; they do not say
    what rounding does to them.  Where rounding decides whether the code
    returns at all, the code is read a second time over binary64 floats
    (the kernel's primitive floats, IEEE 754 with rounding to nearest):
    [AverageLearner64] is the scalar-average learner on those. *)

From Corelib Require Import PrimInt63 PrimFloat.
From Stdlib Require Import Reals Lra Lia List Bool ZArith Arith.
From Stdlib Require Import Permutation Sorted.
Import ListNotations.

Set Implicit Arguments.

(* ================================================================== *)
(** * Part I. Definitions                                              *)
(* ================================================================== *)

(** ** Exceptions and results *)

Inductive exn : Type :=
| TypeError
| ZeroDivisionError
| ValueError
| KeyError
| IndexError
| OverflowError
| ConfigError.

Inductive result (A : Type) : Type :=
| Returned (a : A)
| Raised (e : exn).

Arguments Returned {A} a.
Arguments Raised {A} e.

Definition bind {A B : Type} (m : result A) (k : A -> result B) : result B :=
  match m with
  | Returned a => k a
  | Raised e => Raised e
  end.

Notation "x <- m ;; k" := (bind m (fun x => k))
  (at level 61, m at next level, right associativity).
Notation "' p <- m ;; k" := (bind m (fun p => k))
  (at level 61, p pattern, m at next level, right associativity).

(** ** Python floats, idealised *)

Inductive pyfloat : Type :=
| Fin (r : R)
| PInf
| NInf.

Definition Rltb (a b : R) : bool := if Rlt_dec a b then true else false.
Definition Rleb (a b : R) : bool := if Rle_dec a b then true else false.
Definition Reqb (a b : R) : bool := if Req_dec_T a b then true else false.

(** [a < b], [a == b] and [a > b] on floats. *)
Definition fl_ltb (a b : pyfloat) : bool :=
  match a, b with
  | Fin x, Fin y => Rltb x y
  | NInf, Fin _ | NInf, PInf | Fin _, PInf => true
  | _, _ => false
  end.

Definition fl_eqb (a b : pyfloat) : bool :=
  match a, b with
  | Fin x, Fin y => Reqb x y
  | PInf, PInf | NInf, NInf => true
  | _, _ => false
  end.

Definition fl_gtb (a b : pyfloat) : bool := fl_ltb b a.

(** Python's true division of a finite float by a float: a zero divisor
    raises, an infinite one gives zero. *)
Definition fl_div (a : R) (b : pyfloat) : result R :=
  match b with
  | Fin r => if Req_dec_T r 0 then Raised ZeroDivisionError
             else Returned (a / r)%R
  | PInf | NInf => Returned 0%R
  end.

(** [math.sqrt]: raises [ValueError] below zero. *)
Definition py_sqrt (a : R) : result R :=
  if Rlt_dec a 0 then Raised ValueError else Returned (sqrt a).

(** The builtin [max(a, b)] of two finite floats: [b] when [b > a]. *)
Definition py_max2 (a b : R) : R := if Rlt_dec a b then b else a.
Definition py_min2 (a b : R) : R := if Rlt_dec b a then b else a.

(** [max(values)] over a non-empty sequence of finite floats. *)
Definition py_max (l : list R) : result R :=
  match l with
  | [] => Raised ValueError
  | x :: l' => Returned (fold_left py_max2 l' x)
  end.

(** ** Keys: Python's [__eq__] as decidable equality *)

Class DecEq (K : Type) := dec_eq : forall a b : K, {a = b} + {a <> b}.

#[export] Instance DecEq_R : DecEq R := Req_dec_T.
#[export] Instance DecEq_Z : DecEq Z := Z.eq_dec.
#[export] Instance DecEq_nat : DecEq nat := Nat.eq_dec.

#[export] Instance DecEq_prod {A B : Type} `{DecEq A} `{DecEq B} : DecEq (A * B).
Proof.
  intros [a1 b1] [a2 b2].
  destruct (dec_eq a1 a2) as [Ha | Ha]; [ | right; congruence ].
  destruct (dec_eq b1 b2) as [Hb | Hb]; [ left | right ]; congruence.
Defined.

#[export] Instance DecEq_option {A : Type} `{DecEq A} : DecEq (option A).
Proof.
  intros [a1 | ] [a2 | ]; try (right; congruence); try (left; reflexivity).
  destruct (dec_eq a1 a2); [ left | right ]; congruence.
Defined.

(** ** Dictionaries

    A Python [dict] keeps insertion order: assigning to an existing key
    replaces the value in place, assigning to a new key appends. *)

Section Dict.
Context {K V : Type} `{DecEq K}.

Definition dict := list (K * V).

Fixpoint dict_get (d : dict) (k : K) : option V :=
  match d with
  | [] => None
  | (k', v) :: d' => if dec_eq k k' then Some v else dict_get d' k
  end.

Definition dict_mem (d : dict) (k : K) : bool :=
  match dict_get d k with Some _ => true | None => false end.

Fixpoint dict_set (d : dict) (k : K) (v : V) : dict :=
  match d with
  | [] => [(k, v)]
  | (k', v') :: d' =>
      if dec_eq k k' then (k', v) :: d' else (k', v') :: dict_set d' k v
  end.

(** [del d[k]] where a [KeyError] is swallowed, [d.pop(k, None)],
    [set.discard]. *)
Fixpoint dict_del (d : dict) (k : K) : dict :=
  match d with
  | [] => []
  | (k', v') :: d' =>
      if dec_eq k k' then d' else (k', v') :: dict_del d' k
  end.

Definition dict_keys (d : dict) : list K := map fst d.
Definition dict_values (d : dict) : list V := map snd d.
End Dict.

Arguments dict K V : clear implicits.

(** ** Base contract ([BaseLearner])

    [add_data] with two sequences: [zip] pairs them and [add_point] is
    called on each pair.  [itertools.repeat(None)] is cut by [zip] to the
    length of the points. *)

Section BaseLearner.
Variables L X Y : Type.
Variable add_point : L -> X -> option Y -> result L.

Fixpoint add_data (l : L) (xvalues : list X) (yvalues : list (option Y))
  : result L :=
  match xvalues, yvalues with
  | x :: xs, y :: ys => l' <- add_point l x y ;; add_data l' xs ys
  | _, _ => Returned l
  end.

Definition add_data_pending (l : L) (xvalues : list X) : result L :=
  add_data l xvalues (repeat None (length xvalues)).
End BaseLearner.

(** ** Scalar-average learner ([AverageLearner]) *)

Module AverageLearner.

Record learner : Type := mk {
  data : dict Z (option R);
  atol : pyfloat;
  rtol : pyfloat;
  n : nat;
  n_requested : nat;
  sum_f : R;
  sum_f_sq : R
}.

(** [__init__]: at least one tolerance; a missing one is [np.inf]. *)
Definition init (atol rtol : option pyfloat) : result learner :=
  match atol, rtol with
  | None, None => Raised ConfigError
  | _, _ =>
      Returned (mk [] (match atol with Some a => a | None => PInf end)
                      (match rtol with Some r => r | None => PInf end)
                      0 0 0%R 0%R)
  end.

Definition add_point (l : learner) (k : Z) (value : option R) : learner :=
  let d := dict_set (data l) k value in
  match value with
  | None =>
      mk d (atol l) (rtol l) (n l) (S (n_requested l)) (sum_f l) (sum_f_sq l)
  | Some v =>
      mk d (atol l) (rtol l) (S (n l)) (n_requested l)
         (sum_f l + v)%R (sum_f_sq l + v ^ 2)%R
  end.

Definition add_point_r (l : learner) (k : Z) (value : option R)
  : result learner := Returned (add_point l k value).

(** [range(self.n_requested, self.n_requested + n)] *)
Definition range (start len : nat) : list Z :=
  map Z.of_nat (seq start len).

Definition choose_points (l : learner) (n : nat) (add : bool)
  : result (list Z * list (option R) * learner) :=
  let points := range (n_requested l) n in
  let loss_improvements := repeat (@None R) n in
  l' <- (if add then add_data_pending add_point_r l points
         else Returned l) ;;
  Returned (points, loss_improvements, l').

(** [self.sum_f / self.n] *)
Definition mean (l : learner) : result R :=
  match n l with
  | O => Raised ZeroDivisionError
  | _ => Returned (sum_f l / INR (n l))%R
  end.

(** Over exact reals the radicand is a sum of squares; what rounding does
    to it is in [AverageLearner64.std]. *)
Definition std (l : learner) : result pyfloat :=
  let n := n l in
  if (n <? 2)%nat then Returned PInf
  else
    m <- mean l ;;
    s <- py_sqrt ((sum_f_sq l - INR n * m ^ 2) / (INR n - 1))%R ;;
    Returned (Fin s).

Definition loss (l : learner) (real : bool) : result pyfloat :=
  let n := n l in
  if (n <? 2)%nat then Returned PInf
  else
    s <- std l ;;
    match s with
    | Fin sd =>
        root <- py_sqrt (INR (if real then n else n_requested l)) ;;
        standard_error <- fl_div sd (Fin root) ;;
        by_atol <- fl_div standard_error (atol l) ;;
        m <- mean l ;;
        rel <- fl_div standard_error (Fin (Rabs m)) ;;
        by_rtol <- fl_div rel (rtol l) ;;
        Returned (Fin (py_max2 by_atol by_rtol))
    | _ => Returned s
    end.

(** The body of [remove_unfinished] is [pass]. *)
Definition remove_unfinished (l : learner) : learner := l.

(** A run of [add_point] calls. *)
Definition add_points (l : learner) (calls : list (Z * option R)) : learner :=
  fold_left (fun l c => add_point l (fst c) (snd c)) calls l.

(** The real values among the calls, in the order they were observed. *)
Fixpoint observed (calls : list (Z * option R)) : list R :=
  match calls with
  | [] => []
  | (_, Some v) :: cs => v :: observed cs
  | (_, None) :: cs => observed cs
  end.

End AverageLearner.

(** ** Scalar-average learner on binary64 floats

    The arithmetic of [AverageLearner] once more, from the same source
    lines, with the values, the sums and the tolerances as binary64
    floats.  [self.sum_f = 0] and [self.sum_f_sq = 0] are the integer
    zero, which the first [+=] turns into a float: [0 + v] is [0.0 + v].
    The counters [n] and [n_requested] are Python integers; where one
    meets a float it is converted first, exactly for a count below 2^53
    and rounded to nearest beyond (counts are taken below 2^63).  An
    exception ends the call; the learner it leaves half updated is not
    modelled. *)

Module AverageLearner64.

Open Scope float_scope.

Fixpoint int_of_pos (p : positive) : int :=
  match p with
  | xH => 1%uint63
  | xO q => PrimInt63.mul 2%uint63 (int_of_pos q)
  | xI q => PrimInt63.add (PrimInt63.mul 2%uint63 (int_of_pos q)) 1%uint63
  end.

Definition float_of_nat (n : nat) : float :=
  match n with
  | O => 0
  | S _ => of_uint63 (int_of_pos (Pos.of_nat n))
  end.

(** [a / b] on Python floats: a zero divisor raises, whatever [a] is. *)
Definition div64 (a b : float) : result float :=
  if is_zero b then Raised ZeroDivisionError else Returned (a / b).

(** [x ** 2] on a Python float is C's [pow(x, 2.0)], taken here as the
    correctly rounded square; CPython raises [OverflowError] when a
    finite [x] gives an infinite result. *)
Definition square64 (x : float) : result float :=
  let y := x * x in
  if is_infinity y && negb (is_infinity x) then Raised OverflowError
  else Returned y.

(** [math.sqrt]: [ValueError] below zero (a [nan] result that the
    argument does not explain); [nan] and [-0.0] pass through. *)
Definition sqrt64 (x : float) : result float :=
  let r := PrimFloat.sqrt x in
  if is_nan r && negb (is_nan x) then Raised ValueError else Returned r.

(** The builtin [max(a, b)]: [b] when [b > a]. *)
Definition max64 (a b : float) : float := if a <? b then b else a.

Record learner : Type := mk {
  data : dict Z (option float);
  atol : float;
  rtol : float;
  n : nat;
  n_requested : nat;
  sum_f : float;
  sum_f_sq : float
}.

Definition init (atol rtol : option float) : result learner :=
  match atol, rtol with
  | None, None => Raised ConfigError
  | _, _ =>
      Returned (mk [] (match atol with Some a => a | None => infinity end)
                      (match rtol with Some r => r | None => infinity end)
                      0 0 0 0)
  end.

Definition add_point (l : learner) (k : Z) (value : option float)
  : result learner :=
  let d := dict_set (data l) k value in
  match value with
  | None =>
      Returned (mk d (atol l) (rtol l) (n l) (S (n_requested l))
                   (sum_f l) (sum_f_sq l))
  | Some v =>
      sq <- square64 v ;;
      Returned (mk d (atol l) (rtol l) (S (n l)) (n_requested l)
                   (sum_f l + v) (sum_f_sq l + sq))
  end.

Fixpoint add_points (l : learner) (calls : list (Z * option float))
  : result learner :=
  match calls with
  | [] => Returned l
  | (k, v) :: cs => l' <- add_point l k v ;; add_points l' cs
  end.

(** [self.sum_f / self.n] *)
Definition mean (l : learner) : result float :=
  div64 (sum_f l) (float_of_nat (n l)).

(** [sqrt((self.sum_f_sq - n * self.mean**2) / (n - 1))] *)
Definition std (l : learner) : result float :=
  let n := n l in
  if (n <? 2)%nat then Returned infinity
  else
    m <- mean l ;;
    m2 <- square64 m ;;
    q <- div64 (sum_f_sq l - float_of_nat n * m2) (float_of_nat (n - 1)) ;;
    sqrt64 q.

Definition loss (l : learner) (real : bool) : result float :=
  let n := n l in
  if (n <? 2)%nat then Returned infinity
  else
    s <- std l ;;
    root <- sqrt64 (float_of_nat (if real then n else n_requested l)) ;;
    standard_error <- div64 s root ;;
    by_atol <- div64 standard_error (atol l) ;;
    m <- mean l ;;
    rel <- div64 standard_error (PrimFloat.abs m) ;;
    by_rtol <- div64 rel (rtol l) ;;
    Returned (max64 by_atol by_rtol).

Close Scope float_scope.

End AverageLearner64.

(** ** [heapq] on Python lists

    The two sift procedures of [heapq], on a list.  CPython moves a hole
    and writes the sifted item once at the end; here the item is swapped
    along the same path, which makes the same comparisons and leaves the
    same list. *)

Section Heapq.
Variable A : Type.
Variable ltb : A -> A -> bool.

Fixpoint list_set (l : list A) (i : nat) (a : A) : list A :=
  match l, i with
  | [], _ => []
  | _ :: l', O => a :: l'
  | b :: l', S i' => b :: list_set l' i' a
  end.

Definition swap (l : list A) (i j : nat) : list A :=
  match nth_error l i, nth_error l j with
  | Some a, Some b => list_set (list_set l i b) j a
  | _, _ => l
  end.

(** [_siftdown(heap, startpos, pos)] *)
Fixpoint siftdown (fuel : nat) (heap : list A) (startpos pos : nat)
  : list A :=
  match fuel with
  | O => heap
  | S fuel' =>
      if (startpos <? pos)%nat then
        let parentpos := ((pos - 1) / 2)%nat in
        match nth_error heap pos, nth_error heap parentpos with
        | Some newitem, Some parent =>
            if ltb newitem parent
            then siftdown fuel' (swap heap pos parentpos) startpos parentpos
            else heap
        | _, _ => heap
        end
      else heap
  end.

(** The loop of [_siftup(heap, pos)]: the item goes down to a leaf
    along the smaller children; the leaf's position is returned. *)
Fixpoint siftup_loop (fuel : nat) (heap : list A) (pos : nat)
  : list A * nat :=
  match fuel with
  | O => (heap, pos)
  | S fuel' =>
      let childpos := (2 * pos + 1)%nat in
      if (childpos <? length heap)%nat then
        let rightpos := (childpos + 1)%nat in
        let childpos' :=
          match nth_error heap childpos, nth_error heap rightpos with
          | Some c, Some r => if negb (ltb c r) then rightpos else childpos
          | _, _ => childpos
          end in
        siftup_loop fuel' (swap heap pos childpos') childpos'
      else (heap, pos)
  end.

Definition siftup (heap : list A) (pos : nat) : list A :=
  let (heap', leaf) := siftup_loop (length heap) heap pos in
  siftdown (length heap) heap' pos leaf.

(** [heapify(x)]: [for i in reversed(range(n//2)): _siftup(x, i)] *)
Definition heapify (x : list A) : list A :=
  fold_left siftup (rev (seq 0 (length x / 2))) x.

(** [heapreplace(heap, item)]; the caller has checked [heap[0]]. *)
Definition heapreplace (heap : list A) (item : A) : list A :=
  siftup (list_set heap 0 item) 0.
End Heapq.

(** A monadic [map]: a list comprehension whose body may raise. *)
Fixpoint traverse {A B : Type} (f : A -> result B) (l : list A)
  : result (list B) :=
  match l with
  | [] => Returned []
  | a :: l' => b <- f a ;; bs <- traverse f l' ;; Returned (b :: bs)
  end.

(** Comparison of two lists of floats with [>]: the first position where
    they differ (by [==]) decides; a proper prefix is the smaller list. *)
Fixpoint list_gtb (a b : list pyfloat) : bool :=
  match a, b with
  | x :: a', y :: b' => if fl_eqb x y then list_gtb a' b' else fl_gtb x y
  | _ :: _, [] => true
  | [], _ => false
  end.

(** [l * k] on a Python list is repetition. *)
Fixpoint list_mul {A : Type} (l : list A) (k : nat) : list A :=
  match k with
  | O => []
  | S k' => l ++ list_mul l k'
  end.

(** ** 1-D learner ([Learner1D]) *)

Module Learner1D.

(** A [SortedDict] is kept in ascending key order. *)
Definition nbrs : Type := (option R * option R)%type.

Fixpoint bisect_left (ks : list R) (x : R) : nat :=
  match ks with
  | [] => 0
  | k :: ks' => if Rlt_dec k x then S (bisect_left ks' x) else 0
  end.

Fixpoint sd_set {V : Type} (d : list (R * V)) (x : R) (v : V)
  : list (R * V) :=
  match d with
  | [] => [(x, v)]
  | (k, w) :: d' =>
      if Rlt_dec k x then (k, w) :: sd_set d' x v
      else if Req_dec_T k x then (k, v) :: d'
      else (x, v) :: (k, w) :: d'
  end.

Record learner : Type := mk {
  losses : dict (R * R) R;
  losses_combined : dict (R * R) R;
  data : list (R * R);
  data_interp : dict R (option R);
  neighbors : list (R * nbrs);
  neighbors_combined : list (R * nbrs);
  (** [_bbox[0]] *)
  bbox_x : R * R;
  (** [_bbox[1]]; [None] stands for the initial [[inf, -inf]], which the
      first real value replaces by [[y, y]]. *)
  bbox_y : option (R * R);
  scale : R * pyfloat;
  oldscale : R * pyfloat;
  bounds : R * R
}.

Definition init (bounds : R * R) : learner :=
  let s := ((snd bounds - fst bounds)%R, Fin 0) in
  mk [] [] [] [] [] [] bounds None s s bounds.

Definition real_data (d : list (R * R)) : dict R (option R) :=
  map (fun kv => (fst kv, Some (snd kv))) d.

(** [{**self.data, **self.data_interp}] *)
Definition data_combined (d : list (R * R)) (di : dict R (option R))
  : dict R (option R) :=
  fold_left (fun acc kv => dict_set acc (fst kv) (snd kv)) di (real_data d).

Definition lookup (d : dict R (option R)) (x : R) : result (option R) :=
  match dict_get d x with
  | Some v => Returned v
  | None => Raised KeyError
  end.

Definition number (v : option R) : result R :=
  match v with
  | Some r => Returned r
  | None => Raised TypeError
  end.

Definition interval_loss (scale : R * pyfloat) (x_left x_right : R)
  (d : dict R (option R)) : result R :=
  y_right <- lookup d x_right ;;
  y_left <- lookup d x_left ;;
  if fl_eqb (snd scale) (Fin 0) then
    dx <- fl_div (x_right - x_left) (Fin (fst scale)) ;;
    py_sqrt (dx ^ 2)
  else
    dx <- fl_div (x_right - x_left) (Fin (fst scale)) ;;
    yr <- number y_right ;;
    yl <- number y_left ;;
    dy <- fl_div (yr - yl) (snd scale) ;;
    py_sqrt (dx ^ 2 + dy ^ 2).

Definition loss (l : learner) (real : bool) : result pyfloat :=
  let ls := if real then losses l else losses_combined l in
  match ls with
  | [] => Returned PInf
  | _ => m <- py_max (dict_values ls) ;; Returned (Fin m)
  end.

Definition update_losses (scale : R * pyfloat) (x : R)
  (d : dict R (option R)) (neighbors : list (R * nbrs))
  (losses : dict (R * R) R) : result (dict (R * R) R) :=
  match dict_get neighbors x with
  | None => Raised KeyError
  | Some (x_lower, x_upper) =>
      l1 <- match x_lower with
            | Some lo =>
                v <- interval_loss scale lo x d ;;
                Returned (dict_set losses (lo, x) v)
            | None => Returned losses
            end ;;
      l2 <- match x_upper with
            | Some up =>
                v <- interval_loss scale x up d ;;
                Returned (dict_set l1 (x, up) v)
            | None => Returned l1
            end ;;
      Returned match x_lower, x_upper with
               | Some lo, Some up => dict_del l2 (lo, up)
               | _, _ => l2
               end
  end.

Definition find_neighbors (x : R) (neighbors : list (R * nbrs)) : nbrs :=
  let ks := dict_keys neighbors in
  let pos := bisect_left ks x in
  (if (pos =? 0)%nat then None else nth_error ks (pos - 1),
   if (pos =? length ks)%nat then None else nth_error ks pos).

(** [neighbors.get(k, [None, None])[1] = x]: the stored pair is patched
    when [k] is a key; the default list is thrown away otherwise. *)
Definition patch_upper (neighbors : list (R * nbrs)) (k : option R) (x : R)
  : list (R * nbrs) :=
  match k with
  | Some k' =>
      match dict_get neighbors k' with
      | Some (lo, _) => dict_set neighbors k' (lo, Some x)
      | None => neighbors
      end
  | None => neighbors
  end.

Definition patch_lower (neighbors : list (R * nbrs)) (k : option R) (x : R)
  : list (R * nbrs) :=
  match k with
  | Some k' =>
      match dict_get neighbors k' with
      | Some (_, up) => dict_set neighbors k' (Some x, up)
      | None => neighbors
      end
  | None => neighbors
  end.

Definition update_neighbors (x : R) (neighbors : list (R * nbrs))
  : list (R * nbrs) :=
  if dict_mem neighbors x then neighbors
  else
    let (x_lower, x_upper) := find_neighbors x neighbors in
    let n1 := sd_set neighbors x (x_lower, x_upper) in
    let n2 := patch_upper n1 x_lower x in
    patch_lower n2 x_upper x.

Definition update_scale (bx : R * R) (byy : option (R * R)) (x : R)
  (y : option R) : (R * R) * option (R * R) * (R * pyfloat) :=
  let bx' := (py_min2 (fst bx) x, py_max2 (snd bx) x) in
  let by' :=
    match y with
    | Some v =>
        match byy with
        | None => Some (v, v)
        | Some (lo, hi) => Some (py_min2 lo v, py_max2 hi v)
        end
    | None => byy
    end in
  (bx', by',
   ((snd bx' - fst bx')%R,
    match by' with
    | None => NInf
    | Some (lo, hi) => Fin (hi - lo)
    end)).

(** [np.interp(x, xp, fp)] at one abscissa, [xp] increasing: constant
    outside the range, linear between two neighbours. *)
Fixpoint np_interp (x : R) (pts : list (R * R)) : R :=
  match pts with
  | [] => 0%R
  | (x0, y0) :: rest =>
      if Rle_dec x x0 then y0
      else
        match rest with
        | [] => y0
        | (x1, y1) :: _ =>
            if Rlt_dec x x1
            then ((y1 - y0) / (x1 - x0) * (x - x0) + y0)%R
            else np_interp x rest
        end
  end.

(** [interpolate()]; the keys of a dict are distinct, so the
    comprehension keeps them as they are. *)
Definition interpolate (d : list (R * R)) (di : dict R (option R))
  : dict R (option R) :=
  map (fun kv =>
         (fst kv,
          Some match d with
               | [] => 0%R
               | _ => np_interp (fst kv) d
               end)) di.

Definition scale_list (s : R * pyfloat) : list pyfloat :=
  [Fin (fst s); snd s].

(** [{key: interval_loss(k0, k1, data) for key in losses}] *)
Definition recompute (scale : R * pyfloat) (d : dict R (option R))
  (losses : dict (R * R) R) : result (dict (R * R) R) :=
  traverse (fun kv =>
              v <- interval_loss scale (fst (fst kv)) (snd (fst kv)) d ;;
              Returned (fst kv, v)) losses.

Definition add_point (l : learner) (x : R) (y : option R) : result learner :=
  let data' := match y with Some v => sd_set (data l) x v | None => data l end in
  let interp1 :=
    match y with
    | Some _ => dict_del (data_interp l) x
    | None => dict_set (data_interp l) x None
    end in
  let nc := update_neighbors x (neighbors_combined l) in
  let nr := match y with
            | Some _ => update_neighbors x (neighbors l)
            | None => neighbors l
            end in
  let '(bx, byy, sc) := update_scale (bbox_x l) (bbox_y l) x y in
  let interp2 := match y with
                 | Some _ => interp1
                 | None => interpolate data' interp1
                 end in
  lc <- update_losses sc x (data_combined data' interp2) nc
          (losses_combined l) ;;
  match y with
  | None =>
      Returned (mk (losses l) lc data' interp2 nr nc bx byy sc
                   (oldscale l) (bounds l))
  | Some _ =>
      lr <- update_losses sc x (real_data data') nr (losses l) ;;
      if list_gtb (scale_list sc) (list_mul (scale_list (oldscale l)) 2)
      then
        lr' <- recompute sc (real_data data') lr ;;
        lc' <- recompute sc (data_combined data' interp2) lc ;;
        Returned (mk lr' lc' data' interp2 nr nc bx byy sc sc (bounds l))
      else
        Returned (mk lr lc data' interp2 nr nc bx byy sc
                     (oldscale l) (bounds l))
  end.

Fixpoint add_points (l : learner) (calls : list (R * option R))
  : result learner :=
  match calls with
  | [] => Returned l
  | (x, y) :: cs => l' <- add_point l x y ;; add_points l' cs
  end.

(** What [choose_points] hands back: the bare [[]] of [n == 0], or the
    pair of points and loss improvements. *)
Inductive choice : Type :=
| Bare
| Chosen (xs : list R) (loss_improvements : list pyfloat).

Definition qual : Type := (R * (R * R) * nat)%type.

(** [<] on the tuples [(quality, x_range, n)] *)
Definition qual_ltb (a b : qual) : bool :=
  let '(qa, (a0, a1), na) := a in
  let '(qb, (b0, b1), nb) := b in
  if Reqb qa qb then
    if Reqb a0 b0 then
      if Reqb a1 b1 then (na <? nb)%nat else Rltb a1 b1
    else Rltb a0 b0
  else Rltb qa qb.

(** The local function [points(x, n)], over exact reals: between two
    neighbouring floats [x[0] + step * i] is rounded onto one of them. *)
Definition points (x : R * R) (n : nat) : result (list R) :=
  match n with
  | O => Raised ZeroDivisionError
  | S O => Returned []
  | _ =>
      let step := ((snd x - fst x) / INR n)%R in
      Returned (map (fun i => (fst x + step * INR i)%R) (seq 1 (n - 1)))
  end.

(** [np.linspace(a, b, n)] for [n >= 2] *)
Definition linspace (a b : R) (n : nat) : list R :=
  map (fun i => (a + INR i * ((b - a) / INR (n - 1)))%R) (seq 0 n).

(** [n] rounds of [quals[0]] and [heapreplace]. *)
Fixpoint allocate (n : nat) (quals : list qual) : result (list qual) :=
  match n with
  | O => Returned quals
  | S n' =>
      match quals with
      | [] => Raised IndexError
      | (quality, x, k) :: _ =>
          allocate n'
            (heapreplace qual_ltb quals
               ((quality * INR k / INR (k + 1))%R, x, S k))
      end
  end.

Definition missing_bounds (l : learner) : list R :=
  filter (fun b => negb (dict_mem (data l) b)
                   && negb (dict_mem (data_interp l) b))
         [fst (bounds l); snd (bounds l)].

(** [choose_points(n, add_data)].

    On the last path [add_data] is handed the local function [points]
    instead of the list [xs].  [zip] rejects it with a [TypeError], the
    handler of [BaseLearner.add_data] then calls [add_point(points,
    None)], and a function cannot be ordered against the float keys:
    [bisect_left] (or, on an empty neighbour map, [min] in
    [update_scale]) raises [TypeError], which leaves [choose_points]. *)
Definition choose_points (l : learner) (n : nat) (add : bool)
  : result (choice * learner) :=
  match n with
  | O => Returned (Bare, l)
  | _ =>
      match missing_bounds l with
      | (_ :: _) as xs =>
          let loss_improvements := repeat PInf n in
          if (n <=? 2)%nat
          then Returned (Chosen (firstn n xs) loss_improvements, l)
          else Returned (Chosen (linspace (fst (bounds l)) (snd (bounds l)) n)
                                loss_improvements, l)
      | [] =>
          let quals :=
            heapify qual_ltb
              (map (fun kv => ((- snd kv)%R, fst kv, 1%nat))
                   (losses_combined l)) in
          quals' <- allocate n quals ;;
          xss <- traverse (fun q : qual => points (snd (fst q)) (snd q))
                   quals' ;;
          let xs := concat xss in
          let loss_improvements :=
            flat_map (fun q : qual =>
                        repeat (Fin (- fst (fst q))) (snd q)) quals' in
          if add then Raised TypeError
          else Returned (Chosen xs loss_improvements, l)
      end
  end.

Definition remove_unfinished (l : learner) : learner :=
  mk (losses l) (losses l) (data l) [] (neighbors l) (neighbors l)
     (bbox_x l) (bbox_y l) (scale l) (oldscale l) (bounds l).

End Learner1D.

(** ** 2-D learner ([learner2D.py]) *)

Module Learner2D.

Definition point : Type := (R * R)%type.
Definition triangle : Type := (point * point * point)%type.

Definition psub (p q : point) : point :=
  ((fst p - fst q)%R, (snd p - snd q)%R).

(** [np.cross] of two plane vectors *)
Definition cross (u v : point) : R := (fst u * snd v - snd u * fst v)%R.

(** [np.linalg.norm] of a plane vector *)
Definition norm (u : point) : R := sqrt (fst u ^ 2 + snd u ^ 2).

(** A numpy float that may be [nan] ([None]). *)
Definition npfloat : Type := option pyfloat.

(** The sign of a float zero, which a real number does not carry.  A
    product is [-0.0] when one factor is zero and the other negative; the
    zero factors here are differences of two equal coordinates, which are
    [+0.0] (the coordinates themselves are taken not to be [-0.0]). *)
Definition neg_zero_mul (x y : R) : bool :=
  (Reqb x 0 && Rltb y 0) || (Reqb y 0 && Rltb x 0).

(** [np.cross] of two plane vectors, when it is zero: the difference of
    two zero products is [-0.0] only as [(-0.0) - (+0.0)]; the difference
    of two equal products that are not zero is [+0.0]. *)
Definition cross_neg_zero (u v : point) : bool :=
  neg_zero_mul (fst u) (snd v) && negb (neg_zero_mul (snd u) (fst v)).

(** numpy's division of a non-negative number by a number: no exception,
    [nan] for zero by zero, and otherwise on a zero divisor the infinity
    that has the sign of the zero ([neg_zero] says that it is [-0.0]). *)
Definition np_div (a b : R) (neg_zero : bool) : npfloat :=
  if Req_dec_T b 0 then
    if Req_dec_T a 0 then None
    else Some (if neg_zero then NInf else PInf)
  else Some (Fin (a / b)).

(** Multiplication by a positive constant. *)
Definition np_scale (x : npfloat) (c : R) : npfloat :=
  match x with
  | Some (Fin r) => Some (Fin (r * c))
  | other => other
  end.

(** [x > m]; false on [nan]. *)
Definition np_gtb (x : npfloat) (m : R) : bool :=
  match x with
  | Some v => fl_gtb v (Fin m)
  | None => false
  end.

(** [np.argmax] of three lengths: the first position of the maximum. *)
Definition argmax3 (e0 e1 e2 : R) : nat :=
  if Rlt_dec e0 e1
  then (if Rlt_dec e1 e2 then 2 else 1)%nat
  else (if Rlt_dec e0 e2 then 2 else 0)%nat.

Definition vertex (t : triangle) (i : nat) : point :=
  let '(a, b, c) := t in
  match i with O => a | S O => b | _ => c end.

(** [np.roll(triangle, 1, axis=0)] *)
Definition roll (t : triangle) : triangle :=
  let '(a, b, c) := t in (c, a, b).

Definition edge_length (t : triangle) (i : nat) : R :=
  norm (psub (vertex t i) (vertex (roll t) i)).

Definition signed_area (t : triangle) : R :=
  let '(a, b, c) := t in (0.5 * cross (psub b a) (psub c a))%R.

(** Whether a zero [area] is [-0.0]: multiplying by [0.5] keeps the
    sign. *)
Definition area_neg_zero (t : triangle) : bool :=
  let '(a, b, c) := t in cross_neg_zero (psub b a) (psub c a).

Definition longest_edge (t : triangle) : nat :=
  argmax3 (edge_length t 0) (edge_length t 1) (edge_length t 2).

Definition badness (t : triangle) : npfloat :=
  let i := longest_edge t in
  np_scale (np_div (edge_length t i ^ 2) (signed_area t) (area_neg_zero t))
           (sqrt 3 / 4).

Definition midpoint (p q : point) : point :=
  (((fst p + fst q) / 2)%R, ((snd p + snd q) / 2)%R).

(** [triangle.mean(axis=0)] *)
Definition centroid (t : triangle) : point :=
  let '(a, b, c) := t in
  (((fst a + fst b + fst c) / 3)%R, ((snd a + snd b + snd c) / 3)%R).

Definition choose_point_in_triangle (t : triangle) (max_badness : R)
  : point :=
  let i := longest_edge t in
  if np_gtb (badness t) max_badness
  then midpoint (vertex (roll t) i) (vertex t i)
  else centroid t.

(** One entry of [areas(ip)]: [p] is a row of
    [ip.tri.points[ip.tri.vertices]], [q] its first two vertices
    relative to the last one. *)
Definition area (p : triangle) : R :=
  let '(p0, p1, p2) := p in
  let q0 := psub p0 p2 in
  let q1 := psub p1 p2 in
  (Rabs (fst q0 * snd q1 - snd q0 * fst q1) / 2)%R.

Definition areas (p : list triangle) : list R := map area p.

(** The sum over the last axis of an elementwise product. *)
Definition dot (u v : point) : R := (fst u * fst v + snd u * snd v)%R.

Definition value3 (v : R * R * R) (i : nat) : R :=
  let '(a, b, c) := v in
  match i with O => a | S O => b | _ => c end.

(** [vest[k]] in round [j] of [deviation]: the value at vertex [k] as the
    value and the gradient at vertex [j] predict it. *)
Definition vest (p : triangle) (v : R * R * R) (g : triangle) (j k : nat)
  : R :=
  (value3 v j + dot (psub (vertex p k) (vertex p j)) (vertex g j))%R.

(** [.max(axis=1)] over the three vertices *)
Definition max3 (a b c : R) : R := py_max2 (py_max2 a b) c.

(** One entry of [deviation(p, v, g)]: the vertices [p], the values [v]
    and the gradients [g] of one triangle, for one component of the
    learned function. *)
Definition deviation (p : triangle) (v : R * R * R) (g : triangle) : R :=
  fold_left
    (fun dev j =>
       (dev + max3 (Rabs (vest p v g j 0 - value3 v 0))
                   (Rabs (vest p v g j 1 - value3 v 1))
                   (Rabs (vest p v g j 2 - value3 v 2)))%R)
    [0; 1; 2]%nat 0%R.

(** One entry of [_default_loss_per_triangle(ip)]: the deviations of the
    components, each times the square root of the area, summed. *)
Definition default_loss_per_triangle (p : triangle)
  (levels : list ((R * R * R) * triangle)) : R :=
  fold_left Rplus
    (map (fun lv => (deviation p (fst lv) (snd lv) * sqrt (area p))%R) levels)
    0%R.

(** A Python [set] of points.  Python leaves the iteration order of a set
    open; the list keeps the order of insertion, and [list(self._interp)]
    is read in that order.  Membership, [add], [discard] and [remove] do
    not depend on it. *)
Definition set_add (s : list point) (p : point) : list point :=
  if in_dec dec_eq p s then s else s ++ [p].

Definition set_discard (s : list point) (p : point) : list point :=
  filter (fun q => if dec_eq q p then false else true) s.

Definition set_mem (s : list point) (p : point) : bool :=
  if in_dec dec_eq p s then true else false.

(** [set.remove]: a missing element is a [KeyError]. *)
Definition set_remove (s : list point) (p : point) : result (list point) :=
  if set_mem s p then Returned (set_discard s p) else Raised KeyError.

(** [np.argmax] of a non-empty array of floats. *)
Fixpoint argmax_from (best : pyfloat) (ibest i : nat) (l : list pyfloat)
  : nat :=
  match l with
  | [] => ibest
  | x :: l' =>
      if fl_gtb x best then argmax_from x i (S i) l'
      else argmax_from best ibest (S i) l'
  end.

Definition argmax (l : list pyfloat) : nat :=
  match l with
  | [] => O
  | x :: l' => argmax_from x 0 1 l'
  end.

Section Engine.
(** What scipy provides: the interpolant built from points and values,
    its evaluation, and the vertices of its [j]-th simplex
    ([ip.tri.points[ip.tri.vertices[j]]]). *)
Variable V : Type.
Variable zeros : V.
Variable Interp : Type.
Variable LinearNDInterpolator : list point -> list V -> result Interp.
Variable ip_call : Interp -> list point -> list V.
Variable simplex : Interp -> nat -> triangle.

Record learner : Type := mk {
  loss_per_triangle : Interp -> list R;
  bounds : (R * R) * (R * R);
  data : dict point V;
  stack : dict point pyfloat;
  interp : list point;
  bounds_points : list point;
  ip_cache : option Interp;
  ip_combined_cache : option Interp;
  stack_size : nat
}.

(** [itertools.product] of the two bounds *)
Definition corners (b : (R * R) * (R * R)) : list point :=
  let '((a1, b1), (a2, b2)) := b in
  [(a1, a2); (a1, b2); (b1, a2); (b1, b2)].

Definition init (lpt : Interp -> list R) (b : (R * R) * (R * R))
  : learner :=
  mk lpt b [] (map (fun p => (p, PInf)) (corners b)) [] (corners b)
     None None 10.

Definition xy_mean (b : (R * R) * (R * R)) : point :=
  (((fst (fst b) + snd (fst b)) / 2)%R, ((fst (snd b) + snd (snd b)) / 2)%R).

(** [np.ptp(self.bounds, axis=1)]: the largest minus the smallest entry
    of each pair, whatever their order. *)
Definition xy_scale (b : (R * R) * (R * R)) : point :=
  ((Rmax (fst (fst b)) (snd (fst b)) - Rmin (fst (fst b)) (snd (fst b)))%R,
   (Rmax (fst (snd b)) (snd (snd b)) - Rmin (fst (snd b)) (snd (snd b)))%R).

(** [scale(points)]: an empty list is an array of shape (0,), which
    numpy cannot broadcast against the two means. *)
Definition scale (b : (R * R) * (R * R)) (pts : list point)
  : result (list point) :=
  match pts with
  | [] => Raised ValueError
  | _ =>
      Returned
        (map (fun p =>
                (((fst p - fst (xy_mean b)) / fst (xy_scale b))%R,
                 ((snd p - snd (xy_mean b)) / snd (xy_scale b))%R)) pts)
  end.

Definition unscale (b : (R * R) * (R * R)) (p : point) : point :=
  ((fst p * fst (xy_scale b) + fst (xy_mean b))%R,
   (snd p * snd (xy_scale b) + snd (xy_mean b))%R).

Definition bounds_are_done (l : learner) : bool :=
  negb (existsb (fun p => set_mem (interp l) p || dict_mem (stack l) p)
                (bounds_points l)).

Definition with_ip (l : learner) (c : option Interp) : learner :=
  mk (loss_per_triangle l) (bounds l) (data l) (stack l) (interp l)
     (bounds_points l) c (ip_combined_cache l) (stack_size l).

Definition with_ip_combined (l : learner) (c : option Interp) : learner :=
  mk (loss_per_triangle l) (bounds l) (data l) (stack l) (interp l)
     (bounds_points l) (ip_cache l) c (stack_size l).

Definition with_stack (l : learner) (s : dict point pyfloat) : learner :=
  mk (loss_per_triangle l) (bounds l) (data l) s (interp l)
     (bounds_points l) (ip_cache l) (ip_combined_cache l) (stack_size l).

Definition with_interp (l : learner) (s : list point) : learner :=
  mk (loss_per_triangle l) (bounds l) (data l) (stack l) s
     (bounds_points l) (ip_cache l) (ip_combined_cache l) (stack_size l).

Definition ip (l : learner) : result (Interp * learner) :=
  match ip_cache l with
  | Some i => Returned (i, l)
  | None =>
      pts <- scale (bounds l) (dict_keys (data l)) ;;
      i <- LinearNDInterpolator pts (dict_values (data l)) ;;
      Returned (i, with_ip l (Some i))
  end.

Definition data_combined (l : learner)
  : result (dict point V * learner) :=
  match interp l with
  | [] => Returned (data l, l)
  | points_interp =>
      '(values_interp, l') <-
        (if bounds_are_done l then
           '(i, l') <- ip l ;;
           pts <- scale (bounds l) points_interp ;;
           Returned (ip_call i pts, l')
         else Returned (repeat zeros (length points_interp), l)) ;;
      Returned
        (fold_left (fun d pv => dict_set d (fst pv) (snd pv))
                   (combine points_interp values_interp) (data l), l')
  end.

Definition ip_combined (l : learner) : result (Interp * learner) :=
  match ip_combined_cache l with
  | Some i => Returned (i, l)
  | None =>
      '(dc, l') <- data_combined l ;;
      pts <- scale (bounds l) (dict_keys dc) ;;
      i <- LinearNDInterpolator pts (dict_values dc) ;;
      Returned (i, with_ip_combined l' (Some i))
  end.

Definition add_point (l : learner) (p : point) (value : option V)
  : learner :=
  match value with
  | None =>
      mk (loss_per_triangle l) (bounds l) (data l)
         (dict_del (stack l) p) (set_add (interp l) p)
         (bounds_points l) (ip_cache l) None (stack_size l)
  | Some v =>
      mk (loss_per_triangle l) (bounds l) (dict_set (data l) p v)
         (dict_del (stack l) p) (set_discard (interp l) p)
         (bounds_points l) None (ip_combined_cache l) (stack_size l)
  end.

Definition add_pending (l : learner) (pts : list point) : learner :=
  fold_left (fun l p => add_point l p None) pts l.

(** The loop of [_fill_stack]: one round per triangle. *)
Fixpoint fill_loop (rounds : nat) (i : Interp) (b : (R * R) * (R * R))
  (stack_till : nat) (losses : list pyfloat) (stk : dict point pyfloat)
  : list point * list pyfloat * dict point pyfloat :=
  match rounds with
  | O => ([], [], stk)
  | S rounds' =>
      let jsimplex := argmax losses in
      let point_new :=
        unscale b (choose_point_in_triangle (simplex i jsimplex) 5) in
      let loss_new := nth jsimplex losses NInf in
      let stk' := dict_set stk point_new loss_new in
      if (stack_till <=? length stk')%nat
      then ([point_new], [loss_new], stk')
      else
        let '(ps, ls, stk'') :=
          fill_loop rounds' i b stack_till
                    (list_set losses jsimplex NInf) stk' in
        (point_new :: ps, loss_new :: ls, stk'')
  end.

Definition fill_stack (l : learner) (stack_till : nat)
  : result (list point * list pyfloat * learner) :=
  if (length (data l) + length (interp l) <? 3)%nat
  then Raised ValueError
  else
    '(i, l') <- ip_combined l ;;
    let losses := map Fin (loss_per_triangle l i) in
    let '(ps, ls, stk) :=
      fill_loop (length losses) i (bounds l) stack_till losses (stack l') in
    Returned (ps, ls, with_stack l' stk).

Definition split_stack (l : learner) (n : nat)
  : list point * list pyfloat :=
  let items := rev (stack l) in
  (firstn n (map fst items), firstn n (map snd items)).

(** The [while n_left > 0] loop of [choose_points]; [fuel] bounds the
    number of rounds. *)
Fixpoint refill (fuel : nat) (l : learner) (n_left : nat)
  (points : list point) (loss_improvements : list pyfloat)
  : option (result (list point * list pyfloat * learner)) :=
  match n_left with
  | O => Some (Returned (points, loss_improvements, l))
  | _ =>
      match fuel with
      | O => None
      | S fuel' =>
          match fill_stack l (Nat.max n_left (stack_size l)) with
          | Raised e => Some (Raised e)
          | Returned (new_points, new_losses, l') =>
              refill fuel' (add_pending l' new_points)
                     (n_left - length new_points)
                     (points ++ new_points)
                     (loss_improvements ++ new_losses)
          end
      end
  end.

Fixpoint restack (n : nat) (add : bool) (i : nat)
  (pts : list (point * pyfloat)) (stk : dict point pyfloat)
  : dict point pyfloat :=
  match pts with
  | [] => stk
  | (p, li) :: pts' =>
      restack n add (S i) pts'
        (if (n <=? i)%nat || negb add then dict_set stk p li else stk)
  end.

Fixpoint remove_all (s : list point) (pts : list point)
  : result (list point) :=
  match pts with
  | [] => Returned s
  | p :: pts' => s' <- set_remove s p ;; remove_all s' pts'
  end.

Definition choose_points (fuel : nat) (l : learner) (n : nat) (add : bool)
  : option (result (list point * list pyfloat * learner)) :=
  let '(points, loss_improvements) := split_stack l n in
  let l1 := add_pending l points in
  match refill fuel l1 (n - length points) points loss_improvements with
  | None => None
  | Some (Raised e) => Some (Raised e)
  | Some (Returned (points, loss_improvements, l2)) =>
      let l3 :=
        with_stack l2 (restack n add 0 (combine points loss_improvements)
                               (stack l2)) in
      Some
        (s <- (if add then Returned (interp l3)
               else remove_all (interp l3) points) ;;
         Returned (firstn n points, firstn n loss_improvements,
                   with_interp l3 s))
  end.

Definition loss (l : learner) (real : bool)
  : result (pyfloat * learner) :=
  if negb (bounds_are_done l) then Returned (PInf, l)
  else
    '(i, l') <- (if real then ip l else ip_combined l) ;;
    m <- py_max (loss_per_triangle l i) ;;
    Returned (Fin m, l').

Definition remove_unfinished (l : learner) : learner :=
  with_interp l [].

End Engine.

End Learner2D.

(** ** Snapshots ([__getstate__], [__setstate__], [restore])

    Learner objects live in a store, addressed by identity.  The attribute
    dictionary of a learner is a value of the embedding, so its deep copy
    is the value itself; [__setstate__] replaces the dictionary of the
    object it is called on. *)

Section Restore.
Variable L : Type.

Definition store : Type := nat -> L.

Definition deepcopy (state : L) : L := state.

Definition getstate (s : store) (learner : nat) : L := deepcopy (s learner).

Definition setstate (s : store) (learner : nat) (state : L) : store :=
  fun o => if (o =? learner)%nat then state else s o.

(** [with restore(learners): body].  The body hands back the store it
    leaves behind together with its outcome, also when it raises; the
    [finally] clause runs either way and the outcome is passed on. *)
Definition restore {A : Type} (learners : list nat)
  (body : store -> store * result A) (s : store) : store * result A :=
  let states := map (getstate s) learners in
  let (s', outcome) := body s in
  (fold_left (fun st sl => setstate st (snd sl) (fst sl))
             (combine states learners) s',
   outcome).
End Restore.

(** ** Balancing learner ([BalancingLearner])

    The wrapped learners are the objects [0 .. k-1] of the store.  A child
    call that raises ends the body with the store as it was before that
    call. *)

Section Balancing.
Variables L X Y LI : Type.
Variable child_choose_points :
  L -> nat -> bool -> result (list X * list LI * L).
Variable child_add_point : L -> X -> option Y -> result L.
(** [>] on two loss improvements, as [max] uses it. *)
Variable li_gtb : LI -> LI -> result bool.

(** The inner loop over [enumerate(self.learners)]. *)
Fixpoint propose (s : store L) (indices : list nat)
  : store L * result (list ((nat * X) * LI)) :=
  match indices with
  | [] => (s, Returned [])
  | index :: rest =>
      match child_choose_points (s index) 1 false with
      | Raised e => (s, Raised e)
      | Returned (point, loss_improvement, l') =>
          let s' := setstate s index l' in
          match loss_improvement, point with
          | li :: _, p :: _ =>
              match propose s' rest with
              | (s'', Returned ps) => (s'', Returned (((index, p), li) :: ps))
              | (s'', Raised e) => (s'', Raised e)
              end
          | _, _ => (s', Raised IndexError)
          end
      end
  end.

(** [max(zip(pairs, loss_improvements), key=itemgetter(1))] *)
Fixpoint max_by_key (best : (nat * X) * LI) (l : list ((nat * X) * LI))
  : result ((nat * X) * LI) :=
  match l with
  | [] => Returned best
  | c :: l' =>
      g <- li_gtb (snd c) (snd best) ;;
      max_by_key (if g then c else best) l'
  end.

Definition balancing_add_point (s : store L) (x : nat * X) (y : option Y)
  : store L * result unit :=
  match child_add_point (s (fst x)) (snd x) y with
  | Returned l' => (setstate s (fst x) l', Returned tt)
  | Raised e => (s, Raised e)
  end.

(** [_choose_and_add_points(n)]; its second component is [None]. *)
Fixpoint choose_and_add_points (k : nat) (n : nat) (s : store L)
  : store L * result (list (nat * X) * option (list LI)) :=
  match n with
  | O => (s, Returned ([], None))
  | S n' =>
      match propose s (seq 0 k) with
      | (s1, Raised e) => (s1, Raised e)
      | (s1, Returned []) => (s1, Raised ValueError)
      | (s1, Returned (c :: cs)) =>
          match max_by_key c cs with
          | Raised e => (s1, Raised e)
          | Returned (x, _) =>
              match balancing_add_point s1 x None with
              | (s2, Raised e) => (s2, Raised e)
              | (s2, Returned _) =>
                  match choose_and_add_points k n' s2 with
                  | (s3, Returned (points, none)) =>
                      (s3, Returned (x :: points, none))
                  | (s3, Raised e) => (s3, Raised e)
                  end
              end
          end
      end
  end.

Definition balancing_choose_points (k : nat) (n : nat) (add : bool)
  (s : store L) : store L * result (list (nat * X) * option (list LI)) :=
  if negb add
  then restore (seq 0 k) (choose_and_add_points k n) s
  else choose_and_add_points k n s.
End Balancing.

(** [add_point] calls on the learners of a store, up to the first one that
    raises. *)
Fixpoint add_point_calls {L X Y : Type}
  (add_point : L -> X -> option Y -> result L)
  (calls : list ((nat * X) * option Y)) (s : store L)
  : store L * result unit :=
  match calls with
  | [] => (s, Returned tt)
  | (x, y) :: rest =>
      match balancing_add_point add_point s x y with
      | (s', Returned _) => add_point_calls add_point rest s'
      | (s', Raised e) => (s', Raised e)
      end
  end.

(** ** The loss of the balancing learner

    [max(learner.loss(real) for learner in self.learners)].  A child's
    [loss] may change the child (the 2-D learner caches its interpolant),
    so it hands back the child as well. *)

(** The builtin [max] keeps its first argument unless the next one is
    greater. *)
Definition fl_max2 (a b : pyfloat) : pyfloat := if fl_gtb b a then b else a.

Section BalancingLoss.
Variable L : Type.
Variable child_loss : L -> bool -> result (pyfloat * L).

Fixpoint child_losses (real : bool) (s : store L) (indices : list nat)
  : store L * result (list pyfloat) :=
  match indices with
  | [] => (s, Returned [])
  | index :: rest =>
      match child_loss (s index) real with
      | Raised e => (s, Raised e)
      | Returned (v, l') =>
          match child_losses real (setstate s index l') rest with
          | (s', Returned vs) => (s', Returned (v :: vs))
          | (s', Raised e) => (s', Raised e)
          end
      end
  end.

Definition balancing_loss (k : nat) (real : bool) (s : store L)
  : store L * result pyfloat :=
  match child_losses real s (seq 0 k) with
  | (s', Returned []) => (s', Raised ValueError)
  | (s', Returned (v :: vs)) => (s', Returned (fold_left fl_max2 vs v))
  | (s', Raised e) => (s', Raised e)
  end.
End BalancingLoss.

(** ** The 2-D learner of [learner.py]

    [learner.py] has a [Learner2D] of its own, which keeps its points and
    values in two numpy arrays that grow as points come in.  A pending
    point is stored with the value [None], which a float array holds as
    [nan]; [_interp] maps it to its row.  The model is of the default
    [dtype=float] and of two-dimensional bounds; [_fill_stack] and
    [_choose_and_add_points], which call scipy's triangulation, are not
    part of it. *)

Module LegacyLearner2D.

Definition point : Type := (R * R)%type.

(** [np.resize(a, m)]: [m] entries, taken from [a] over and over; zeros
    when [a] is empty. *)
Definition np_resize {A : Type} (zero : A) (a : list A) (m : nat) : list A :=
  match a with
  | [] => repeat zero m
  | _ => map (fun i => nth (i mod length a) a zero) (seq 0 m)
  end.

(** [a[i] = x]; an index past the end is an [IndexError]. *)
Definition store_at {A : Type} (a : list A) (i : nat) (x : A)
  : result (list A) :=
  if (i <? length a)%nat then Returned (list_set a i x)
  else Raised IndexError.

(** [np.delete(a, idx, axis=0)]: the rows whose index is not in [idx];
    an index past the end is an [IndexError]. *)
Definition np_delete {A : Type} (a : list A) (idx : list nat)
  : result (list A) :=
  if forallb (fun j => (j <? length a)%nat) idx
  then Returned
         (map snd
            (filter (fun ir => negb (existsb (Nat.eqb (fst ir)) idx))
                    (combine (seq 0 (length a)) a)))
  else Raised IndexError.

Record learner : Type := mk {
  bounds : (R * R) * (R * R);
  (** [_points] and [_values], with the rows that are not in use yet *)
  raw_points : list point;
  raw_values : list (option R);
  n : nat;
  nstack : nat;
  stack : list point;
  interp : dict point nat
}.

Definition init (b : (R * R) * (R * R)) : learner :=
  let '((a1, b1), (a2, b2)) := b in
  mk b (repeat (0%R, 0%R) 100) (repeat (Some 0%R) 100) 0 10
     [(a1, a2); (b1, a2); (a1, b2); (b1, b2)] [].

Definition points (l : learner) : list point := firstn (n l) (raw_points l).
Definition values (l : learner) : list (option R) :=
  firstn (n l) (raw_values l).

Definition points_real (l : learner) : result (list point) :=
  np_delete (points l) (dict_values (interp l)).

Definition values_real (l : learner) : result (list (option R)) :=
  np_delete (values l) (dict_values (interp l)).

Definition n_real (l : learner) : Z :=
  (Z.of_nat (n l) - Z.of_nat (length (interp l)))%Z.

Definition add_point (l : learner) (p : point) (value : option R)
  : result learner :=
  let nmax := length (values l) in
  let grow := (nmax <=? n l)%nat in
  let vals := if grow
              then np_resize (Some 0%R) (raw_values l) (2 * nmax + 10)
              else raw_values l in
  let pts := if grow
             then np_resize (0%R, 0%R) (raw_points l) (2 * nmax + 10)
             else raw_points l in
  let interp1 := match value with
                 | None => dict_set (interp l) p (n l)
                 | Some _ => interp l
                 end in
  let old_point := match value with
                   | None => false
                   | Some _ => dict_mem interp1 p
                   end in
  if old_point then
    match dict_get interp1 p with
    | None => Raised KeyError
    | Some k =>
        pts' <- store_at pts k p ;;
        vals' <- store_at vals k value ;;
        Returned (mk (bounds l) pts' vals' (n l) (nstack l) (stack l)
                     (dict_del interp1 p))
    end
  else
    pts' <- store_at pts (n l) p ;;
    vals' <- store_at vals (n l) value ;;
    Returned (mk (bounds l) pts' vals' (S (n l)) (nstack l) (stack l)
                 interp1).

(** [loss()] is the number of real points. *)
Definition loss (l : learner) : Z := n_real l.

(** [remove_unfinished()].  [self.n -= len(self._interp)] is a
    subtraction of natural numbers here: the pending points of a learner
    that was built by calls never outnumber its rows ([pending_below]
    with [run_consistent]), so the difference is never cut off there. *)
Definition remove_unfinished (l : learner) : result learner :=
  pr <- points_real l ;;
  vr <- values_real l ;;
  Returned (mk (bounds l) pr vr (n l - length (interp l)) (nstack l)
               (stack l) []).

(** The two calls that change the learner. *)
Inductive call : Type :=
| AddPoint (p : point) (value : option R)
| RemoveUnfinished.

Fixpoint run (l : learner) (cs : list call) : result learner :=
  match cs with
  | [] => Returned l
  | AddPoint p v :: cs' => l' <- add_point l p v ;; run l' cs'
  | RemoveUnfinished :: cs' => l' <- remove_unfinished l ;; run l' cs'
  end.

(** What the calls keep true: the arrays have one length and hold the
    rows in use; the pending points have rows of their own, which hold
    the point and no value. *)
Definition consistent (l : learner) : Prop :=
  length (raw_points l) = length (raw_values l)
  /\ (n l <= length (raw_points l))%nat
  /\ NoDup (dict_keys (interp l))
  /\ NoDup (dict_values (interp l))
  /\ forall p k,
       dict_get (interp l) p = Some k ->
       (k < n l)%nat
       /\ nth k (raw_points l) (0%R, 0%R) = p
       /\ nth k (raw_values l) (Some 0%R) = None.

End LegacyLearner2D.

(** ** Vocabulary of the properties *)

Open Scope R_scope.

(** *** Scalar-average learner: the textbook statistics *)

Definition Rsum (l : list R) : R := fold_right Rplus 0 l.

Definition arithmetic_mean (vs : list R) : R := Rsum vs / INR (length vs).

(** The Bessel-corrected sample standard deviation. *)
Definition sample_std (vs : list R) : R :=
  sqrt (Rsum (map (fun v => (v - arithmetic_mean vs) ^ 2) vs)
        / (INR (length vs) - 1)).

(** [>] between two loss improvements of the scalar-average learner; these
    are [None], which Python does not order. *)
Definition none_gtb (a b : option R) : result bool :=
  match a, b with
  | Some x, Some y => Returned (Rltb y x)
  | _, _ => Raised TypeError
  end.

(** *** 1-D learner: the shape of the neighbour and loss maps *)

Section Learner1DVocabulary.
Import Learner1D.

Definition hd_or (n : option R) (ks : list R) : option R :=
  match ks with [] => n | k :: _ => Some k end.

Fixpoint last_or (p : option R) (ks : list R) : option R :=
  match ks with [] => p | k :: r => last_or (Some k) r end.

(** The neighbour map that an ascending key list determines: every key
    with the key before and the key after it; [prev] and [nxt] stand
    before the first and after the last key. *)
Fixpoint canon (prev : option R) (ks : list R) (nxt : option R)
  : list (R * nbrs) :=
  match ks with
  | [] => []
  | k :: r => (k, (prev, hd_or nxt r)) :: canon (Some k) r nxt
  end.

(** The adjacent pairs of a key list. *)
Fixpoint adj (ks : list R) : list (R * R) :=
  match ks with
  | [] => []
  | k :: r => match r with
              | [] => []
              | k' :: _ => (k, k') :: adj r
              end
  end.

(** What [update_losses] does to the key set of a loss map. *)
Definition touched (lo up : option R) (x : R) (old : list (R * R))
  (p : R * R) : Prop :=
  (In p old \/ (exists l, lo = Some l /\ p = (l, x))
            \/ (exists u, up = Some u /\ p = (x, u)))
  /\ ~ (exists l u, lo = Some l /\ up = Some u /\ p = (l, u)).

(** A neighbour map and the loss map that goes with it. *)
Definition linked (N : list (R * nbrs)) (L : dict (R * R) R) : Prop :=
  StronglySorted Rlt (dict_keys N)
  /\ N = canon None (dict_keys N) None
  /\ NoDup (dict_keys L)
  /\ forall p, In p (dict_keys L) <-> In p (adj (dict_keys N)).

Definition inv (st : learner) : Prop :=
  linked (neighbors st) (losses st)
  /\ linked (neighbors_combined st) (losses_combined st).

(** Every stored value is a number. *)
Definition numbers (d : dict R (option R)) : Prop :=
  Forall (fun kv => snd kv <> None) d.

Definition covers (d : dict R (option R)) (ks : list R) : Prop :=
  forall k, In k ks -> exists y, dict_get d k = Some (Some y).

Definition spans (sc : R * pyfloat) (ks : list R) : Prop :=
  forall a b, In a ks -> In b ks -> a < b -> b - a <= fst sc.

(** What keeps [add_point] from raising. *)
Definition sound (st : learner) : Prop :=
  dict_keys (neighbors st) = dict_keys (data st)
  /\ (forall k, In k (dict_keys (neighbors_combined st))
                <-> In k (dict_keys (data st))
                    \/ In k (dict_keys (data_interp st)))
  /\ numbers (data_interp st)
  /\ (forall k, In k (dict_keys (neighbors_combined st)) ->
                fst (bbox_x st) <= k <= snd (bbox_x st)).

(** The loss map is keyed exactly by the adjacent pairs of the neighbour
    map: [(a, b)] is a key iff [b] is the right neighbour of [a], iff [a]
    is the left neighbour of [b]. *)
Definition keyed (N : list (R * nbrs)) (L : dict (R * R) R) : Prop :=
  (forall a b, In (a, b) (dict_keys L)
               <-> exists lo, dict_get N a = Some (lo, Some b))
  /\ (forall a b, In (a, b) (dict_keys L)
                  <-> exists up, dict_get N b = Some (Some a, up))
  /\ (forall x lo up, dict_get N x = Some (Some lo, Some up) ->
                      In (lo, x) (dict_keys L) /\ In (x, up) (dict_keys L))
  /\ (forall x up, dict_get N x = Some (None, up) ->
                   forall a, ~ In (a, x) (dict_keys L))
  /\ (forall x lo, dict_get N x = Some (lo, None) ->
                   forall b, ~ In (x, b) (dict_keys L)).

(** The subdivisions and the interior points of an allocation. *)
Definition subdivisions (quals : list qual) : nat :=
  list_sum (map (fun q : qual => snd q) quals).

Definition new_points (quals : list qual) : nat :=
  list_sum (map (fun q : qual => snd q - 1)%nat quals).

End Learner1DVocabulary.

(** *** A run of the 1-D learner on the bounds (0, 1)

    The values 0, 1, 1/4 and 3/2 are observed at 0, 1, 1/4 and 1/2, in this
    order; [run k] is the learner after [k] observations. *)

Definition run0 : Learner1D.learner := Learner1D.init (0, 1).

Definition run1 : Learner1D.learner :=
  Learner1D.mk [] [] [(0, 0)] [] [(0, (None, None))] [(0, (None, None))]
    (0, 1) (Some (0, 0)) (1, Fin 0) (1, Fin 0) (0, 1).

Definition run2 : Learner1D.learner :=
  Learner1D.mk [((0, 1), sqrt (1 ^ 2 + 1 ^ 2))] [((0, 1), sqrt (1 ^ 2 + 1 ^ 2))]
    [(0, 0); (1, 1)] []
    [(0, (None, Some 1)); (1, (Some 0, None))]
    [(0, (None, Some 1)); (1, (Some 0, None))]
    (0, 1) (Some (0, 1)) (1, Fin 1) (1, Fin 1) (0, 1).

Definition losses3 : dict (R * R) R :=
  [((0, 1 / 4), sqrt ((1 / 4) ^ 2 + (1 / 4) ^ 2));
   ((1 / 4, 1), sqrt ((3 / 4) ^ 2 + (3 / 4) ^ 2))].

Definition neighbors3 : list (R * Learner1D.nbrs) :=
  [(0, (None, Some (1 / 4))); (1 / 4, (Some 0, Some 1));
   (1, (Some (1 / 4), None))].

Definition run3 : Learner1D.learner :=
  Learner1D.mk losses3 losses3 [(0, 0); (1 / 4, 1 / 4); (1, 1)] []
    neighbors3 neighbors3
    (0, 1) (Some (0, 1)) (1, Fin 1) (1, Fin 1) (0, 1).

Definition losses4 : dict (R * R) R :=
  [((0, 1 / 4), sqrt ((1 / 4) ^ 2 + (1 / 6) ^ 2));
   ((1 / 4, 1 / 2), sqrt ((1 / 4) ^ 2 + (5 / 6) ^ 2));
   ((1 / 2, 1), sqrt ((1 / 2) ^ 2 + (1 / 3) ^ 2))].

Definition neighbors4 : list (R * Learner1D.nbrs) :=
  [(0, (None, Some (1 / 4))); (1 / 4, (Some 0, Some (1 / 2)));
   (1 / 2, (Some (1 / 4), Some 1)); (1, (Some (1 / 2), None))].

Definition run4 : Learner1D.learner :=
  Learner1D.mk losses4 losses4
    [(0, 0); (1 / 4, 1 / 4); (1 / 2, 3 / 2); (1, 1)] []
    neighbors4 neighbors4
    (0, 1) (Some (0, 3 / 2)) (1, Fin (3 / 2)) (1, Fin (3 / 2)) (0, 1).

(** *** Triangles and a 2-D learner on the unit square *)

(** An equilateral triangle of side 1, its vertices listed clockwise. *)
Definition clockwise_equilateral : Learner2D.triangle :=
  ((0, 0), (1 / 2, sqrt 3 / 2), (1, 0)).

(** A right triangle, its vertices listed counterclockwise. *)
Definition right_triangle : Learner2D.triangle :=
  ((0, 0), (1, 0), (0, 1)).

(** An interpolator that refuses every input; where it is used below the
    learner raises before it is called. *)
Definition no_interpolator
  : list Learner2D.point -> list R -> result unit :=
  fun _ _ => Raised ValueError.

Definition unit_square : (R * R) * (R * R) := ((0, 1), (0, 1)).

Definition fresh2d : Learner2D.learner R unit :=
  Learner2D.init R (fun _ : unit => []) unit_square.

(** The learner after its four corners were handed out and forgotten. *)
Definition forgotten2d : Learner2D.learner R unit :=
  Learner2D.mk (fun _ : unit => []) unit_square [] [] []
    (Learner2D.corners unit_square) None None 10.

(** *** Vocabulary of the further properties *)

(** *** 1-D learner: calls, and losses that are not negative *)

(** The two calls that change a 1-D learner. *)
Inductive call1d : Type :=
| AddPoint (x : R) (y : option R)
| RemoveUnfinished.

Fixpoint run_calls (l : Learner1D.learner) (cs : list call1d)
  : result Learner1D.learner :=
  match cs with
  | [] => Returned l
  | AddPoint x y :: cs' =>
      l' <- Learner1D.add_point l x y ;; run_calls l' cs'
  | RemoveUnfinished :: cs' =>
      run_calls (Learner1D.remove_unfinished l) cs'
  end.

Definition nonneg (L : dict (R * R) R) : Prop :=
  Forall (fun kv => 0 <= snd kv) L.

(** Everything that a run of calls keeps true. *)
Definition steady (st : Learner1D.learner) : Prop :=
  inv st /\ sound st
  /\ nonneg (Learner1D.losses st) /\ nonneg (Learner1D.losses_combined st).

(** The real values among the calls of a 1-D learner, in order. *)
Fixpoint observed1d (calls : list (R * option R)) : list R :=
  match calls with
  | [] => []
  | (_, Some v) :: cs => v :: observed1d cs
  | (_, None) :: cs => observed1d cs
  end.

(** What [update_scale] does to [_bbox[1]] when a real value comes in. *)
Definition widen (box : option (R * R)) (v : R) : option (R * R) :=
  match box with
  | None => Some (v, v)
  | Some (lo, hi) => Some (py_min2 lo v, py_max2 hi v)
  end.

(** The interval of an entry of the allocation heap. *)
Definition range_of (q : Learner1D.qual) : R * R := snd (fst q).

(** [a <= b] on floats. *)
Definition fl_leb (a b : pyfloat) : bool := negb (fl_ltb b a).

(** The corners of the bounds in the order in which a new 2-D learner
    proposes them: the stack is read from its end. *)
Definition corners_last_first (b : (R * R) * (R * R))
  : list Learner2D.point :=
  rev (Learner2D.corners b).

(** The entries of a loss array that [_fill_stack] has not used yet. *)
Definition unused (losses : list pyfloat) : nat :=
  length (filter (fun x => match x with Fin _ => true | _ => false end) losses).

Definition finite_or_used (x : pyfloat) : Prop :=
  x = NInf \/ exists r, x = Fin r.

(** A 2-D learner with three real points, a stub for the interpolator
    and three triangles with the losses 2, 1 and 3. *)
Definition three_points : Learner2D.learner R unit :=
  Learner2D.mk (fun _ : unit => [2; 1; 3]) unit_square
    [((0, 0), 0); ((1, 0), 0); ((0, 1), 0)] [] []
    (Learner2D.corners unit_square) None None 10.

Definition stub_interpolator
  : list Learner2D.point -> list R -> result unit :=
  fun _ _ => Returned tt.

(** A scalar-average learner with the absolute tolerance 1/10 and nothing
    observed, and a store that holds it at every address. *)
Definition average0 : AverageLearner.learner :=
  AverageLearner.mk [] (Fin (1 / 10)) PInf 0 0 0 0.

Definition averages : store AverageLearner.learner := fun _ => average0.

(** [loss] of a scalar-average learner, as a child of the balancing
    learner: it leaves the learner as it is. *)
Definition average_child_loss (l : AverageLearner.learner) (real : bool)
  : result (pyfloat * AverageLearner.learner) :=
  v <- AverageLearner.loss l real ;; Returned (v, l).

(** The learner [three_points] with a cached interpolant of the combined
    data. *)
Definition three_points_cached : Learner2D.learner R unit :=
  Learner2D.mk (fun _ : unit => [2; 1; 3]) unit_square
    [((0, 0), 0); ((1, 0), 0); ((0, 1), 0)] [] []
    (Learner2D.corners unit_square) None (Some tt) 10.

(** *** Scalar-average learner on binary64 floats: a run *)

(** The float nearest to one tenth, Python's [0.1]. *)
Definition tenth : float := 0x1.999999999999ap-4%float.

(** Three observations of [0.1], after a new learner with [atol=0.1]. *)
Definition three_tenths : list (Z * option float) :=
  [(0%Z, Some tenth); (1%Z, Some tenth); (2%Z, Some tenth)].

(** A learner that has observed 1.0 and 3.0 and was never asked for a
    point. *)
Definition observed_1_3 : AverageLearner64.learner :=
  AverageLearner64.mk [(0%Z, Some 1%float); (1%Z, Some 3%float)]
    tenth infinity 2 0 4%float 10%float.

(* ================================================================== *)
(** * Part II. Properties                                              *)
(* ================================================================== *)

(** ** Evaluating the embedding on concrete reals

    A decision between two concrete reals is settled by linear arithmetic;
    two results are compared component by component, numbers by
    arithmetic. *)

Lemma mk_congr a1 a2 a3 a4 a5 a6 a7 a8 a9 a10 a11
  b1 b2 b3 b4 b5 b6 b7 b8 b9 b10 b11 :
  a1 = b1 -> a2 = b2 -> a3 = b3 -> a4 = b4 -> a5 = b5 -> a6 = b6 ->
  a7 = b7 -> a8 = b8 -> a9 = b9 -> a10 = b10 -> a11 = b11 ->
  Learner1D.mk a1 a2 a3 a4 a5 a6 a7 a8 a9 a10 a11
  = Learner1D.mk b1 b2 b3 b4 b5 b6 b7 b8 b9 b10 b11.
Proof. intros; subst; reflexivity. Qed.

Ltac struct_eq :=
  lazymatch goal with
  | |- sqrt _ = sqrt _ => apply f_equal; struct_eq
  | |- @eq R _ _ => first [ reflexivity | lra | (field; lra) | nra ]
  | |- Some _ = Some _ => apply f_equal; struct_eq
  | |- Fin _ = Fin _ => apply f_equal; struct_eq
  | |- Returned _ = Returned _ => apply f_equal; struct_eq
  | |- (_, _) = (_, _) => apply f_equal2; struct_eq
  | |- _ :: _ = _ :: _ => apply f_equal2; struct_eq
  | |- Learner1D.Chosen _ _ = Learner1D.Chosen _ _ =>
      apply f_equal2; struct_eq
  | |- Learner1D.mk _ _ _ _ _ _ _ _ _ _ _
       = Learner1D.mk _ _ _ _ _ _ _ _ _ _ _ => apply mk_congr; struct_eq
  | |- _ => reflexivity
  end.

Ltac rstep :=
  match goal with
  | |- context [Rlt_dec ?a ?b] =>
      destruct (Rlt_dec a b); [ try (exfalso; lra) | try (exfalso; lra) ]
  | |- context [Rle_dec ?a ?b] =>
      destruct (Rle_dec a b); [ try (exfalso; lra) | try (exfalso; lra) ]
  | |- context [Req_dec_T ?a ?b] =>
      destruct (Req_dec_T a b); [ try (exfalso; lra) | try (exfalso; lra) ]
  end.

Ltac reval :=
  cbv [Learner1D.add_point Learner1D.update_neighbors Learner1D.find_neighbors
       Learner1D.patch_upper Learner1D.patch_lower Learner1D.update_scale
       Learner1D.update_losses Learner1D.interval_loss Learner1D.lookup
       Learner1D.number Learner1D.recompute Learner1D.interpolate
       Learner1D.np_interp Learner1D.data_combined Learner1D.real_data
       Learner1D.scale_list Learner1D.sd_set Learner1D.bisect_left
       Learner1D.losses Learner1D.losses_combined Learner1D.data
       Learner1D.data_interp Learner1D.neighbors Learner1D.neighbors_combined
       Learner1D.bbox_x Learner1D.bbox_y Learner1D.scale Learner1D.oldscale
       Learner1D.bounds
       dict_get dict_set dict_del dict_mem dict_keys dict_values
       dec_eq DecEq_R DecEq_prod DecEq_option
       list_gtb list_mul fl_eqb fl_gtb fl_ltb fl_div py_sqrt py_min2 py_max2
       Reqb Rltb Rleb
       traverse bind map fold_left app fst snd nth_error length Nat.eqb
       Nat.sub sumbool_rec sumbool_rect];
  repeat (rstep; cbv beta iota).

(** ** Results and dictionaries *)

Lemma py_sqrt_nonneg (x : R) : 0 <= x -> py_sqrt x = Returned (sqrt x).
Proof.
  intros Hx. unfold py_sqrt. destruct (Rlt_dec x 0); [ lra | reflexivity ].
Qed.

Lemma fl_div_nonzero (a b : R) : b <> 0 -> fl_div a (Fin b) = Returned (a / b).
Proof.
  intros Hb. unfold fl_div.
  destruct (Req_dec_T b 0); [ contradiction | reflexivity ].
Qed.

Lemma fl_div_zero (a : R) : fl_div a (Fin 0) = Raised ZeroDivisionError.
Proof. unfold fl_div. destruct (Req_dec_T 0 0); [ reflexivity | lra ]. Qed.

Lemma dict_mem_In {K W} `{DecEq K} (d : dict K W) k :
  dict_mem d k = true <-> In k (dict_keys d).
Proof.
  unfold dict_mem. destruct (dict_get d k) eqn:E.
  - split; [ intros _ | auto ].
    clear - E. induction d as [ | [k0 v0] d IH]; simpl in *; [ discriminate | ].
    destruct (dec_eq k k0); [ left; congruence | right; auto ].
  - split; [ discriminate | ]. intros Hin. exfalso.
    clear - E Hin. induction d as [ | [k0 v0] d IH]; simpl in *; [ tauto | ].
    destruct (dec_eq k k0); [ discriminate | ].
    destruct Hin; [ congruence | auto ].
Qed.

(** ** Scalar-average learner *)

Section AverageFacts.
Import AverageLearner.

Lemma add_points_app l cs1 cs2 :
  add_points l (cs1 ++ cs2) = add_points (add_points l cs1) cs2.
Proof. unfold add_points. apply fold_left_app. Qed.

Lemma observed_app cs1 cs2 :
  observed (cs1 ++ cs2) = observed cs1 ++ observed cs2.
Proof.
  induction cs1 as [ | [k [v | ]] cs1 IH]; simpl; congruence.
Qed.

Lemma Rsum_app l1 l2 : Rsum (l1 ++ l2) = Rsum l1 + Rsum l2.
Proof. induction l1; simpl; lra. Qed.

(** The running counters after a run of [add_point] calls. *)
Lemma counters l calls :
  n (add_points l calls) = (n l + length (observed calls))%nat
  /\ sum_f (add_points l calls) = sum_f l + Rsum (observed calls)
  /\ sum_f_sq (add_points l calls)
     = sum_f_sq l + Rsum (map (fun v => v ^ 2) (observed calls))
  /\ atol (add_points l calls) = atol l
  /\ rtol (add_points l calls) = rtol l.
Proof.
  revert l. induction calls as [ | [k [v | ]] cs IH]; intros l.
  - simpl. repeat split; try reflexivity; try lra; lia.
  - change (add_points l ((k, Some v) :: cs))
      with (add_points (add_point l k (Some v)) cs).
    destruct (IH (add_point l k (Some v))) as (H1 & H2 & H3 & H4 & H5).
    rewrite H1, H2, H3, H4, H5. simpl. repeat split; try reflexivity; try lra; lia.
  - change (add_points l ((k, None) :: cs))
      with (add_points (add_point l k None) cs).
    destruct (IH (add_point l k None)) as (H1 & H2 & H3 & H4 & H5).
    rewrite H1, H2, H3, H4, H5. simpl. repeat split; try reflexivity; try lra; lia.
Qed.

Lemma init_counters a r l :
  init a r = Returned l ->
  n l = 0%nat /\ sum_f l = 0 /\ sum_f_sq l = 0 /\ data l = [].
Proof.
  unfold init. destruct a, r; intros E; inversion E; subst; simpl; auto.
Qed.

(** Sum of squared deviations from any centre [m]. *)
Lemma deviations_expand m vs :
  Rsum (map (fun v => (v - m) ^ 2) vs)
  = Rsum (map (fun v => v ^ 2) vs) - 2 * m * Rsum vs
    + INR (length vs) * m ^ 2.
Proof.
  induction vs as [ | v vs IH].
  - simpl. lra.
  - cbn [map Rsum fold_right length]. fold (Rsum (map (fun v => (v - m) ^ 2) vs)).
    fold (Rsum (map (fun v => v ^ 2) vs)). fold (Rsum vs).
    rewrite IH, S_INR. ring.
Qed.

Lemma deviations_nonneg m vs : 0 <= Rsum (map (fun v => (v - m) ^ 2) vs).
Proof.
  induction vs as [ | v vs IH]; [ simpl; lra | ].
  change (0 <= (v - m) ^ 2 + Rsum (map (fun v => (v - m) ^ 2) vs)).
  assert (0 <= (v - m) ^ 2) by (apply pow2_ge_0). lra.
Qed.

(** The radicand of [std] is the sum of squared deviations from the mean. *)
Lemma radicand_is_deviations vs :
  (1 <= length vs)%nat ->
  Rsum (map (fun v => v ^ 2) vs)
  - INR (length vs) * (Rsum vs / INR (length vs)) ^ 2
  = Rsum (map (fun v => (v - arithmetic_mean vs) ^ 2) vs).
Proof.
  intros Hlen. rewrite deviations_expand. unfold arithmetic_mean.
  assert (0 < INR (length vs)) by (apply lt_0_INR; lia).
  field. lra.
Qed.

End AverageFacts.

(** C3 (evaluation). Three observations of 0.1 on a new learner.  Their
    arithmetic mean is 0.1 and their sample standard deviation is 0.  The
    learner has counted three observations, but [mean] is the float above
    0.1, the radicand [(sum_f_sq - n * mean**2) / (n - 1)] of [std] is
    negative, and [math.sqrt] raises [ValueError]: [std] has no value,
    and neither has [loss]. *)
Theorem average_std_raises_on_equal_values :
  exists l0 st,
    AverageLearner64.init (Some tenth) None = Returned l0
    /\ AverageLearner64.add_points l0 three_tenths = Returned st
    /\ AverageLearner64.n st = 3%nat
    /\ (exists m m2,
          AverageLearner64.mean st = Returned m
          /\ PrimFloat.ltb tenth m = true
          /\ AverageLearner64.square64 m = Returned m2
          /\ PrimFloat.ltb
               (PrimFloat.sub (AverageLearner64.sum_f_sq st)
                  (PrimFloat.mul (AverageLearner64.float_of_nat 3) m2))
               0%float = true)
    /\ AverageLearner64.std st = Raised ValueError
    /\ forall real, AverageLearner64.loss st real = Raised ValueError.
Proof.
  eexists. eexists. split; [ reflexivity | ].
  split; [ vm_compute; reflexivity | ].
  split; [ reflexivity | ].
  split.
  { eexists. eexists. split; [ vm_compute; reflexivity | ].
    split; [ vm_compute; reflexivity | ].
    split; vm_compute; reflexivity. }
  split; [ vm_compute; reflexivity | ].
  intros [ | ]; vm_compute; reflexivity.
Qed.

(** C7 (evaluation). Two observations 1 and -1 have mean zero: [loss]
    divides the standard error by [abs(self.mean)] and raises. *)
Theorem average_loss_raises_at_zero_mean :
  let l0 := AverageLearner.mk [] (Fin (1 / 10)) PInf 0 0 0 0 in
  AverageLearner.init (Some (Fin (1 / 10))) None = Returned l0
  /\ AverageLearner.loss
       (AverageLearner.add_points l0 [(0%Z, Some 1); (1%Z, Some (-1))]) true
     = Raised ZeroDivisionError.
Proof.
  intros l0. split; [ reflexivity | ].
  unfold AverageLearner.loss, AverageLearner.std, AverageLearner.mean.
  cbn [AverageLearner.add_points fold_left AverageLearner.add_point fst snd
       AverageLearner.n AverageLearner.sum_f AverageLearner.sum_f_sq
       AverageLearner.atol AverageLearner.rtol AverageLearner.n_requested
       l0 Nat.ltb Nat.leb bind].
  replace (INR 2) with 2 by (simpl; lra).
  replace ((0 + 1 + -1) / 2) with 0 by lra.
  replace ((0 + 1 ^ 2 + (-1) ^ 2 - 2 * 0 ^ 2) / (2 - 1)) with 2 by lra.
  rewrite py_sqrt_nonneg by lra. cbn [bind].
  assert (Hs : 0 < sqrt 2) by (apply sqrt_lt_R0; lra).
  rewrite fl_div_nonzero by lra. cbn [bind].
  rewrite fl_div_nonzero by lra. cbn [bind].
  rewrite Rabs_R0, fl_div_zero. reflexivity.
Qed.

(** C6 (evaluation). A requested point stays in [data] with the pending
    sentinel after [remove_unfinished], whose body is [pass]; the request
    counter is not reset either. *)
Theorem average_remove_unfinished_keeps_pending :
  let l0 := AverageLearner.mk [] (Fin (1 / 10)) PInf 0 0 0 0 in
  exists l1,
    AverageLearner.choose_points l0 1 true
    = Returned ([0%Z], [None], l1)
    /\ dict_get (AverageLearner.data (AverageLearner.remove_unfinished l1)) 0%Z
       = Some None
    /\ AverageLearner.n_requested (AverageLearner.remove_unfinished l1) = 1%nat
    /\ AverageLearner.n (AverageLearner.remove_unfinished l1) = 0%nat.
Proof.
  intros l0. eexists. split; [ reflexivity | ].
  repeat split.
Qed.

(** ** 1-D learner: neighbours, intervals and their losses *)

Section Learner1DFacts.
Import Learner1D.

Lemma hd_or_app n r l2 : hd_or n (r ++ l2) = hd_or (hd_or n l2) r.
Proof. destruct r; reflexivity. Qed.

Lemma last_or_app p l1 l2 : last_or p (l1 ++ l2) = last_or (last_or p l1) l2.
Proof. revert p; induction l1; intros; simpl; auto. Qed.

Lemma canon_app p l1 l2 n :
  canon p (l1 ++ l2) n = canon p l1 (hd_or n l2) ++ canon (last_or p l1) l2 n.
Proof.
  revert p; induction l1 as [ | k r IH]; intros p; simpl; [ reflexivity | ].
  rewrite hd_or_app, IH. reflexivity.
Qed.

Lemma canon_keys p ks n : dict_keys (canon p ks n) = ks.
Proof. revert p; induction ks; intros; simpl; [ | rewrite IHks ]; reflexivity. Qed.

Lemma dict_get_app_l {K V} `{DecEq K} (d1 d2 : dict K V) k v :
  dict_get d1 k = Some v -> dict_get (d1 ++ d2) k = Some v.
Proof.
  induction d1 as [ | [k' v'] d1 IH]; simpl; [ discriminate | ].
  destruct (dec_eq k k'); auto.
Qed.

Lemma dict_get_app_r {K V} `{DecEq K} (d1 d2 : dict K V) k :
  ~ In k (dict_keys d1) -> dict_get (d1 ++ d2) k = dict_get d2 k.
Proof.
  induction d1 as [ | [k' v'] d1 IH]; simpl; [ reflexivity | ].
  intros Hn. destruct (dec_eq k k'); [ subst; tauto | apply IH; tauto ].
Qed.

Lemma dict_get_None {K V} `{DecEq K} (d : dict K V) k :
  dict_get d k = None <-> ~ In k (dict_keys d).
Proof.
  induction d as [ | [k' v'] d IH]; simpl; [ tauto | ].
  destruct (dec_eq k k'); [ subst; split; [ discriminate | tauto ] | ].
  rewrite IH. split; [ intros Hx [E | I]; [ congruence | tauto ] | tauto ].
Qed.

Lemma dict_set_app_l {K V} `{DecEq K} (d1 d2 : dict K V) k v :
  In k (dict_keys d1) -> dict_set (d1 ++ d2) k v = dict_set d1 k v ++ d2.
Proof.
  induction d1 as [ | [k' v'] d1 IH]; simpl; [ tauto | ].
  intros Hin. destruct (dec_eq k k'); [ reflexivity | ].
  rewrite IH; [ reflexivity | ]. destruct Hin; [ congruence | assumption ].
Qed.

Lemma dict_set_app_r {K V} `{DecEq K} (d1 d2 : dict K V) k v :
  ~ In k (dict_keys d1) -> dict_set (d1 ++ d2) k v = d1 ++ dict_set d2 k v.
Proof.
  induction d1 as [ | [k' v'] d1 IH]; simpl; [ reflexivity | ].
  intros Hn. destruct (dec_eq k k'); [ subst; tauto | ].
  rewrite IH; [ reflexivity | tauto ].
Qed.

Lemma bisect_left_app l1 l2 x :
  Forall (fun k => k < x) l1 -> ~ (exists k, hd_or None l2 = Some k /\ k < x) ->
  bisect_left (l1 ++ l2) x = length l1.
Proof.
  intros H1 H2. induction H1 as [ | k l1 Hk H1 IH]; simpl.
  - destruct l2 as [ | k l2]; simpl; [ reflexivity | ].
    destruct (Rlt_dec k x); [ | reflexivity ].
    exfalso. apply H2. exists k. simpl. auto.
  - destruct (Rlt_dec k x); [ | contradiction ]. rewrite IH. reflexivity.
Qed.

Lemma sd_set_app {V} (d1 d2 : list (R * V)) x v :
  Forall (fun k => k < x) (dict_keys d1) ->
  Forall (fun k => x < k) (dict_keys d2) ->
  sd_set (d1 ++ d2) x v = d1 ++ (x, v) :: d2.
Proof.
  intros H1 H2. induction d1 as [ | [k w] d1 IH]; simpl.
  - destruct d2 as [ | [k w] d2]; simpl; [ reflexivity | ].
    inversion H2; subst. simpl in *.
    destruct (Rlt_dec k x); [ lra | ].
    destruct (Req_dec_T k x); [ lra | reflexivity ].
  - inversion H1; subst. simpl in *. destruct (Rlt_dec k x); [ | contradiction ].
    rewrite IH by assumption. reflexivity.
Qed.

Lemma sd_set_present {V} (d1 d2 : list (R * V)) x w v :
  Forall (fun k => k < x) (dict_keys d1) ->
  sd_set (d1 ++ (x, w) :: d2) x v = d1 ++ (x, v) :: d2.
Proof.
  intros H1. induction d1 as [ | [k u] d1 IH]; simpl.
  - destruct (Rlt_dec x x); [ lra | ]. destruct (Req_dec_T x x); [ reflexivity | lra ].
  - inversion H1; subst. simpl in *. destruct (Rlt_dec k x); [ | contradiction ].
    rewrite IH by assumption. reflexivity.
Qed.

Lemma nth_error_last_or (l1 l2 : list R) p :
  l1 <> [] -> nth_error (l1 ++ l2) (length l1 - 1) = last_or p l1.
Proof.
  revert p. induction l1 as [ | k r IH]; intros p Hne; [ congruence | ].
  destruct r as [ | k' r']; [ reflexivity | ].
  change (last_or p (k :: k' :: r')) with (last_or (Some k) (k' :: r')).
  rewrite <- (IH (Some k)) by congruence.
  replace (length (k :: k' :: r') - 1)%nat
    with (S (length (k' :: r') - 1)) by (simpl; lia).
  reflexivity.
Qed.

Lemma find_neighbors_split p n l1 l2 x :
  Forall (fun k => k < x) l1 -> Forall (fun k => x <= k) l2 ->
  find_neighbors x (canon p (l1 ++ l2) n) = (last_or None l1, hd_or None l2).
Proof.
  intros H1 H2. unfold find_neighbors. rewrite canon_keys.
  rewrite bisect_left_app; [ | assumption | ].
  2:{ intros (k & Hk & Hlt). destruct l2; simpl in Hk; [ discriminate | ].
      inversion Hk; subst. inversion H2; subst. lra. }
  f_equal.
  - destruct l1 as [ | k r]; [ reflexivity | ].
    destruct (Nat.eqb_spec (length (k :: r)) 0); [ simpl in *; lia | ].
    apply nth_error_last_or. congruence.
  - rewrite length_app. destruct l2 as [ | k r].
    + simpl. rewrite Nat.add_0_r, Nat.eqb_refl. reflexivity.
    + destruct (Nat.eqb_spec (length l1) (length l1 + length (k :: r))); [ simpl in *; lia | ].
      rewrite nth_error_app2 by lia. rewrite Nat.sub_diag. reflexivity.
Qed.

Lemma canon_snoc p l k n :
  canon p (l ++ [k]) n = canon p l (Some k) ++ [(k, (last_or p l, n))].
Proof. rewrite canon_app. reflexivity. Qed.

Lemma last_or_snoc p l k : last_or p (l ++ [k]) = Some k.
Proof. rewrite last_or_app. reflexivity. Qed.

Lemma patch_upper_canon p l1 n rest x :
  NoDup l1 ->
  patch_upper (canon p l1 n ++ rest) (last_or None l1) x
  = canon p l1 (Some x) ++ rest.
Proof.
  intros Hnd. induction l1 as [ | k l' _] using rev_ind.
  - reflexivity.
  - rewrite last_or_snoc, !canon_snoc. unfold patch_upper.
    apply NoDup_remove_2 in Hnd. rewrite app_nil_r in Hnd.
    rewrite <- !app_assoc.
    rewrite dict_get_app_r by (rewrite canon_keys; assumption).
    cbn [app dict_get]. destruct (dec_eq k k) as [_ | Hk]; [ | congruence ].
    rewrite dict_set_app_r by (rewrite canon_keys; assumption).
    cbn [app dict_set]. destruct (dec_eq k k) as [_ | Hk]; [ | congruence ].
    reflexivity.
Qed.

Lemma patch_lower_canon (d1 : list (R * nbrs)) p l2 n x :
  (forall k, In k l2 -> ~ In k (dict_keys d1)) ->
  patch_lower (d1 ++ canon p l2 n) (hd_or None l2) x
  = d1 ++ canon (Some x) l2 n.
Proof.
  intros Hd. destruct l2 as [ | k r]; [ reflexivity | ].
  unfold patch_lower. cbn [hd_or canon].
  assert (Hk : ~ In k (dict_keys d1)) by (apply Hd; left; reflexivity).
  rewrite dict_get_app_r by assumption.
  cbn [dict_get]. destruct (dec_eq k k) as [_ | Hk']; [ | congruence ].
  rewrite dict_set_app_r by assumption.
  cbn [dict_set]. destruct (dec_eq k k) as [_ | Hk']; [ | congruence ].
  reflexivity.
Qed.

Lemma dict_mem_false {K V} `{DecEq K} (d : dict K V) k :
  ~ In k (dict_keys d) -> dict_mem d k = false.
Proof.
  intros Hn. unfold dict_mem. apply dict_get_None in Hn. rewrite Hn. reflexivity.
Qed.

Lemma dict_mem_true {K V} `{DecEq K} (d : dict K V) k :
  In k (dict_keys d) -> dict_mem d k = true.
Proof.
  intros Hin. unfold dict_mem. destruct (dict_get d k) eqn:E; [ reflexivity | ].
  apply dict_get_None in E. contradiction.
Qed.

Lemma cons_middle_app {A} (a : list A) b c : a ++ b :: c = (a ++ [b]) ++ c.
Proof. rewrite <- app_assoc. reflexivity. Qed.

(** Inserting a new key relinks its two neighbours. *)
Lemma update_neighbors_new l1 l2 x :
  NoDup l1 ->
  Forall (fun k => k < x) l1 -> Forall (fun k => x < k) l2 ->
  update_neighbors x (canon None (l1 ++ l2) None)
  = canon None (l1 ++ x :: l2) None.
Proof.
  intros Hnd H1 H2. unfold update_neighbors.
  assert (Hnot1 : ~ In x l1).
  { intros Hin. rewrite Forall_forall in H1. specialize (H1 _ Hin). lra. }
  assert (Hnot2 : ~ In x l2).
  { intros Hin. rewrite Forall_forall in H2. specialize (H2 _ Hin). lra. }
  rewrite dict_mem_false.
  2:{ rewrite canon_keys, in_app_iff. tauto. }
  rewrite find_neighbors_split; [ | assumption | ].
  2:{ eapply Forall_impl; [ | exact H2 ]. simpl. intros; lra. }
  rewrite canon_app at 1.
  rewrite sd_set_app by (rewrite canon_keys; assumption).
  rewrite patch_upper_canon by assumption.
  rewrite (cons_middle_app (canon None l1 (Some x))).
  rewrite patch_lower_canon.
  2:{ intros k Hk. unfold dict_keys. rewrite map_app, in_app_iff.
      fold (dict_keys (canon None l1 (Some x))). rewrite canon_keys. simpl.
      rewrite Forall_forall in H1, H2. specialize (H2 _ Hk).
      intros [Hin | [E | []]]; [ specialize (H1 _ Hin) | ]; lra. }
  rewrite <- app_assoc, (canon_app None l1 (x :: l2)). reflexivity.
Qed.

(** A key that is already there leaves the map alone. *)
Lemma update_neighbors_old ks x :
  In x ks -> update_neighbors x (canon None ks None) = canon None ks None.
Proof.
  intros Hin. unfold update_neighbors.
  rewrite dict_mem_true by (rewrite canon_keys; assumption). reflexivity.
Qed.

Lemma sorted_split ks x :
  StronglySorted Rlt ks ->
  exists l1 l2,
    Forall (fun k => k < x) l1 /\ Forall (fun k => x < k) l2
    /\ (ks = l1 ++ l2 \/ ks = l1 ++ x :: l2).
Proof.
  induction 1 as [ | k ks Hs IH Hk].
  - exists [], []. auto.
  - destruct IH as (l1 & l2 & H1 & H2 & E).
    destruct (Rlt_dec k x) as [Hlt | Hge].
    + exists (k :: l1), l2. repeat split; auto.
      destruct E as [E | E]; rewrite E; auto.
    + destruct (Req_dec_T k x) as [Heq | Hne].
      * subst k. exists [], ks. repeat split; auto.
      * exists [], (k :: ks). repeat split; auto.
        constructor; [ lra | ].
        eapply Forall_impl; [ | exact Hk ]. simpl. intros; lra.
Qed.

Lemma sorted_insert l1 l2 x :
  StronglySorted Rlt (l1 ++ l2) ->
  Forall (fun k => k < x) l1 -> Forall (fun k => x < k) l2 ->
  StronglySorted Rlt (l1 ++ x :: l2).
Proof.
  induction l1 as [ | k l1 IH]; simpl; intros Hs H1 H2.
  - constructor; assumption.
  - inversion Hs; subst. inversion H1; subst. constructor; [ auto | ].
    rewrite Forall_app in *. destruct H4 as [Ha Hb].
    split; [ assumption | ]. constructor; assumption.
Qed.

Lemma sorted_NoDup ks : StronglySorted Rlt ks -> NoDup ks.
Proof.
  induction 1 as [ | k ks Hs IH Hk]; constructor; [ | assumption ].
  intros Hin. rewrite Forall_forall in Hk. specialize (Hk _ Hin). lra.
Qed.

Lemma last_or_nonempty p q l : l <> [] -> last_or p l = last_or q l.
Proof. destruct l; [ congruence | reflexivity ]. Qed.

Lemma adj_cons k r p :
  In p (adj (k :: r)) <-> (exists b, hd_or None r = Some b /\ p = (k, b)) \/ In p (adj r).
Proof.
  destruct r as [ | k' r']; cbn [adj hd_or].
  - split; [ intros [] | intros [(b & E & _) | []]; discriminate ].
  - cbn [In]. split.
    + intros [E | Hin]; [ left; exists k'; auto | right; assumption ].
    + intros [(b & E & Hp) | Hin]; [ left; congruence | right; assumption ].
Qed.

Lemma adj_app l1 l2 p :
  In p (adj (l1 ++ l2)) <->
  In p (adj l1) \/ In p (adj l2)
  \/ (exists a b, last_or None l1 = Some a /\ hd_or None l2 = Some b /\ p = (a, b)).
Proof.
  induction l1 as [ | k r IH].
  - simpl. split; [ auto | intros [[] | [H | (a & b & E & _)]]; [ auto | discriminate ] ].
  - change ((k :: r) ++ l2) with (k :: (r ++ l2)).
    rewrite !adj_cons, IH, hd_or_app.
    change (last_or None (k :: r)) with (last_or (Some k) r).
    destruct r as [ | k' r'].
    + simpl. split.
      * intros [(b & E & Hp) | [[] | [H | (a & b' & E & _)]]]; try discriminate; eauto 8.
      * intros [[(b & E & _) | []] | [H | (a & b & Ea & Eb & Hp)]]; try discriminate; eauto.
        inversion Ea; subst. eauto.
    + cbn [hd_or]. rewrite (last_or_nonempty (Some k) None) by congruence.
      tauto.
Qed.

Lemma adj_in a b l : In (a, b) (adj l) -> In a l /\ In b l.
Proof.
  induction l as [ | k r IH]; [ intros [] | ].
  rewrite adj_cons. intros [(b' & E & Hp) | Hin].
  - inversion Hp; subst. split; [ left; reflexivity | right ].
    destruct r; simpl in E; [ discriminate | inversion E; left; reflexivity ].
  - destruct (IH Hin). split; right; assumption.
Qed.

Lemma last_or_in a l : last_or None l = Some a -> In a l.
Proof.
  induction l as [ | k l' _] using rev_ind; [ discriminate | ].
  rewrite last_or_snoc. intros E; inversion E; subst.
  apply in_or_app; right; left; reflexivity.
Qed.

Lemma hd_or_in a l : hd_or None l = Some a -> In a l.
Proof. destruct l; simpl; [ discriminate | intros E; inversion E; auto ]. Qed.

Section DictKeys.
Context {K V : Type} `{DecEq K}.

Lemma dict_set_keys_in (d : dict K V) k v k' :
  In k' (dict_keys (dict_set d k v)) <-> k' = k \/ In k' (dict_keys d).
Proof.
  induction d as [ | [k0 v0] d IH]; simpl.
  - intuition congruence.
  - destruct (dec_eq k k0); simpl; [ subst | rewrite IH ]; intuition congruence.
Qed.

Lemma dict_set_NoDup (d : dict K V) k v :
  NoDup (dict_keys d) -> NoDup (dict_keys (dict_set d k v)).
Proof.
  induction d as [ | [k0 v0] d IH]; simpl; intros Hnd.
  - constructor; [ intros [] | constructor ].
  - destruct (dec_eq k k0); simpl; [ assumption | ].
    inversion Hnd; subst. constructor; [ | auto ].
    rewrite dict_set_keys_in. intuition congruence.
Qed.

Lemma dict_del_keys_in (d : dict K V) k k' :
  NoDup (dict_keys d) ->
  (In k' (dict_keys (dict_del d k)) <-> k' <> k /\ In k' (dict_keys d)).
Proof.
  induction d as [ | [k0 v0] d IH]; simpl; intros Hnd.
  - tauto.
  - inversion Hnd; subst. destruct (dec_eq k k0); simpl.
    + subst. split.
      * intros Hin; split; [ intros E; subst; contradiction | auto ].
      * intros (Hne & [E | Hin]); [ congruence | assumption ].
    + rewrite IH by assumption. intuition congruence.
Qed.

Lemma dict_del_NoDup (d : dict K V) k :
  NoDup (dict_keys d) -> NoDup (dict_keys (dict_del d k)).
Proof.
  induction d as [ | [k0 v0] d IH]; simpl; intros Hnd; [ assumption | ].
  inversion Hnd; subst. destruct (dec_eq k k0); simpl; [ assumption | ].
  constructor; [ | auto ]. rewrite dict_del_keys_in by assumption. tauto.
Qed.
End DictKeys.

Lemma update_losses_keys sc x d N L L' lo up :
  update_losses sc x d N L = Returned L' ->
  dict_get N x = Some (lo, up) ->
  NoDup (dict_keys L) ->
  NoDup (dict_keys L')
  /\ forall p, In p (dict_keys L') <-> touched lo up x (dict_keys L) p.
Proof.
  unfold update_losses. intros Hu Hg Hnd. rewrite Hg in Hu.
  destruct lo as [l | ]; destruct up as [u | ]; cbn [bind] in Hu.
  - destruct (interval_loss sc l x d) as [v1 | ]; cbn [bind] in Hu; [ | discriminate ].
    destruct (interval_loss sc x u d) as [v2 | ]; cbn [bind] in Hu; [ | discriminate ].
    inversion Hu; subst L'. clear Hu.
    assert (Hnd2 : NoDup (dict_keys (dict_set (dict_set L (l, x) v1) (x, u) v2)))
      by (apply dict_set_NoDup, dict_set_NoDup; assumption).
    split; [ apply dict_del_NoDup; assumption | ].
    intros p. rewrite dict_del_keys_in by assumption.
    rewrite !dict_set_keys_in. unfold touched. split.
    + intros (Hne & Hin). split.
      * destruct Hin as [E | [E | Hin]]; eauto 6.
      * intros (l' & u' & El & Eu & Ep). congruence.
    + intros (Hin & Hn). split.
      * intros E. apply Hn. eauto 6.
      * destruct Hin as [Hin | [(l' & El & Ep) | (u' & Eu & Ep)]]; auto.
        -- inversion El; subst; auto.
        -- inversion Eu; subst; auto.
  - destruct (interval_loss sc l x d) as [v1 | ]; cbn [bind] in Hu; [ | discriminate ].
    inversion Hu; subst L'. clear Hu.
    split; [ apply dict_set_NoDup; assumption | ].
    intros p. rewrite dict_set_keys_in. unfold touched. split.
    + intros Hin. split.
      * destruct Hin as [E | Hin]; eauto 6.
      * intros (l' & u' & El & Eu & Ep). discriminate.
    + intros ([Hin | [(l' & El & Ep) | (u' & Eu & Ep)]] & _); auto; try discriminate.
      inversion El; subst; auto.
  - destruct (interval_loss sc x u d) as [v2 | ]; cbn [bind] in Hu; [ | discriminate ].
    inversion Hu; subst L'. clear Hu.
    split; [ apply dict_set_NoDup; assumption | ].
    intros p. rewrite dict_set_keys_in. unfold touched. split.
    + intros Hin. split.
      * destruct Hin as [E | Hin]; eauto 6.
      * intros (l' & u' & El & Eu & Ep). discriminate.
    + intros ([Hin | [(l' & El & Ep) | (u' & Eu & Ep)]] & _); auto; try discriminate.
      inversion Eu; subst; auto.
  - inversion Hu; subst L'. clear Hu. split; [ assumption | ].
    intros p. unfold touched. split.
    + intros Hin. split; [ auto | ].
      intros (l' & u' & El & Eu & Ep). discriminate.
    + intros ([Hin | [(l' & El & Ep) | (u' & Eu & Ep)]] & _); auto; discriminate.
Qed.

Section Touched.
Variables (l1 l2 : list R) (x : R).
Hypothesis Hnd : NoDup (l1 ++ x :: l2).

Lemma split_disjoint a : In a l1 -> In a l2 -> False.
Proof.
  intros H1 H2. revert Hnd. clear - H1 H2.
  induction l1 as [ | k r IH]; [ destruct H1 | ].
  simpl. intros Hnd. inversion Hnd; subst. destruct H1 as [E | H1].
  - subst. apply H3. apply in_or_app. right. right. assumption.
  - apply IH; assumption.
Qed.

Lemma split_not_left : ~ In x l1.
Proof.
  intros H1. revert Hnd. clear - H1.
  induction l1 as [ | k r IH]; [ destruct H1 | ].
  simpl. intros Hnd. inversion Hnd; subst. destruct H1 as [E | H1].
  - subst. apply H2. apply in_or_app. right. left. reflexivity.
  - apply IH; assumption.
Qed.

Lemma split_not_right : ~ In x l2.
Proof.
  intros H2. apply NoDup_remove_2 in Hnd. apply Hnd.
  apply in_or_app. right. assumption.
Qed.

Lemma junction_not_adjacent l u p :
  last_or None l1 = Some l -> hd_or None l2 = Some u -> p = (l, u) ->
  ~ In p (adj l1) /\ ~ In p (adj l2)
  /\ ~ (exists b, hd_or None l2 = Some b /\ p = (x, b))
  /\ ~ (exists a, last_or None l1 = Some a /\ p = (a, x)).
Proof.
  intros El Eu Ep. subst p.
  pose proof El as Hl. apply last_or_in in Hl.
  pose proof Eu as Hu. apply hd_or_in in Hu.
  repeat split.
  - intros Hin. apply adj_in in Hin. destruct Hin as [_ Hin].
    eapply split_disjoint; eassumption.
  - intros Hin. apply adj_in in Hin. destruct Hin as [Hin _].
    eapply split_disjoint; eassumption.
  - intros (b & _ & E). inversion E; subst. apply split_not_left; assumption.
  - intros (a & _ & E). inversion E; subst. apply split_not_right; assumption.
Qed.

Lemma adj_insert p :
  In p (adj (l1 ++ x :: l2)) <->
  In p (adj l1) \/ In p (adj l2)
  \/ (exists b, hd_or None l2 = Some b /\ p = (x, b))
  \/ (exists a, last_or None l1 = Some a /\ p = (a, x)).
Proof.
  rewrite adj_app, adj_cons. cbn [hd_or]. split.
  - intros [H | [[H | H] | (a & b & Ea & Eb & Ep)]]; auto.
    inversion Eb; subst. eauto 8.
  - intros [H | [H | [H | (a & Ea & Ep)]]]; auto. right. right. eauto 8.
Qed.

(** A new key splits the interval it falls in. *)
Lemma touched_new (KL : list (R * R)) :
  (forall p, In p KL <-> In p (adj (l1 ++ l2))) ->
  forall p, touched (last_or None l1) (hd_or None l2) x KL p
            <-> In p (adj (l1 ++ x :: l2)).
Proof.
  intros HKL p. rewrite adj_insert. unfold touched. rewrite HKL, adj_app. split.
  - intros ([[H | [H | (a & b & Ea & Eb & Ep)]] | [(l & El & Ep) | (u & Eu & Ep)]] & Hn);
      eauto 8.
    exfalso. apply Hn. eauto.
  - intros H. split.
    + destruct H as [H | [H | [(b & Eb & Ep) | (a & Ea & Ep)]]]; eauto 8.
    + intros (l & u & El & Eu & Ep).
      destruct (@junction_not_adjacent l u p El Eu Ep) as (N1 & N2 & N3 & N4).
      tauto.
Qed.

(** Adding a key again leaves the intervals as they are. *)
Lemma touched_old (KL : list (R * R)) :
  (forall p, In p KL <-> In p (adj (l1 ++ x :: l2))) ->
  forall p, touched (last_or None l1) (hd_or None l2) x KL p
            <-> In p (adj (l1 ++ x :: l2)).
Proof.
  intros HKL p. unfold touched. rewrite HKL, adj_insert. split.
  - intros ([H | [(l & El & Ep) | (u & Eu & Ep)]] & Hn); eauto 8.
  - intros H. split; [ auto | ].
    intros (l & u & El & Eu & Ep).
    destruct (@junction_not_adjacent l u p El Eu Ep) as (N1 & N2 & N3 & N4).
    tauto.
Qed.
End Touched.

Lemma canon_get p l1 x l2 n :
  ~ In x l1 ->
  dict_get (canon p (l1 ++ x :: l2) n) x = Some (last_or p l1, hd_or n l2).
Proof.
  intros Hn. rewrite canon_app.
  rewrite dict_get_app_r by (rewrite canon_keys; assumption).
  cbn [canon dict_get]. destruct (dec_eq x x); [ reflexivity | congruence ].
Qed.

(** ** The link between a neighbour map and its loss map *)

Lemma sorted_app_left (l1 l2 : list R) :
  StronglySorted Rlt (l1 ++ l2) -> StronglySorted Rlt l1.
Proof.
  induction l1 as [ | k r IH]; simpl; intros Hs; [ constructor | ].
  inversion Hs; subst. constructor; [ auto | ].
  rewrite Forall_app in H2. tauto.
Qed.

(** What [update_neighbors] yields on a well-linked map. *)
Lemma update_neighbors_split N x :
  StronglySorted Rlt (dict_keys N) -> N = canon None (dict_keys N) None ->
  exists l1 l2,
    update_neighbors x N = canon None (l1 ++ x :: l2) None
    /\ StronglySorted Rlt (l1 ++ x :: l2)
    /\ (dict_keys N = l1 ++ l2 \/ dict_keys N = l1 ++ x :: l2).
Proof.
  intros Hs Hc.
  destruct (sorted_split x Hs) as (l1 & l2 & H1 & H2 & [E | E]);
    exists l1, l2; rewrite E in Hs.
  - split; [ | split; [ | left; assumption ] ].
    + rewrite Hc, E. apply update_neighbors_new; try assumption.
      apply sorted_NoDup. eapply sorted_app_left. eassumption.
    + apply sorted_insert; assumption.
  - split; [ | split; [ assumption | right; assumption ] ].
    rewrite Hc, E.
    apply update_neighbors_old. apply in_or_app. right. left. reflexivity.
Qed.

Lemma linked_step sc x d N L L' :
  linked N L ->
  update_losses sc x d (update_neighbors x N) L = Returned L' ->
  linked (update_neighbors x N) L'.
Proof.
  intros (Hs & Hc & Hnd & HL) Hu.
  destruct (update_neighbors_split x Hs Hc) as (l1 & l2 & EN & Hs' & Hk).
  pose proof (sorted_NoDup Hs') as Hnd'.
  assert (Hx : ~ In x l1) by (eapply split_not_left; eassumption).
  rewrite EN in Hu |- *.
  assert (Hg : dict_get (canon None (l1 ++ x :: l2) None) x
               = Some (last_or None l1, hd_or None l2))
    by (apply canon_get; assumption).
  destruct (@update_losses_keys sc x d _ L L' _ _ Hu Hg Hnd) as (HndL' & HL').
  unfold linked. rewrite canon_keys. repeat split; try assumption.
  - intros Hin. apply HL' in Hin.
    destruct Hk as [E | E]; rewrite E in HL.
    + eapply touched_new; eassumption.
    + eapply touched_old; eassumption.
  - intros Hin. apply HL'.
    destruct Hk as [E | E]; rewrite E in HL.
    + eapply touched_new; eassumption.
    + eapply touched_old; eassumption.
Qed.

Lemma traverse_keys {A B} (f : A * B -> result (A * B)) l l' :
  (forall kv kv', f kv = Returned kv' -> fst kv' = fst kv) ->
  traverse f l = Returned l' -> map fst l' = map fst l.
Proof.
  intros Hf. revert l'. induction l as [ | kv l IH]; simpl; intros l' E.
  - inversion E. reflexivity.
  - destruct (f kv) as [kv' | ] eqn:Ef; cbn [bind] in E; [ | discriminate ].
    destruct (traverse f l) as [r | ]; cbn [bind] in E; [ | discriminate ].
    inversion E; subst. simpl. rewrite (Hf _ _ Ef), (IH r); reflexivity.
Qed.

Lemma recompute_keys sc d L L' :
  recompute sc d L = Returned L' -> dict_keys L' = dict_keys L.
Proof.
  unfold recompute, dict_keys. apply traverse_keys.
  intros kv kv' E. destruct (interval_loss sc (fst (fst kv)) (snd (fst kv)) d);
    cbn [bind] in E; [ | discriminate ].
  inversion E; reflexivity.
Qed.

Lemma linked_keys N L L' :
  dict_keys L' = dict_keys L -> linked N L -> linked N L'.
Proof. unfold linked. intros E. rewrite E. tauto. Qed.

Lemma linked_empty : linked [] [].
Proof.
  unfold linked. simpl. repeat split; try constructor; auto.
Qed.

Lemma add_point_inv st x y st' :
  inv st -> add_point st x y = Returned st' -> inv st'.
Proof.
  intros [Hr Hc]. unfold add_point.
  destruct (update_scale (bbox_x st) (bbox_y st) x y) as [[bx byy] sc].
  destruct y as [v | ].
  - destruct (update_losses sc x _ _ (losses_combined st)) as [lc | ] eqn:Elc;
      cbn [bind]; [ | discriminate ].
    destruct (update_losses sc x _ _ (losses st)) as [lr | ] eqn:Elr;
      cbn [bind]; [ | discriminate ].
    pose proof (@linked_step _ _ _ _ _ _ Hc Elc) as Hc'.
    pose proof (@linked_step _ _ _ _ _ _ Hr Elr) as Hr'.
    destruct (list_gtb _ _).
    + destruct (recompute sc _ lr) as [lr' | ] eqn:Er; cbn [bind]; [ | discriminate ].
      destruct (recompute sc _ lc) as [lc' | ] eqn:Ec; cbn [bind]; [ | discriminate ].
      intros E; inversion E; subst; clear E. split; simpl.
      * eapply linked_keys; [ eapply recompute_keys; eassumption | assumption ].
      * eapply linked_keys; [ eapply recompute_keys; eassumption | assumption ].
    + intros E; inversion E; subst; clear E. split; assumption.
  - destruct (update_losses sc x _ _ (losses_combined st)) as [lc | ] eqn:Elc;
      cbn [bind]; [ | discriminate ].
    pose proof (@linked_step _ _ _ _ _ _ Hc Elc) as Hc'.
    intros E; inversion E; subst; clear E. split; assumption.
Qed.

(** ** [add_point] never raises on a reachable learner *)

Lemma dict_get_in {K V} `{DecEq K} (d : dict K V) k v :
  dict_get d k = Some v -> In (k, v) d.
Proof.
  induction d as [ | [k0 v0] d IH]; simpl; [ discriminate | ].
  destruct (dec_eq k k0); [ intros E; inversion E; subst; auto | auto ].
Qed.

Lemma dict_get_some_key {K V} `{DecEq K} (d : dict K V) k v :
  dict_get d k = Some v -> In k (dict_keys d).
Proof. intros E. apply dict_get_in in E. apply (in_map fst) in E. exact E. Qed.

Lemma dict_get_key_some {K V} `{DecEq K} (d : dict K V) k :
  In k (dict_keys d) -> exists v, dict_get d k = Some v.
Proof.
  intros Hin. destruct (dict_get d k) eqn:E; [ eauto | ].
  apply dict_get_None in E. contradiction.
Qed.

Lemma numbers_get d k :
  numbers d -> In k (dict_keys d) -> exists y, dict_get d k = Some (Some y).
Proof.
  intros Hn Hin. destruct (dict_get_key_some _ _ Hin) as (v & E).
  pose proof (dict_get_in _ _ E) as Hv. unfold numbers in Hn.
  rewrite Forall_forall in Hn. specialize (Hn _ Hv). simpl in Hn.
  destruct v as [y | ]; [ eauto | congruence ].
Qed.

Lemma numbers_set d k y : numbers d -> numbers (dict_set d k (Some y)).
Proof.
  unfold numbers. induction d as [ | [k0 v0] d IH]; simpl; intros Hn.
  - constructor; [ simpl; congruence | constructor ].
  - inversion Hn; subst. destruct (dec_eq k k0); constructor; simpl; auto; congruence.
Qed.

Lemma numbers_del d k : numbers d -> numbers (dict_del d k).
Proof.
  unfold numbers. induction d as [ | [k0 v0] d IH]; simpl; intros Hn; [ constructor | ].
  inversion Hn; subst. destruct (dec_eq k k0); [ assumption | constructor; auto ].
Qed.

Lemma dict_del_keys_other {K V} `{DecEq K} (d : dict K V) k k' :
  k' <> k -> In k' (dict_keys d) -> In k' (dict_keys (dict_del d k)).
Proof.
  intros Hne. induction d as [ | [k0 v0] d IH]; simpl; [ tauto | ].
  destruct (dec_eq k k0); simpl; intuition congruence.
Qed.

Lemma dict_del_keys_sub {K V} `{DecEq K} (d : dict K V) k k' :
  In k' (dict_keys (dict_del d k)) -> In k' (dict_keys d).
Proof.
  induction d as [ | [k0 v0] d IH]; simpl; [ tauto | ].
  destruct (dec_eq k k0); simpl; intuition.
Qed.

Lemma real_data_numbers d : numbers (real_data d).
Proof.
  unfold numbers, real_data. apply Forall_forall. intros kv Hin.
  apply in_map_iff in Hin. destruct Hin as (kv' & E & _). subst. simpl. congruence.
Qed.

Lemma real_data_keys d : dict_keys (real_data d) = dict_keys d.
Proof. unfold dict_keys, real_data. rewrite map_map. reflexivity. Qed.

Lemma interpolate_numbers d di : numbers (interpolate d di).
Proof.
  unfold numbers, interpolate. apply Forall_forall. intros kv Hin.
  apply in_map_iff in Hin. destruct Hin as (kv' & E & _). subst. simpl. congruence.
Qed.

Lemma interpolate_keys d di : dict_keys (interpolate d di) = dict_keys di.
Proof. unfold dict_keys, interpolate. rewrite map_map. reflexivity. Qed.

Lemma fold_set_numbers (di acc : dict R (option R)) :
  numbers di -> numbers acc ->
  numbers (fold_left (fun a kv => dict_set a (fst kv) (snd kv)) di acc).
Proof.
  revert acc. induction di as [ | [k v] di IH]; simpl; intros acc Hd Ha; [ assumption | ].
  inversion Hd; subst. simpl in *. apply IH; [ assumption | ].
  destruct v as [y | ]; [ apply numbers_set; assumption | congruence ].
Qed.

Lemma fold_set_keys (di acc : dict R (option R)) k :
  In k (dict_keys (fold_left (fun a kv => dict_set a (fst kv) (snd kv)) di acc))
  <-> In k (dict_keys acc) \/ In k (dict_keys di).
Proof.
  revert acc. induction di as [ | [k0 v0] di IH]; simpl; intros acc; [ tauto | ].
  rewrite IH, dict_set_keys_in. simpl. intuition congruence.
Qed.

Lemma data_combined_covers d di ks :
  numbers di ->
  (forall k, In k ks -> In k (dict_keys d) \/ In k (dict_keys di)) ->
  covers (data_combined d di) ks.
Proof.
  intros Hn Hk k Hin. unfold data_combined. apply numbers_get.
  - apply fold_set_numbers; [ assumption | apply real_data_numbers ].
  - rewrite fold_set_keys, real_data_keys. auto.
Qed.

Lemma interval_loss_total sc a b d :
  a < b -> b - a <= fst sc ->
  (exists y, dict_get d a = Some (Some y)) ->
  (exists y, dict_get d b = Some (Some y)) ->
  exists v, interval_loss sc a b d = Returned v.
Proof.
  intros Hab Hsc (ya & Ea) (yb & Eb). unfold interval_loss, lookup.
  rewrite Ea, Eb. cbn [bind number].
  rewrite fl_div_nonzero by lra. cbn [bind].
  destruct (fl_eqb (snd sc) (Fin 0)) eqn:Ez.
  - rewrite py_sqrt_nonneg by apply pow2_ge_0. eauto.
  - assert (exists dy, fl_div (yb - ya) (snd sc) = Returned dy) as (dy & Ed).
    { destruct (snd sc) as [s | | ]; simpl; eauto.
      simpl in Ez. unfold Reqb in Ez. destruct (Req_dec_T s 0); [ discriminate | eauto ]. }
    rewrite Ed. cbn [bind]. rewrite py_sqrt_nonneg; [ eauto | ].
    apply Rplus_le_le_0_compat; apply pow2_ge_0.
Qed.

Lemma sorted_mid l1 x l2 :
  StronglySorted Rlt (l1 ++ x :: l2) ->
  Forall (fun k => k < x) l1 /\ Forall (fun k => x < k) l2.
Proof.
  induction l1 as [ | k r IH]; simpl; intros Hs; inversion Hs; subst.
  - split; [ constructor | assumption ].
  - destruct (IH H1) as [Ha Hb]. split; [ | assumption ].
    constructor; [ | assumption ].
    rewrite Forall_forall in H2. apply H2. apply in_or_app. right. left. reflexivity.
Qed.

Lemma adj_sorted_lt ks a b :
  StronglySorted Rlt ks -> In (a, b) (adj ks) -> a < b.
Proof.
  induction 1 as [ | k r Hs IH Hk]; [ intros [] | ].
  rewrite adj_cons. intros [(b' & E & Hp) | Hin]; [ | auto ].
  inversion Hp; subst. apply hd_or_in in E. rewrite Forall_forall in Hk. auto.
Qed.

Lemma update_losses_total sc x d l1 l2 L :
  StronglySorted Rlt (l1 ++ x :: l2) ->
  covers d (l1 ++ x :: l2) -> spans sc (l1 ++ x :: l2) ->
  exists L', update_losses sc x d (canon None (l1 ++ x :: l2) None) L = Returned L'.
Proof.
  intros Hs Hc Hsp. unfold update_losses.
  pose proof (sorted_NoDup Hs) as Hnd.
  rewrite canon_get by (eapply split_not_left; eassumption).
  destruct (sorted_mid _ _ _ Hs) as [H1 H2]. rewrite Forall_forall in H1, H2.
  assert (Hx : In x (l1 ++ x :: l2)) by (apply in_or_app; right; left; reflexivity).
  assert (Hlo : forall lo, last_or None l1 = Some lo ->
                           exists v, interval_loss sc lo x d = Returned v).
  { intros lo E. apply last_or_in in E.
    assert (In lo (l1 ++ x :: l2)) by (apply in_or_app; auto).
    apply interval_loss_total; auto. }
  assert (Hup : forall up, hd_or None l2 = Some up ->
                           exists v, interval_loss sc x up d = Returned v).
  { intros up E. apply hd_or_in in E.
    assert (In up (l1 ++ x :: l2)) by (apply in_or_app; right; right; assumption).
    apply interval_loss_total; auto. }
  destruct (last_or None l1) as [lo | ]; destruct (hd_or None l2) as [up | ].
  - destruct (Hlo lo eq_refl) as (v1 & E1). destruct (Hup up eq_refl) as (v2 & E2).
    rewrite E1. cbn [bind]. rewrite E2. cbn [bind]. eauto.
  - destruct (Hlo lo eq_refl) as (v1 & E1). rewrite E1. cbn [bind]. eauto.
  - destruct (Hup up eq_refl) as (v2 & E2). cbn [bind]. rewrite E2. cbn [bind]. eauto.
  - cbn [bind]. eauto.
Qed.

Lemma traverse_total {A B} (f : A -> result B) l :
  (forall a, In a l -> exists b, f a = Returned b) ->
  exists l', traverse f l = Returned l'.
Proof.
  induction l as [ | a l IH]; simpl; intros Hf; [ eauto | ].
  destruct (Hf a (or_introl eq_refl)) as (b & Eb). rewrite Eb. cbn [bind].
  destruct IH as (l' & El); [ auto | ]. rewrite El. cbn [bind]. eauto.
Qed.

Lemma recompute_total sc d ks L :
  StronglySorted Rlt ks -> covers d ks -> spans sc ks ->
  (forall p, In p (dict_keys L) -> In p (adj ks)) ->
  exists L', recompute sc d L = Returned L'.
Proof.
  intros Hs Hc Hsp HL. unfold recompute. apply traverse_total.
  intros [[a b] v] Hin. cbn [fst snd].
  assert (Hadj : In (a, b) (adj ks)).
  { apply HL. apply (in_map fst) in Hin. exact Hin. }
  destruct (adj_in _ _ _ Hadj) as [Ha Hb].
  assert (Hab : a < b) by (eapply adj_sorted_lt; eassumption).
  destruct (@interval_loss_total sc a b d) as (w & Ew); auto.
  rewrite Ew. cbn [bind]. eauto.
Qed.

Lemma sd_set_keys_split {V} (d : list (R * V)) x v l1 l2 :
  Forall (fun k => k < x) l1 -> Forall (fun k => x < k) l2 ->
  dict_keys d = l1 ++ l2 \/ dict_keys d = l1 ++ x :: l2 ->
  dict_keys (sd_set d x v) = l1 ++ x :: l2.
Proof.
  intros H1 H2 [E | E]; unfold dict_keys in E; apply map_eq_app in E;
    destruct E as (d1 & d2 & Ed & E1 & E2); subst d.
  - rewrite sd_set_app.
    + unfold dict_keys. rewrite map_app. simpl. congruence.
    + unfold dict_keys. rewrite E1. assumption.
    + unfold dict_keys. rewrite E2. assumption.
  - apply map_eq_cons in E2. destruct E2 as ([k w] & d2' & Ed & Ek & E2).
    simpl in Ek. subst k d2. rewrite sd_set_present.
    + unfold dict_keys. rewrite map_app. simpl. congruence.
    + unfold dict_keys. rewrite E1. assumption.
Qed.

Lemma in_insert (l1 l2 : list R) x ks k :
  ks = l1 ++ l2 \/ ks = l1 ++ x :: l2 ->
  (In k (l1 ++ x :: l2) <-> k = x \/ In k ks).
Proof.
  intros [E | E]; subst ks; rewrite !in_app_iff; simpl; intuition congruence.
Qed.

Lemma py_min2_le a b : py_min2 a b <= a /\ py_min2 a b <= b.
Proof. unfold py_min2. destruct (Rlt_dec b a); lra. Qed.

Lemma py_max2_ge a b : a <= py_max2 a b /\ b <= py_max2 a b.
Proof. unfold py_max2. destruct (Rlt_dec a b); lra. Qed.

Lemma spans_bbox (bx : R * R) x ks ks' sc :
  (forall k, In k ks -> fst bx <= k <= snd bx) ->
  (forall k, In k ks' -> k = x \/ In k ks) ->
  fst sc = py_max2 (snd bx) x - py_min2 (fst bx) x ->
  spans sc ks'.
Proof.
  intros Hb Hk Hsc a b Ha Hb' Hab. rewrite Hsc.
  destruct (py_min2_le (fst bx) x), (py_max2_ge (snd bx) x).
  assert (Hin : forall k, In k ks' ->
                          py_min2 (fst bx) x <= k <= py_max2 (snd bx) x).
  { intros k Hk'. destruct (Hk _ Hk') as [E | Hin]; [ subst; lra | ].
    specialize (Hb _ Hin). lra. }
  pose proof (Hin _ Ha). pose proof (Hin _ Hb'). lra.
Qed.

Lemma add_point_ok st x y :
  inv st -> sound st ->
  exists st', add_point st x y = Returned st' /\ sound st'.
Proof.
  intros [Hr Hc] (S1 & S2 & S3 & S4).
  pose proof Hr as (Hrs & Hrc & _ & _). pose proof Hc as (Hcs & Hcc & _ & _).
  destruct (update_neighbors_split x Hcs Hcc) as (c1 & c2 & ENc & Hsc & Hkc).
  destruct (update_neighbors_split x Hrs Hrc) as (r1 & r2 & ENr & Hsr & Hkr).
  destruct (sorted_mid _ _ _ Hsr) as [Hr1 Hr2].
  pose proof (fun k => @in_insert _ _ _ _ k Hkc) as Hinc.
  pose proof (fun k => @in_insert _ _ _ _ k Hkr) as Hinr.
  assert (Hkeysc : dict_keys (update_neighbors x (neighbors_combined st))
                   = c1 ++ x :: c2) by (rewrite ENc; apply canon_keys).
  assert (Hkeysr : dict_keys (update_neighbors x (neighbors st))
                   = r1 ++ x :: r2) by (rewrite ENr; apply canon_keys).
  unfold add_point.
  destruct (update_scale (bbox_x st) (bbox_y st) x y) as [[bx byy] sc] eqn:Esc.
  assert (Ebx : bx = (py_min2 (fst (bbox_x st)) x, py_max2 (snd (bbox_x st)) x)
                /\ fst sc = py_max2 (snd (bbox_x st)) x - py_min2 (fst (bbox_x st)) x).
  { unfold update_scale in Esc. inversion Esc; subst. simpl. auto. }
  destruct Ebx as [Ebx Efs].
  assert (Hspc : spans sc (c1 ++ x :: c2)).
  { eapply spans_bbox; [ exact S4 | | exact Efs ]. intros k Hk. apply Hinc. exact Hk. }
  assert (Hbox : forall k, In k (c1 ++ x :: c2) -> fst bx <= k <= snd bx).
  { intros k Hk. rewrite Ebx. simpl.
    destruct (py_min2_le (fst (bbox_x st)) x), (py_max2_ge (snd (bbox_x st)) x).
    apply Hinc in Hk. destruct Hk as [E | Hk]; [ subst; lra | ].
    specialize (S4 _ Hk). lra. }
  destruct y as [v | ].
  - (* a real value *)
    assert (Hkd : dict_keys (sd_set (data st) x v) = r1 ++ x :: r2).
    { apply sd_set_keys_split; try assumption. rewrite <- S1. assumption. }
    assert (Hsub : forall k, In k (r1 ++ x :: r2) -> In k (c1 ++ x :: c2)).
    { intros k Hk. apply Hinc. apply Hinr in Hk. destruct Hk as [E | Hk]; [ auto | ].
      right. apply S2. left. rewrite <- S1. assumption. }
    assert (Hcov : covers (data_combined (sd_set (data st) x v)
                                         (dict_del (data_interp st) x))
                          (c1 ++ x :: c2)).
    { apply data_combined_covers; [ apply numbers_del; assumption | ].
      intros k Hk. rewrite Hkd. destruct (Req_dec_T k x) as [E | Hne].
      - subst. left. apply in_or_app. right. left. reflexivity.
      - apply Hinc in Hk. destruct Hk as [E | Hk]; [ contradiction | ].
        apply S2 in Hk. destruct Hk as [Hk | Hk].
        + left. apply Hinr. right. rewrite S1. assumption.
        + right. apply dict_del_keys_other; assumption. }
    rewrite ENc, ENr.
    destruct (@update_losses_total sc x _ c1 c2 (losses_combined st) Hsc Hcov Hspc)
      as (lc & Elc).
    assert (Hcovr : covers (real_data (sd_set (data st) x v)) (r1 ++ x :: r2)).
    { intros k Hk. apply numbers_get; [ apply real_data_numbers | ].
      rewrite real_data_keys, Hkd. assumption. }
    assert (Hspr : spans sc (r1 ++ x :: r2)).
    { intros a b Ha Hb. apply Hspc; auto. }
    destruct (@update_losses_total sc x _ r1 r2 (losses st) Hsr Hcovr Hspr)
      as (lr & Elr).
    rewrite Elc. cbn [bind]. rewrite Elr. cbn [bind].
    assert (Hsound : forall lr' lc' os,
               sound (mk lr' lc' (sd_set (data st) x v) (dict_del (data_interp st) x)
                         (canon None (r1 ++ x :: r2) None)
                         (canon None (c1 ++ x :: c2) None) bx byy sc os (bounds st))).
    { intros lr' lc' os. unfold sound. cbn [neighbors neighbors_combined data
                                            data_interp bbox_x].
      rewrite !canon_keys, Hkd. repeat split; auto.
      - intros Hk. destruct (Req_dec_T k x) as [E | Hne].
        + subst. left. apply in_or_app. right. left. reflexivity.
        + apply Hinc in Hk. destruct Hk as [E | Hk]; [ contradiction | ].
          apply S2 in Hk. destruct Hk as [Hk | Hk].
          * left. apply Hinr. right. rewrite S1. assumption.
          * right. apply dict_del_keys_other; assumption.
      - intros [Hk | Hk]; [ auto | ].
        apply Hinc. right. apply S2. right. eapply dict_del_keys_sub. eassumption.
      - apply numbers_del. assumption.
      - apply Hbox. assumption.
      - apply Hbox. assumption. }
    destruct (list_gtb _ _).
    + rewrite <- ENr in Elr. rewrite <- ENc in Elc.
      destruct (@linked_step _ _ _ _ _ _ Hr Elr) as (_ & _ & _ & HLr).
      destruct (@linked_step _ _ _ _ _ _ Hc Elc) as (_ & _ & _ & HLc).
      rewrite Hkeysr in HLr. rewrite Hkeysc in HLc.
      destruct (@recompute_total sc (real_data (sd_set (data st) x v))
                  (r1 ++ x :: r2) lr Hsr Hcovr Hspr) as (lr' & Er).
      { intros p. apply HLr. }
      destruct (@recompute_total sc (data_combined (sd_set (data st) x v)
                                       (dict_del (data_interp st) x))
                  (c1 ++ x :: c2) lc Hsc Hcov Hspc) as (lc' & Ec).
      { intros p. apply HLc. }
      rewrite Er. cbn [bind]. rewrite Ec. cbn [bind].
      eexists. split; [ reflexivity | apply Hsound ].
    + eexists. split; [ reflexivity | apply Hsound ].
  - (* a pending point *)
    assert (Hcov : covers (data_combined (data st)
                             (interpolate (data st) (dict_set (data_interp st) x None)))
                          (c1 ++ x :: c2)).
    { apply data_combined_covers; [ apply interpolate_numbers | ].
      intros k Hk. rewrite interpolate_keys, dict_set_keys_in.
      apply Hinc in Hk. destruct Hk as [E | Hk]; [ auto | ].
      apply S2 in Hk. tauto. }
    rewrite ENc.
    destruct (@update_losses_total sc x _ c1 c2 (losses_combined st) Hsc Hcov Hspc)
      as (lc & Elc).
    rewrite Elc. cbn [bind].
    eexists. split; [ reflexivity | ].
    unfold sound. cbn [neighbors neighbors_combined data data_interp bbox_x].
    rewrite canon_keys. repeat split; auto.
    + intros Hk. rewrite interpolate_keys, dict_set_keys_in.
      apply Hinc in Hk. destruct Hk as [E | Hk]; [ auto | ].
      apply S2 in Hk. tauto.
    + rewrite interpolate_keys, dict_set_keys_in. intros [Hk | [E | Hk]].
      * apply Hinc. right. apply S2. auto.
      * apply Hinc. auto.
      * apply Hinc. right. apply S2. auto.
    + apply interpolate_numbers.
    + apply Hbox. assumption.
    + apply Hbox. assumption.
Qed.

Lemma adj_right m1 a m2 b :
  NoDup (m1 ++ a :: m2) ->
  (In (a, b) (adj (m1 ++ a :: m2)) <-> hd_or None m2 = Some b).
Proof.
  intros Hnd. rewrite (@adj_insert m1 m2 a Hnd). split.
  - intros [H | [H | [(b' & E & Hp) | (a' & E & Hp)]]].
    + apply adj_in in H. destruct H as [H _].
      exfalso. eapply split_not_left; eassumption.
    + apply adj_in in H. destruct H as [H _].
      exfalso. eapply split_not_right; eassumption.
    + congruence.
    + inversion Hp; subst. apply last_or_in in E.
      exfalso. eapply split_not_left; eassumption.
  - intros E. right. right. left. eauto.
Qed.

Lemma adj_left m1 x m2 a :
  NoDup (m1 ++ x :: m2) ->
  (In (a, x) (adj (m1 ++ x :: m2)) <-> last_or None m1 = Some a).
Proof.
  intros Hnd. rewrite (@adj_insert m1 m2 x Hnd). split.
  - intros [H | [H | [(b' & E & Hp) | (a' & E & Hp)]]].
    + apply adj_in in H. destruct H as [_ H].
      exfalso. eapply split_not_left; eassumption.
    + apply adj_in in H. destruct H as [_ H].
      exfalso. eapply split_not_right; eassumption.
    + inversion Hp; subst. apply hd_or_in in E.
      exfalso. eapply split_not_right; eassumption.
    + congruence.
  - intros E. right. right. right. eauto.
Qed.

Lemma linked_get N L x :
  linked N L -> In x (dict_keys N) ->
  exists m1 m2,
    dict_keys N = m1 ++ x :: m2 /\ NoDup (m1 ++ x :: m2)
    /\ dict_get N x = Some (last_or None m1, hd_or None m2).
Proof.
  intros (Hs & Hc & _ & _) Hin.
  destruct (in_split x (dict_keys N) Hin) as (m1 & m2 & E).
  exists m1, m2. pose proof (sorted_NoDup Hs) as Hnd. rewrite E in Hnd.
  repeat split; try assumption.
  rewrite Hc, E. apply canon_get. eapply split_not_left; eassumption.
Qed.

Lemma linked_keyed N L : linked N L -> keyed N L.
Proof.
  intros HL. pose proof HL as (Hs & Hc & Hnd & Hadj).
  assert (P1 : forall a b, In (a, b) (dict_keys L)
                           <-> exists lo, dict_get N a = Some (lo, Some b)).
  { intros a b. rewrite Hadj. split.
    - intros Hin. pose proof Hin as Hin'. apply adj_in in Hin'. destruct Hin' as [Ha _].
      destruct (@linked_get N L a HL Ha) as (m1 & m2 & E & Hnd' & Hg).
      rewrite E in Hin. apply (@adj_right m1 a m2 b Hnd') in Hin.
      rewrite Hg, Hin. eauto.
    - intros (lo & Hg). pose proof Hg as Ha. apply dict_get_some_key in Ha.
      destruct (@linked_get N L a HL Ha) as (m1 & m2 & E & Hnd' & Hg').
      rewrite E. apply (@adj_right m1 a m2 b Hnd'). congruence. }
  assert (P2 : forall a b, In (a, b) (dict_keys L)
                           <-> exists up, dict_get N b = Some (Some a, up)).
  { intros a b. rewrite Hadj. split.
    - intros Hin. pose proof Hin as Hin'. apply adj_in in Hin'. destruct Hin' as [_ Hb].
      destruct (@linked_get N L b HL Hb) as (m1 & m2 & E & Hnd' & Hg).
      rewrite E in Hin. apply (@adj_left m1 b m2 a Hnd') in Hin.
      rewrite Hg, Hin. eauto.
    - intros (up & Hg). pose proof Hg as Hb. apply dict_get_some_key in Hb.
      destruct (@linked_get N L b HL Hb) as (m1 & m2 & E & Hnd' & Hg').
      rewrite E. apply (@adj_left m1 b m2 a Hnd'). congruence. }
  unfold keyed. split; [ exact P1 | split; [ exact P2 | split; [ | split ] ] ].
  - intros x lo up Hg. split; [ apply P2 | apply P1 ]; eauto.
  - intros x up Hg a Hin. apply P2 in Hin. destruct Hin as (up' & E). congruence.
  - intros x lo Hg b Hin. apply P1 in Hin. destruct Hin as (lo' & E). congruence.
Qed.

Lemma init_inv b : inv (init b).
Proof. split; apply linked_empty. Qed.

Lemma init_sound b : sound (init b).
Proof.
  unfold sound, init. simpl. repeat split; try tauto; constructor.
Qed.

Lemma add_points_ok calls : forall st,
  inv st -> sound st ->
  exists st', add_points st calls = Returned st' /\ inv st' /\ sound st'.
Proof.
  induction calls as [ | [x y] cs IH]; intros st Hi Hs; simpl.
  - eauto.
  - destruct (@add_point_ok st x y Hi Hs) as (st1 & E1 & Hs1).
    rewrite E1. cbn [bind]. apply IH; [ | assumption ].
    eapply add_point_inv; eassumption.
Qed.

(** C10. Any sequence of [add_point] calls on a fresh 1-D learner runs to
    the end, and afterwards both loss maps are keyed exactly by the
    adjacent pairs of their neighbour maps: [(a, b)] is a key of the loss
    map iff [b] is the right neighbour of [a] (iff [a] is the left
    neighbour of [b]); a key with a left and a right neighbour has a loss
    entry for both of its pairs; a key with no left (right) neighbour has
    no loss entry on that side. *)
Theorem losses_keyed_by_adjacent_pairs :
  forall (b : R * R) (calls : list (R * option R)),
  exists st,
    add_points (init b) calls = Returned st
    /\ keyed (neighbors st) (losses st)
    /\ keyed (neighbors_combined st) (losses_combined st).
Proof.
  intros b calls.
  destruct (@add_points_ok calls (init b) (init_inv b) (init_sound b))
    as (st & E & [Hr Hc] & _).
  exists st. split; [ assumption | ]. split; apply linked_keyed; assumption.
Qed.

End Learner1DFacts.

(** ** [heapq] keeps the items; the allocation of [choose_points] *)

Section HeapFacts.
Variable A : Type.
Variable ltb : A -> A -> bool.

Lemma list_set_swap_head (l : list A) i a b :
  nth_error l i = Some a -> Permutation (a :: list_set l i b) (b :: l).
Proof.
  revert i. induction l as [ | c l IH]; intros [ | i] E; simpl in E; try discriminate.
  - inversion E; subst. simpl. apply perm_swap.
  - simpl. eapply perm_trans; [ apply perm_swap | ].
    eapply perm_trans; [ apply perm_skip, IH, E | apply perm_swap ].
Qed.

Lemma nth_error_list_set_same (l : list A) i a b :
  nth_error l i = Some a -> nth_error (list_set l i b) i = Some b.
Proof.
  revert i. induction l as [ | c l IH]; intros [ | i] E; simpl in *; try discriminate; auto.
Qed.

Lemma nth_error_list_set_other (l : list A) i j b :
  i <> j -> nth_error (list_set l i b) j = nth_error l j.
Proof.
  revert i j. induction l as [ | c l IH]; intros [ | i] [ | j] Hne; simpl; auto; try lia.
Qed.

Lemma swap_perm (l : list A) i j : Permutation (swap l i j) l.
Proof.
  unfold swap. destruct (nth_error l i) as [a | ] eqn:Ei; [ | reflexivity ].
  destruct (nth_error l j) as [b | ] eqn:Ej; [ | reflexivity ].
  apply (Permutation_cons_inv (a := b)).
  assert (Ej' : nth_error (list_set l i b) j = Some b).
  { destruct (Nat.eq_dec i j) as [E | Hne].
    - subst j. eapply nth_error_list_set_same; eassumption.
    - rewrite nth_error_list_set_other by assumption. assumption. }
  eapply perm_trans; [ apply (@list_set_swap_head (list_set l i b) j b a Ej') | ].
  apply (@list_set_swap_head l i a b Ei).
Qed.

Lemma siftdown_perm fuel : forall (h : list A) s p,
  Permutation (siftdown ltb fuel h s p) h.
Proof.
  induction fuel as [ | fuel IH]; intros h s p; cbn [siftdown]; [ reflexivity | ].
  destruct (s <? p)%nat; [ | reflexivity ].
  destruct (nth_error h p); [ | reflexivity ].
  destruct (nth_error h ((p - 1) / 2)); [ | reflexivity ].
  destruct (ltb _ _); [ | reflexivity ].
  eapply perm_trans; [ apply IH | apply swap_perm ].
Qed.

Lemma siftup_loop_perm fuel : forall (h : list A) p,
  Permutation (fst (siftup_loop ltb fuel h p)) h.
Proof.
  induction fuel as [ | fuel IH]; intros h p; cbn [siftup_loop]; [ reflexivity | ].
  destruct (_ <? _)%nat; [ | reflexivity ].
  eapply perm_trans; [ apply IH | apply swap_perm ].
Qed.

Lemma siftup_perm (h : list A) p : Permutation (siftup ltb h p) h.
Proof.
  unfold siftup. pose proof (siftup_loop_perm (length h) h p) as H.
  destruct (siftup_loop ltb (length h) h p) as [h' leaf]. simpl in H.
  eapply perm_trans; [ apply siftdown_perm | exact H ].
Qed.

Lemma heapify_perm (h : list A) : Permutation (heapify ltb h) h.
Proof.
  unfold heapify. generalize (rev (seq 0 (length h / 2))). intros idx.
  revert h. induction idx as [ | i idx IH]; intros h; simpl; [ reflexivity | ].
  eapply perm_trans; [ apply IH | apply siftup_perm ].
Qed.

Lemma heapreplace_perm (a : A) (h : list A) item :
  Permutation (heapreplace ltb (a :: h) item) (item :: h).
Proof. unfold heapreplace. apply siftup_perm. Qed.
Lemma perm_nonempty (l l' : list A) : Permutation l l' -> l' <> [] -> l <> [].
Proof.
  intros Hp Hne E. subst l. apply Permutation_nil in Hp. contradiction.
Qed.

Lemma heapreplace_nonempty (a : A) (h : list A) item :
  heapreplace ltb (a :: h) item <> [].
Proof.
  eapply perm_nonempty; [ apply heapreplace_perm | discriminate ].
Qed.

Lemma heapify_nonempty (h : list A) : h <> [] -> heapify ltb h <> [].
Proof. intros Hne. eapply perm_nonempty; [ apply heapify_perm | exact Hne ]. Qed.
End HeapFacts.

Section AllocationFacts.
Import Learner1D.

Lemma list_sum_perm (l l' : list nat) :
  Permutation l l' -> list_sum l = list_sum l'.
Proof. induction 1; simpl; lia. Qed.

Lemma new_points_perm (l l' : list qual) :
  Permutation l l' -> new_points l = new_points l'.
Proof. intros Hp. unfold new_points. apply list_sum_perm, Permutation_map, Hp. Qed.

Lemma subdivisions_perm (l l' : list qual) :
  Permutation l l' -> subdivisions l = subdivisions l'.
Proof. intros Hp. unfold subdivisions. apply list_sum_perm, Permutation_map, Hp. Qed.

Lemma allocate_spec n : forall quals,
  quals <> [] -> Forall (fun q : qual => (1 <= snd q)%nat) quals ->
  exists quals',
    allocate n quals = Returned quals'
    /\ Forall (fun q : qual => (1 <= snd q)%nat) quals'
    /\ new_points quals' = (new_points quals + n)%nat
    /\ subdivisions quals' = (subdivisions quals + n)%nat.
Proof.
  induction n as [ | n IH]; intros quals Hne Hk; simpl.
  - exists quals. repeat split; auto.
  - destruct quals as [ | [[quality x] k] rest]; [ congruence | ].
    inversion Hk as [ | q qs H1 H2 Eq]. simpl in H1.
    set (item := ((quality * INR k / INR (k + 1), x, S k) : qual)).
    pose proof (heapreplace_perm qual_ltb (quality, x, k) rest item) as Hp.
    destruct (IH (heapreplace qual_ltb ((quality, x, k) :: rest) item))
      as (quals' & E & Hk' & Hn & Hs).
    + apply heapreplace_nonempty.
    + eapply Permutation_Forall; [ apply Permutation_sym; exact Hp | ].
      constructor; [ simpl; lia | assumption ].
    + exists quals'. split; [ exact E | ]. split; [ exact Hk' | ].
      pose proof (new_points_perm Hp) as Hp1.
      pose proof (subdivisions_perm Hp) as Hp2.
      unfold qual in *. rewrite Hn, Hs, Hp1, Hp2.
      unfold new_points, subdivisions. simpl. lia.
Qed.

Lemma points_length x k :
  (1 <= k)%nat -> exists pts, points x k = Returned pts /\ length pts = (k - 1)%nat.
Proof.
  intros Hk. destruct k as [ | [ | k]]; [ lia | simpl; eauto | ].
  unfold points. eexists. split; [ reflexivity | ].
  rewrite length_map, length_seq. reflexivity.
Qed.

Lemma traverse_points quals :
  Forall (fun q : qual => (1 <= snd q)%nat) quals ->
  exists xss,
    traverse (fun q : qual => points (snd (fst q)) (snd q)) quals = Returned xss
    /\ length (concat xss) = new_points quals.
Proof.
  induction 1 as [ | q quals Hq Hk IH]; simpl.
  - exists []. auto.
  - destruct (points_length (snd (fst q)) Hq) as (pts & Ep & Hl).
    destruct IH as (xss & Ex & Hx).
    rewrite Ep. cbn [bind]. rewrite Ex. cbn [bind].
    eexists. split; [ reflexivity | ].
    simpl. rewrite length_app, Hl, Hx. reflexivity.
Qed.

Lemma improvements_length (quals : list qual) :
  length (flat_map (fun q : qual => repeat (Fin (- fst (fst q))) (snd q)) quals)
  = subdivisions quals.
Proof.
  induction quals as [ | q quals IH]; simpl; [ reflexivity | ].
  rewrite length_app, repeat_length, IH. reflexivity.
Qed.

(** On the allocation path [n] points come back, with one loss
    improvement per subdivision: [n] plus the number of intervals. *)
Lemma choose_points_allocates (l : learner) n :
  missing_bounds l = [] -> losses_combined l <> [] -> (1 <= n)%nat ->
  exists xs li,
    choose_points l n false = Returned (Chosen xs li, l)
    /\ length xs = n
    /\ length li = (n + length (losses_combined l))%nat.
Proof.
  intros Hm Hl Hn. unfold choose_points. destruct n as [ | n']; [ lia | ].
  rewrite Hm.
  set (q0 := map (fun kv : R * R * R => (- snd kv, fst kv, 1%nat)) (losses_combined l)).
  pose proof (heapify_perm qual_ltb q0) as Hp.
  assert (H1 : Forall (fun q : qual => (1 <= snd q)%nat) q0).
  { unfold q0. apply Forall_forall. intros q Hin. apply in_map_iff in Hin.
    destruct Hin as (kv & E & _). subst. simpl. lia. }
  assert (Hnp : new_points q0 = 0%nat /\ subdivisions q0 = length (losses_combined l)).
  { unfold q0. clear. induction (losses_combined l) as [ | kv d [IH1 IH2]].
    - split; reflexivity.
    - unfold new_points, subdivisions in *. simpl in *. split; lia. }
  destruct (@allocate_spec (S n') (heapify qual_ltb q0)) as (quals' & E & Hk & Hn' & Hs').
  - apply heapify_nonempty. unfold q0.
    destruct (losses_combined l); [ congruence | discriminate ].
  - eapply Permutation_Forall; [ apply Permutation_sym; exact Hp | exact H1 ].
  - rewrite E. cbn [bind].
    destruct (traverse_points Hk) as (xss & Ex & Hx).
    rewrite Ex. cbn [bind]. eexists. eexists. split; [ reflexivity | ].
    pose proof (new_points_perm Hp) as Hp1.
    pose proof (subdivisions_perm Hp) as Hp2.
    destruct Hnp as [Hnp Hsd]. unfold qual in *.
    split.
    + rewrite Hx, Hn', Hp1, Hnp. reflexivity.
    + rewrite improvements_length, Hs', Hp2, Hsd. lia.
Qed.

End AllocationFacts.

(** ** 1-D learner: [choose_points] on a reachable learner *)

Section ChoosePoints1D.
Import Learner1D.

Ltac run_binds :=
  repeat match goal with
    | |- bind ?m _ = _ -> _ => destruct m; cbn [bind]
    | |- (if ?b then _ else _) = _ -> _ => destruct b
    end.

Lemma add_point_bounds st x y st' :
  add_point st x y = Returned st' -> bounds st' = bounds st.
Proof.
  unfold add_point.
  destruct (update_scale (bbox_x st) (bbox_y st) x y) as [[bx byy] sc].
  destruct y as [v | ]; run_binds; intros E; inversion E; reflexivity.
Qed.

Lemma add_points_bounds calls : forall st st',
  add_points st calls = Returned st' -> bounds st' = bounds st.
Proof.
  induction calls as [ | [x y] cs IH]; intros st st'; simpl.
  - intros E; inversion E; reflexivity.
  - destruct (add_point st x y) as [st1 | ] eqn:E1; cbn [bind]; [ | discriminate ].
    intros E. rewrite (IH _ _ E). eapply add_point_bounds. eassumption.
Qed.

Lemma adj_two ks a b :
  In a ks -> In b ks -> a <> b -> exists p, In p (adj ks).
Proof.
  destruct ks as [ | k [ | k' r]]; simpl.
  - tauto.
  - intros [Ea | []] [Eb | []]. congruence.
  - intros _ _ _. eexists. left. reflexivity.
Qed.

(** Once both bounds carry real values, a dry run returns exactly [n]
    points; the loss improvements count one entry per subdivision. *)
Lemma reachable_choose_points b calls st n :
  fst b <> snd b ->
  add_points (init b) calls = Returned st ->
  dict_mem (data st) (fst b) = true -> dict_mem (data st) (snd b) = true ->
  (1 <= n)%nat ->
  exists xs li,
    choose_points st n false = Returned (Chosen xs li, st)
    /\ length xs = n
    /\ length li = (n + length (losses_combined st))%nat.
Proof.
  intros Hne Hrun H0 H1 Hn.
  destruct (@add_points_ok calls (init b) (init_inv b) (init_sound b))
    as (st' & E & [Hr Hc] & (S1 & S2 & S3 & S4)).
  rewrite Hrun in E. inversion E; subst st'. clear E.
  pose proof (add_points_bounds _ _ Hrun) as Hb. simpl in Hb.
  apply choose_points_allocates; [ | | assumption ].
  - unfold missing_bounds. rewrite Hb. simpl. rewrite H0, H1. reflexivity.
  - destruct Hc as (_ & _ & _ & HL).
    apply dict_mem_In in H0. apply dict_mem_In in H1.
    destruct (@adj_two (dict_keys (neighbors_combined st)) (fst b) (snd b))
      as (p & Hp); try assumption.
    + apply S2. left. assumption.
    + apply S2. left. assumption.
    + apply HL in Hp. intros E0. rewrite E0 in Hp. destruct Hp.
Qed.

(** With [add_data=True] the allocation path never returns. *)
Lemma choose_points_add_raises l n :
  missing_bounds l = [] -> n <> 0%nat ->
  exists e, choose_points l n true = Raised e.
Proof.
  intros Hm Hn. unfold choose_points. destruct n as [ | n]; [ congruence | ].
  rewrite Hm. destruct (allocate (S n) _) as [quals | e]; cbn [bind]; [ | eauto ].
  destruct (traverse _ quals) as [xss | e]; cbn [bind]; eauto.
Qed.


End ChoosePoints1D.

(** ** The run on the bounds (0, 1) *)

Lemma run_step1 : Learner1D.add_point run0 0 (Some 0) = Returned run1.
Proof. unfold run0, run1, Learner1D.init. reval; struct_eq. Qed.

Lemma run_step2 : Learner1D.add_point run1 1 (Some 1) = Returned run2.
Proof. unfold run1, run2. reval. all: try struct_eq. Qed.

Lemma run_step3 :
  Learner1D.add_point run2 (1 / 4) (Some (1 / 4)) = Returned run3.
Proof. unfold run2, run3, losses3, neighbors3. reval. all: try struct_eq. Qed.

Lemma run_step4 :
  Learner1D.add_point run3 (1 / 2) (Some (3 / 2)) = Returned run4.
Proof.
  unfold run3, run4, losses3, neighbors3, losses4, neighbors4.
  reval. all: try struct_eq.
Qed.

Lemma run_three :
  Learner1D.add_points run0 [(0, Some 0); (1, Some 1); (1 / 4, Some (1 / 4))]
  = Returned run3.
Proof.
  cbn [Learner1D.add_points]. rewrite run_step1. cbn [bind].
  rewrite run_step2. cbn [bind]. rewrite run_step3. reflexivity.
Qed.

(** C5 (evaluation). On the bounds (0, 1) the values 0, 1 and 1/4 are
    observed at 0, 1 and 1/4: the reference scale is (1, 1).  Observing 3/2
    at 1/2 takes the scale to (1, 3/2), which in neither dimension is more
    than twice the reference.  All the same the reference scale is reset
    and the loss of the interval (0, 1/4), which does not touch the new
    point, is computed anew: [self._oldscale * 2] repeats the list, and the
    comparison of the two lists is decided by 3/2 > 1. *)
Theorem learner1d_recomputes_without_doubling :
  Learner1D.add_points run0 [(0, Some 0); (1, Some 1); (1 / 4, Some (1 / 4))]
  = Returned run3
  /\ Learner1D.add_point run3 (1 / 2) (Some (3 / 2)) = Returned run4
  /\ Learner1D.oldscale run3 = (1, Fin 1)
  /\ Learner1D.scale run4 = (1, Fin (3 / 2))
  /\ Learner1D.oldscale run4 = (1, Fin (3 / 2))
  /\ Learner1D.losses run3
     = [((0, 1 / 4), sqrt ((1 / 4) ^ 2 + (1 / 4) ^ 2));
        ((1 / 4, 1), sqrt ((3 / 4) ^ 2 + (3 / 4) ^ 2))]
  /\ Learner1D.losses run4
     = [((0, 1 / 4), sqrt ((1 / 4) ^ 2 + (1 / 6) ^ 2));
        ((1 / 4, 1 / 2), sqrt ((1 / 4) ^ 2 + (5 / 6) ^ 2));
        ((1 / 2, 1), sqrt ((1 / 2) ^ 2 + (1 / 3) ^ 2))]
  /\ sqrt ((1 / 4) ^ 2 + (1 / 6) ^ 2) <> sqrt ((1 / 4) ^ 2 + (1 / 4) ^ 2).
Proof.
  split; [ exact run_three | ]. split; [ exact run_step4 | ].
  repeat (split; [ reflexivity | ]).
  intros E. apply sqrt_inj in E; lra.
Qed.

(** C1 (evaluation). A fresh learner on (0, 1) asked for two points with
    [add_data=True] returns the two bounds and is left as it was: neither
    [data] nor [data_interp] holds a pending entry.  And once no bound is
    missing, [choose_points(n, add_data=True)] does not return at all. *)
Theorem learner1d_choose_points_skips_add_data :
  Learner1D.choose_points run0 2 true
  = Returned (Learner1D.Chosen [0; 1] [PInf; PInf], run0)
  /\ Learner1D.data run0 = []
  /\ Learner1D.data_interp run0 = []
  /\ (forall l n, Learner1D.missing_bounds l = [] -> n <> 0%nat ->
                  exists e, Learner1D.choose_points l n true = Raised e).
Proof.
  split; [ reflexivity | ]. split; [ reflexivity | ]. split; [ reflexivity | ].
  apply choose_points_add_raises.
Qed.

(** ** Every engine's [choose_points]: the pieces *)





(** The dry run above, spelled out: one point, and two loss improvements
    for it, one per subdivision of the interval (0, 1). *)
Example learner1d_improvements_outnumber_points :
  Learner1D.choose_points run2 1 false
  = Returned
      (Learner1D.Chosen [1 / 2]
         [Fin (sqrt (1 ^ 2 + 1 ^ 2) / 2); Fin (sqrt (1 ^ 2 + 1 ^ 2) / 2)],
       run2).
Proof.
  unfold Learner1D.choose_points, Learner1D.missing_bounds, run2.
  cbv [Learner1D.bounds Learner1D.data Learner1D.data_interp fst snd filter
       dict_mem dict_get dec_eq DecEq_R negb andb
       Learner1D.losses_combined map].
  repeat (rstep; cbv beta iota).
  all: cbv [heapify length Nat.div Nat.divmod seq rev fold_left fst
            Learner1D.allocate heapreplace list_set siftup siftup_loop
            Nat.mul Nat.add Nat.ltb Nat.leb siftdown bind traverse
            Learner1D.points snd Nat.sub map concat app flat_map repeat].
  all: cbn [INR]; struct_eq.
Qed.

(** ** 2-D learner: the point placed in a triangle *)

Section TriangleFacts.
Import Learner2D.


Lemma norm_nonneg (u : point) : 0 <= norm u.
Proof. unfold norm. apply sqrt_pos. Qed.




Lemma badness_value (t : triangle) :
  signed_area t <> 0 ->
  badness t
  = Some (Fin (edge_length t (longest_edge t) ^ 2 / signed_area t * (sqrt 3 / 4))).
Proof.
  intros Ha. unfold badness, np_div.
  destruct (Req_dec_T (signed_area t) 0); [ contradiction | reflexivity ].
Qed.

Lemma sqrt3_sq : sqrt 3 * sqrt 3 = 3.
Proof. apply sqrt_sqrt. lra. Qed.

Lemma sqrt3_pos : 0 < sqrt 3.
Proof. apply sqrt_lt_R0. lra. Qed.






Lemma clockwise_edges :
  edge_length clockwise_equilateral 0 = 1
  /\ edge_length clockwise_equilateral 1 = 1
  /\ edge_length clockwise_equilateral 2 = 1.
Proof.
  pose proof sqrt3_sq as Hs.
  unfold edge_length, clockwise_equilateral, norm.
  cbn [vertex roll psub fst snd].
  assert (Hone : forall x, x = 1 -> sqrt x = 1) by (intros x E; rewrite E; apply sqrt_1).
  repeat split; apply Hone; nra.
Qed.

(** Outside the triangles of the engine: the equilateral triangle of
    side 1 with its vertices listed clockwise has a negative signed area
    and scores -1. *)
Lemma clockwise_equilateral_scores_minus_one :
  edge_length clockwise_equilateral 0 = edge_length clockwise_equilateral 1
  /\ edge_length clockwise_equilateral 1 = edge_length clockwise_equilateral 2
  /\ badness clockwise_equilateral = Some (Fin (-1))
  /\ badness clockwise_equilateral <> Some (Fin 1).
Proof.
  destruct clockwise_edges as (E0 & E1 & E2).
  pose proof sqrt3_sq as Hs. pose proof sqrt3_pos as Hs'.
  assert (Ha : signed_area clockwise_equilateral = - (sqrt 3 / 4)).
  { unfold signed_area, clockwise_equilateral, cross. cbn [psub fst snd]. lra. }
  assert (Hb : badness clockwise_equilateral = Some (Fin (-1))).
  { rewrite badness_value by (rewrite Ha; lra).
    assert (El : edge_length clockwise_equilateral (longest_edge clockwise_equilateral) = 1).
    { unfold longest_edge. rewrite E0, E1, E2. unfold argmax3.
      destruct (Rlt_dec 1 1); [ lra | exact E0 ]. }
    rewrite El, Ha. f_equal. f_equal. set (s := sqrt 3) in *. field. lra. }
  repeat split; try congruence.
  rewrite Hb. intros E. inversion E. lra.
Qed.

End TriangleFacts.


(** ** 2-D learner: the loss *)

Lemma fold_max_spec l : forall x,
  let m := fold_left py_max2 l x in
  (m = x \/ In m l) /\ x <= m /\ (forall v, In v l -> v <= m).
Proof.
  induction l as [ | y l IH]; intros x; simpl.
  - split; [ auto | split; [ lra | tauto ] ].
  - destruct (IH (py_max2 x y)) as (Hin & Hle & Hall).
    assert (Hxy : x <= py_max2 x y /\ y <= py_max2 x y
                  /\ (py_max2 x y = x \/ py_max2 x y = y)).
    { unfold py_max2. destruct (Rlt_dec x y); lra. }
    destruct Hxy as (Hx & Hy & Hc). split; [ | split ].
    + destruct Hin as [E | Hin]; [ | auto ].
      destruct Hc as [E' | E']; [ left | right; left ]; congruence.
    + lra.
    + intros v [E | Hv]; [ subst; lra | auto ].
Qed.

Lemma py_max_spec l m :
  py_max l = Returned m -> In m l /\ forall v, In v l -> v <= m.
Proof.
  destruct l as [ | x l]; simpl; [ discriminate | ].
  intros E. inversion E as [Em]. clear E.
  destruct (fold_max_spec l x) as (Hin & Hle & Hall). cbv zeta in *.
  split.
  - destruct Hin as [E | Hin]; [ left; congruence | right; assumption ].
  - intros v [E | Hv]; [ subst; exact Hle | auto ].
Qed.

Section Loss2D.
Import Learner2D.
Variable V : Type.
Variable zeros : V.
Variable Interp : Type.
Variable LinearNDInterpolator : list point -> list V -> result Interp.
Variable ip_call : Interp -> list point -> list V.

Lemma set_mem_In s p : set_mem s p = true <-> In p s.
Proof. unfold set_mem. destruct (in_dec dec_eq p s); split; auto; discriminate. Qed.

Lemma bounds_are_done_false (l : Learner2D.learner V Interp) :
  bounds_are_done l = false
  <-> exists c, In c (bounds_points l)
                /\ (In c (interp l) \/ In c (dict_keys (stack l))).
Proof.
  unfold bounds_are_done. rewrite negb_false_iff, existsb_exists.
  split; intros (c & Hc & H); exists c; (split; [ exact Hc | ]).
  - apply orb_true_iff in H. rewrite set_mem_In, dict_mem_In in H. exact H.
  - apply orb_true_iff. rewrite set_mem_In, dict_mem_In. exact H.
Qed.

(** The guard of [loss]: +infinity while some declared corner is pending
    or on the candidate stack.  Past the guard, when the interpolant can
    be built, the loss is the maximum of the per-triangle losses over the
    interpolant of the real points ([real]) or of the real and pending
    points, and it raises when there is no triangle. *)
Lemma loss_past_the_guard
  (l : Learner2D.learner V Interp) (real : bool) :
  (bounds_are_done l = false
   <-> exists c, In c (bounds_points l)
                 /\ (In c (interp l) \/ In c (dict_keys (stack l))))
  /\ (bounds_are_done l = false ->
      loss zeros LinearNDInterpolator ip_call l real = Returned (PInf, l))
  /\ (bounds_are_done l = true ->
      forall i l',
        (if real then ip LinearNDInterpolator l
         else ip_combined zeros LinearNDInterpolator ip_call l)
        = Returned (i, l') ->
        (loss_per_triangle l i = [] ->
         loss zeros LinearNDInterpolator ip_call l real = Raised ValueError)
        /\ (loss_per_triangle l i <> [] ->
            exists m,
              loss zeros LinearNDInterpolator ip_call l real
              = Returned (Fin m, l')
              /\ In m (loss_per_triangle l i)
              /\ (forall v, In v (loss_per_triangle l i) -> v <= m)
              /\ ((forall v, In v (loss_per_triangle l i) -> 0 <= v) -> 0 <= m))).
Proof.
  split; [ apply bounds_are_done_false | ]. split.
  - intros Hd. unfold loss. rewrite Hd. reflexivity.
  - intros Hd i l' Hip. unfold loss. rewrite Hd. cbn [negb].
    rewrite Hip. cbn [bind]. split.
    + intros E. rewrite E. reflexivity.
    + intros Hne. destruct (py_max (loss_per_triangle l i)) as [m | e] eqn:Em.
      * destruct (py_max_spec _ Em) as [Hin Hall].
        exists m. cbn [bind]. repeat split; auto.
      * destruct (loss_per_triangle l i); [ congruence | discriminate ].
Qed.
End Loss2D.

(** C4 (evaluation). On a new learner [choose_points(4)] hands out the
    four corners and [remove_unfinished] forgets them: no corner is in
    [data], pending or stacked, so no corner has been sampled or queued.
    The guard of [loss] only looks at the pending and the stacked
    points, lets this state pass, and [loss] goes on to [scale] the empty
    list of points: it raises [ValueError] where +infinity is due, for
    [real=True] and for [real=False]. *)
Theorem loss_raises_after_corners_forgotten :
  exists pts li l',
    Learner2D.choose_points 0 no_interpolator (fun _ _ => [])
      (fun _ _ => ((0, 0), (0, 0), (0, 0))) 0 fresh2d 4 true
    = Some (Returned (pts, li, l'))
    /\ Learner2D.remove_unfinished l' = forgotten2d
    /\ (forall c, In c (Learner2D.bounds_points forgotten2d) ->
                  ~ In c (dict_keys (Learner2D.data forgotten2d))
                  /\ ~ In c (Learner2D.interp forgotten2d)
                  /\ ~ In c (dict_keys (Learner2D.stack forgotten2d)))
    /\ Learner2D.bounds_are_done forgotten2d = true
    /\ (forall real,
          Learner2D.loss 0 no_interpolator (fun _ _ => []) forgotten2d real
          = Raised ValueError).
Proof.
  eexists. eexists. eexists. split; [ | split; [ | split; [ | split ] ] ].
  - cbv [Learner2D.choose_points Learner2D.split_stack fresh2d Learner2D.init
         Learner2D.corners unit_square Learner2D.stack rev map app firstn fst snd
         Learner2D.add_pending fold_left Learner2D.add_point Learner2D.refill
         Nat.sub length Learner2D.restack combine Learner2D.with_stack
         Learner2D.with_interp Learner2D.interp Learner2D.data Learner2D.bounds
         Learner2D.loss_per_triangle Learner2D.bounds_points Learner2D.ip_cache
         Learner2D.ip_combined_cache Learner2D.stack_size Nat.leb orb negb bind].
    reflexivity.
  - cbv [Learner2D.remove_unfinished Learner2D.with_interp forgotten2d
         Learner2D.interp Learner2D.data Learner2D.bounds Learner2D.stack
         Learner2D.loss_per_triangle Learner2D.bounds_points Learner2D.ip_cache
         Learner2D.ip_combined_cache Learner2D.stack_size].
    cbv [dict_del Learner2D.set_add dec_eq DecEq_prod DecEq_R
         sumbool_rec sumbool_rect in_dec list_rec list_rect app].
    repeat (rstep; cbv beta iota).
    all: try reflexivity.
  - intros c Hc. simpl. tauto.
  - reflexivity.
  - intros [ | ]; reflexivity.
Qed.

(** ** Snapshots *)

Section RestoreFacts.
Variable L : Type.

Lemma setstate_same (s : store L) o v : setstate s o v o = v.
Proof. unfold setstate. rewrite Nat.eqb_refl. reflexivity. Qed.

Lemma setstate_other (s : store L) o o' v :
  o' <> o -> setstate s o v o' = s o'.
Proof.
  intros Hne. unfold setstate.
  destruct (Nat.eqb_spec o' o); [ contradiction | reflexivity ].
Qed.

(** The [finally] clause: every listed learner gets the state it had when
    the snapshot was taken, whatever store the body left behind. *)
Lemma finally_restores (s : store L) (learners : list nat) :
  forall s' : store L,
    let s'' := fold_left (fun st sl => setstate st (snd sl) (fst sl))
                         (combine (map (getstate s) learners) learners) s' in
    (forall o, In o learners -> s'' o = s o)
    /\ (forall o, ~ In o learners -> s'' o = s' o).
Proof.
  induction learners as [ | a r IH]; intros s';
    cbn [map combine fold_left fst snd].
  - split; [ intros o [] | reflexivity ].
  - destruct (IH (setstate s' a (getstate s a))) as [Hin Hout]. split.
    + intros o Ho. destruct (in_dec Nat.eq_dec o r) as [Hr | Hr]; [ auto | ].
      destruct Ho as [E | Ho]; [ subst o | contradiction ].
      rewrite (Hout a Hr). apply setstate_same.
    + intros o Ho. rewrite Hout by (intros Hr; apply Ho; right; exact Hr).
      apply setstate_other. intros E. apply Ho. left. congruence.
Qed.

(** C9. Whatever the body does between the snapshot and the [finally]
    clause, and whether it returns or raises, every learner handed to
    [restore] ends in the state it started from and the outcome of the
    body is passed on; learners that were not handed over keep what the
    body did to them.  In particular after any sequence of [add_point]
    calls every observation of a restored learner (its data, its loss)
    is what it was before. *)
Theorem restore_restores (A : Type) (learners : list nat)
  (body : store L -> store L * result A) (s : store L) :
  snd (restore learners body s) = snd (body s)
  /\ (forall o, In o learners -> fst (restore learners body s) o = s o)
  /\ (forall o, ~ In o learners ->
                fst (restore learners body s) o = fst (body s) o)
  /\ (forall (X Y B : Type) (add_point : L -> X -> option Y -> result L)
             (calls : list ((nat * X) * option Y)) (observe : L -> B) o,
         In o learners ->
         observe (fst (restore learners (add_point_calls add_point calls) s) o)
         = observe (s o)).
Proof.
  split; [ | split; [ | split ] ].
  - unfold restore. destruct (body s) as [s' outcome]. reflexivity.
  - unfold restore. destruct (body s) as [s' outcome]. cbn [fst].
    apply finally_restores.
  - unfold restore. destruct (body s) as [s' outcome]. cbn [fst].
    apply finally_restores.
  - intros X Y B add_point calls observe o Ho. f_equal.
    unfold restore. destruct (add_point_calls add_point calls s) as [s' outcome].
    cbn [fst]. apply finally_restores. exact Ho.
Qed.

End RestoreFacts.

(* ================================================================== *)
(** * Part III. Further properties of the code                         *)
(* ================================================================== *)

(** ** Scalar-average learner: requests and the loss *)

Section DictGetSet.
Context {K V : Type} `{DecEq K}.

Lemma dict_get_set_same (d : dict K V) k v :
  dict_get (dict_set d k v) k = Some v.
Proof.
  induction d as [ | [k0 v0] d IH]; simpl.
  - destruct (dec_eq k k); [ reflexivity | congruence ].
  - destruct (dec_eq k k0) as [E | E]; simpl.
    + destruct (dec_eq k k0); [ reflexivity | contradiction ].
    + destruct (dec_eq k k0); [ contradiction | exact IH ].
Qed.

Lemma dict_get_set_other (d : dict K V) k k' v :
  k' <> k -> dict_get (dict_set d k v) k' = dict_get d k'.
Proof.
  intros Hne. induction d as [ | [k0 v0] d IH]; simpl.
  - destruct (dec_eq k' k); [ contradiction | reflexivity ].
  - destruct (dec_eq k k0) as [E | E]; simpl.
    + subst k0. destruct (dec_eq k' k); [ contradiction | reflexivity ].
    + destruct (dec_eq k' k0); [ reflexivity | exact IH ].
Qed.
End DictGetSet.

Section AverageRequests.
Import AverageLearner.

Lemma add_data_pending_spec pts : forall l,
  exists l',
    add_data_pending add_point_r l pts = Returned l'
    /\ n_requested l' = (n_requested l + length pts)%nat
    /\ n l' = n l /\ sum_f l' = sum_f l /\ sum_f_sq l' = sum_f_sq l
    /\ atol l' = atol l /\ rtol l' = rtol l
    /\ (forall k, In k pts -> dict_get (data l') k = Some None)
    /\ (forall k, ~ In k pts -> dict_get (data l') k = dict_get (data l) k).
Proof.
  unfold add_data_pending.
  induction pts as [ | p pts IH]; intros l.
  - exists l. simpl. repeat split; auto; try tauto.
  - cbn [length repeat add_data]. unfold add_point_r at 1. cbn [bind].
    destruct (IH (add_point l p None))
      as (l' & E & Hr & Hn & Hs & Hq & Ha & Ht & Hin & Hout).
    exists l'. split; [ exact E | ].
    cbn [add_point n_requested n sum_f sum_f_sq atol rtol data] in *.
    repeat split; try congruence.
    + rewrite Hr. lia.
    + intros k Hk. destruct (in_dec Z.eq_dec k pts) as [Hp | Hp]; [ auto | ].
      rewrite (Hout k Hp). destruct Hk as [Ek | Hk]; [ subst k | contradiction ].
      apply dict_get_set_same.
    + intros k Hk. rewrite Hout by (intros Hp; apply Hk; right; exact Hp).
      apply dict_get_set_other. intros Ek. apply Hk. left. congruence.
Qed.

Lemma range_app s a b : range s a ++ range (s + a) b = range s (a + b).
Proof. unfold range. rewrite <- map_app, <- seq_app. reflexivity. Qed.

(** X1. [choose_points(n)] of the scalar-average learner hands out the
    [n] integers that follow the requests made so far.  With [add_data]
    each of them is stored with the pending sentinel (replacing whatever
    the key held), the request counter grows by [n], and the statistics
    of the observed values are untouched; so a second call continues
    where the first one stopped.  Without [add_data] the learner is left
    as it was. *)
Theorem average_choose_points_requests (l : learner) (k m : nat) :
  let pts := range (n_requested l) k in
  choose_points l k false = Returned (pts, repeat None k, l)
  /\ exists l1 l2,
       choose_points l k true = Returned (pts, repeat None k, l1)
       /\ n_requested l1 = (n_requested l + k)%nat
       /\ n l1 = n l /\ sum_f l1 = sum_f l /\ sum_f_sq l1 = sum_f_sq l
       /\ (forall x, In x pts -> dict_get (data l1) x = Some None)
       /\ (forall x, ~ In x pts -> dict_get (data l1) x = dict_get (data l) x)
       /\ choose_points l1 m true
          = Returned (range (n_requested l + k) m, repeat None m, l2)
       /\ pts ++ range (n_requested l + k) m = range (n_requested l) (k + m).
Proof.
  intros pts. split; [ reflexivity | ].
  destruct (add_data_pending_spec pts l)
    as (l1 & E1 & Hr & Hn & Hs & Hq & _ & _ & Hin & Hout).
  destruct (add_data_pending_spec (range (n_requested l1) m) l1)
    as (l2 & E2 & _).
  exists l1, l2. unfold choose_points. fold pts. rewrite E1, E2. cbn [bind].
  assert (Hlen : length pts = k).
  { unfold pts, range. rewrite length_map, length_seq. reflexivity. }
  rewrite Hlen in Hr. rewrite Hr.
  repeat split; auto. apply range_app.
Qed.

End AverageRequests.

(** ** Scalar-average learner on binary64 floats: the expected loss *)

Section AverageRequests64.
Import AverageLearner64.

Lemma sqrt64_of_zero : sqrt64 (float_of_nat 0) = Returned 0%float.
Proof. vm_compute. reflexivity. Qed.

Lemma div64_by_zero (a : float) : div64 a 0%float = Raised ZeroDivisionError.
Proof. reflexivity. Qed.

(** X3. [loss(real=False)] divides the standard deviation by the square
    root of the number of pending requests.  With at least two observed
    values and no request made (values were added without asking for
    points first) it never returns: it raises [ZeroDivisionError] as soon
    as [std] has a value, and what [std] raises otherwise. *)
Theorem average_expected_loss_needs_requests (l : learner) :
  (2 <= n l)%nat -> n_requested l = 0%nat ->
  (forall s, std l = Returned s -> loss l false = Raised ZeroDivisionError)
  /\ (forall e, std l = Raised e -> loss l false = Raised e)
  /\ exists e, loss l false = Raised e.
Proof.
  intros Hn Hr.
  assert (Hs : forall s, std l = Returned s ->
                         loss l false = Raised ZeroDivisionError).
  { intros s Es. unfold loss.
    destruct (Nat.ltb_spec (n l) 2) as [Hlt | _]; [ lia | ].
    rewrite Es, Hr. cbn [bind]. rewrite sqrt64_of_zero. cbn [bind].
    rewrite div64_by_zero. reflexivity. }
  assert (He : forall e, std l = Raised e -> loss l false = Raised e).
  { intros e Ee. unfold loss.
    destruct (Nat.ltb_spec (n l) 2) as [Hlt | _]; [ lia | ].
    rewrite Ee. reflexivity. }
  split; [ exact Hs | ]. split; [ exact He | ].
  destruct (std l) as [s | e] eqn:E.
  - exists ZeroDivisionError. apply (Hs s). reflexivity.
  - exists e. apply He. reflexivity.
Qed.

End AverageRequests64.

(** X3 (witness). The values 1.0 and 3.0, added to a new learner that was
    never asked for a point: [std] is the square root of 2, and the
    expected loss raises. *)
Lemma average_expected_loss_needs_requests_witness :
  AverageLearner64.add_points
    (AverageLearner64.mk [] tenth infinity 0 0 0%float 0%float)
    [(0%Z, Some 1%float); (1%Z, Some 3%float)] = Returned observed_1_3
  /\ AverageLearner64.std observed_1_3
     = Returned (PrimFloat.sqrt 2%float)
  /\ AverageLearner64.loss observed_1_3 false = Raised ZeroDivisionError.
Proof.
  split; [ vm_compute; reflexivity | ].
  split; [ vm_compute; reflexivity | ].
  refine (proj1 (@average_expected_loss_needs_requests observed_1_3 _ _)
            (PrimFloat.sqrt 2%float) _).
  - simpl. lia.
  - reflexivity.
  - vm_compute. reflexivity.
Defined.

(** ** 1-D learner: what a run of calls leaves behind *)

Section Learner1DRuns.
Import Learner1D.

Ltac step_bind :=
  match goal with
  | |- bind ?m _ = Returned _ -> _ =>
      let E := fresh "E" in destruct m eqn:E; cbn [bind]; [ | discriminate ]
  end.

(** X4. After any sequence of [add_point] calls on a new learner the
    points are kept in ascending order, and each neighbour map is the one
    its keys determine: every point is mapped to the point before and the
    point after it ([None] at the two ends).  [neighbors] has the points
    with a real value, [neighbors_combined] those and the pending ones. *)
Theorem neighbors_follow_sorted_points (b : R * R)
  (calls : list (R * option R)) :
  exists st,
    add_points (init b) calls = Returned st
    /\ StronglySorted Rlt (dict_keys (data st))
    /\ neighbors st = canon None (dict_keys (data st)) None
    /\ StronglySorted Rlt (dict_keys (neighbors_combined st))
    /\ neighbors_combined st
       = canon None (dict_keys (neighbors_combined st)) None
    /\ (forall k, In k (dict_keys (neighbors_combined st))
                  <-> In k (dict_keys (data st))
                      \/ In k (dict_keys (data_interp st))).
Proof.
  destruct (@add_points_ok calls (init b) (init_inv b) (init_sound b))
    as (st & E & [Hr Hc] & Hs).
  destruct Hr as (Hrs & Hrc & _). destruct Hc as (Hcs & Hcc & _).
  destruct Hs as (Hk & Hkc & _).
  exists st.
  repeat split; try assumption; try (rewrite <- Hk; assumption); apply Hkc.
Qed.

Lemma py_sqrt_returned x v : py_sqrt x = Returned v -> 0 <= v.
Proof.
  unfold py_sqrt. destruct (Rlt_dec x 0); [ discriminate | ].
  intros E. inversion E. apply sqrt_pos.
Qed.

Lemma interval_loss_nonneg sc a c d v :
  interval_loss sc a c d = Returned v -> 0 <= v.
Proof.
  unfold interval_loss. do 2 step_bind.
  destruct (fl_eqb (snd sc) (Fin 0)).
  - step_bind. apply py_sqrt_returned.
  - do 4 step_bind. apply py_sqrt_returned.
Qed.

Lemma nonneg_set (L : dict (R * R) R) p v :
  nonneg L -> 0 <= v -> nonneg (dict_set L p v).
Proof.
  intros HL Hv. induction L as [ | [k w] L IH]; simpl.
  - constructor; [ exact Hv | constructor ].
  - inversion HL as [ | ? ? Hw HL']; subst.
    destruct (dec_eq p k); constructor;
      solve [ exact Hv | exact Hw | exact HL' | exact (IH HL') ].
Qed.

Lemma nonneg_del (L : dict (R * R) R) p : nonneg L -> nonneg (dict_del L p).
Proof.
  intros HL. induction L as [ | [k w] L IH]; simpl; [ constructor | ].
  inversion HL as [ | ? ? Hw HL']; subst.
  destruct (dec_eq p k); [ exact HL' | ].
  constructor; [ exact Hw | exact (IH HL') ].
Qed.

Lemma update_losses_nonneg sc x d N L L' :
  update_losses sc x d N L = Returned L' -> nonneg L -> nonneg L'.
Proof.
  unfold update_losses. destruct (dict_get N x) as [[lo up] | ]; [ | discriminate ].
  intros E HL.
  assert (H1 : forall L1,
             match lo with
             | Some lo0 => v <- interval_loss sc lo0 x d ;;
                           Returned (dict_set L (lo0, x) v)
             | None => Returned L
             end = Returned L1 -> nonneg L1).
  { intros L1. destruct lo as [lo0 | ].
    - destruct (interval_loss sc lo0 x d) eqn:Ei; cbn [bind]; [ | discriminate ].
      intros E1. inversion E1. apply nonneg_set; [ assumption | ].
      eapply interval_loss_nonneg; eassumption.
    - intros E1. inversion E1; subst. assumption. }
  destruct (match lo with
            | Some lo0 => v <- interval_loss sc lo0 x d ;;
                          Returned (dict_set L (lo0, x) v)
            | None => Returned L
            end) as [L1 | ] eqn:E1; cbn [bind] in E; [ | discriminate ].
  specialize (H1 L1 eq_refl).
  assert (H2 : forall L2,
             match up with
             | Some up0 => v <- interval_loss sc x up0 d ;;
                           Returned (dict_set L1 (x, up0) v)
             | None => Returned L1
             end = Returned L2 -> nonneg L2).
  { intros L2. destruct up as [up0 | ].
    - destruct (interval_loss sc x up0 d) eqn:Ei; cbn [bind]; [ | discriminate ].
      intros E2. inversion E2. apply nonneg_set; [ assumption | ].
      eapply interval_loss_nonneg; eassumption.
    - intros E2. inversion E2; subst. assumption. }
  destruct (match up with
            | Some up0 => v <- interval_loss sc x up0 d ;;
                          Returned (dict_set L1 (x, up0) v)
            | None => Returned L1
            end) as [L2 | ] eqn:E2; cbn [bind] in E; [ | discriminate ].
  specialize (H2 L2 eq_refl).
  inversion E. destruct lo, up; try assumption. apply nonneg_del. assumption.
Qed.

Lemma recompute_nonneg sc d L : forall L',
  recompute sc d L = Returned L' -> nonneg L'.
Proof.
  unfold recompute. induction L as [ | kv L IH]; intros L'; cbn [traverse].
  - intros E. inversion E. constructor.
  - destruct (interval_loss sc (fst (fst kv)) (snd (fst kv)) d) eqn:Ei;
      cbn [bind]; [ | discriminate ].
    destruct (traverse _ L) as [r | ] eqn:Et; cbn [bind]; [ | discriminate ].
    intros E. inversion E. constructor.
    + simpl. eapply interval_loss_nonneg; eassumption.
    + apply IH. reflexivity.
Qed.

Lemma add_point_nonneg st x y st' :
  nonneg (losses st) /\ nonneg (losses_combined st) ->
  add_point st x y = Returned st' ->
  nonneg (losses st') /\ nonneg (losses_combined st').
Proof.
  intros [Hr Hc]. unfold add_point.
  destruct (update_scale (bbox_x st) (bbox_y st) x y) as [[bx byy] sc].
  destruct y as [v | ].
  - destruct (update_losses sc x _ _ (losses_combined st)) as [lc | ] eqn:Elc;
      cbn [bind]; [ | discriminate ].
    destruct (update_losses sc x _ _ (losses st)) as [lr | ] eqn:Elr;
      cbn [bind]; [ | discriminate ].
    assert (Hc' : nonneg lc) by (eapply update_losses_nonneg; eassumption).
    assert (Hr' : nonneg lr) by (eapply update_losses_nonneg; eassumption).
    destruct (list_gtb _ _).
    + destruct (recompute sc _ lr) as [lr' | ] eqn:Er; cbn [bind]; [ | discriminate ].
      destruct (recompute sc _ lc) as [lc' | ] eqn:Ec; cbn [bind]; [ | discriminate ].
      intros E; inversion E; subst; clear E. split; simpl.
      * eapply recompute_nonneg; eassumption.
      * eapply recompute_nonneg; eassumption.
    + intros E; inversion E; subst; clear E. split; assumption.
  - destruct (update_losses sc x _ _ (losses_combined st)) as [lc | ] eqn:Elc;
      cbn [bind]; [ | discriminate ].
    assert (Hc' : nonneg lc) by (eapply update_losses_nonneg; eassumption).
    intros E; inversion E; subst; clear E. split; assumption.
Qed.

Lemma init_steady b : steady (init b).
Proof.
  split; [ apply init_inv | ]. split; [ apply init_sound | ].
  split; constructor.
Qed.

Lemma add_point_steady st x y :
  steady st -> exists st', add_point st x y = Returned st' /\ steady st'.
Proof.
  intros (Hi & Hs & Hn).
  destruct (@add_point_ok st x y Hi Hs) as (st' & E & Hs').
  exists st'. split; [ exact E | ]. split; [ | split ].
  - eapply add_point_inv; eassumption.
  - exact Hs'.
  - eapply add_point_nonneg; eassumption.
Qed.

Lemma add_points_steady calls : forall st,
  steady st -> exists st', add_points st calls = Returned st' /\ steady st'.
Proof.
  induction calls as [ | [x y] cs IH]; intros st Hst; simpl.
  - eauto.
  - destruct (add_point_steady x y Hst) as (st1 & E1 & H1).
    rewrite E1. cbn [bind]. apply IH. exact H1.
Qed.

Lemma remove_unfinished_steady st : steady st -> steady (remove_unfinished st).
Proof.
  intros ([Hr Hc] & (Hk & Hkc & Hnum & Hbox) & Hnr & Hnc).
  unfold steady, inv, sound, remove_unfinished. simpl.
  split; [ split; exact Hr | ].
  split; [ | split; exact Hnr ].
  split; [ exact Hk | ]. split; [ | split; [ constructor | ] ].
  - intros k. rewrite Hk. tauto.
  - intros k Hin. apply Hbox. apply Hkc. left. rewrite <- Hk. exact Hin.
Qed.

Lemma run_calls_steady cs : forall st,
  steady st -> exists st', run_calls st cs = Returned st' /\ steady st'.
Proof.
  induction cs as [ | [x y | ] cs IH]; intros st Hst; cbn [run_calls].
  - eauto.
  - destruct (add_point_steady x y Hst) as (st1 & E1 & H1).
    rewrite E1. cbn [bind]. apply IH. exact H1.
  - apply IH. apply remove_unfinished_steady. exact Hst.
Qed.

Lemma adj_short (ks : list R) : (length ks < 2)%nat -> adj ks = [].
Proof.
  destruct ks as [ | k [ | k' r]]; simpl; intros; try reflexivity; lia.
Qed.

Lemma adj_long (ks : list R) : (2 <= length ks)%nat -> adj ks <> [].
Proof.
  destruct ks as [ | k [ | k' r]]; simpl; intros; try lia; discriminate.
Qed.

Lemma loss_of_linked N (L : dict (R * R) R) :
  linked N L -> nonneg L ->
  ((length (dict_keys N) < 2)%nat -> L = [])
  /\ ((2 <= length (dict_keys N))%nat ->
      exists m p,
        py_max (dict_values L) = Returned m /\ L <> []
        /\ 0 <= m /\ In (p, m) L /\ In p (adj (dict_keys N))
        /\ forall q v, In (q, v) L -> v <= m).
Proof.
  intros (_ & _ & _ & HL) Hn. split.
  - intros Hlen. destruct L as [ | [p v] L]; [ reflexivity | exfalso ].
    assert (Hin : In p (adj (dict_keys N))) by (apply HL; left; reflexivity).
    rewrite (adj_short _ Hlen) in Hin. exact Hin.
  - intros Hlen.
    destruct (adj (dict_keys N)) as [ | p0 r] eqn:Ea;
      [ exfalso; exact (adj_long _ Hlen Ea) | ].
    assert (Hp0 : In p0 (dict_keys L)) by (apply HL; left; reflexivity).
    destruct L as [ | kv L]; [ contradiction | ].
    destruct (py_max (dict_values (kv :: L))) as [m | e] eqn:Em;
      [ | discriminate ].
    destruct (py_max_spec _ Em) as [Hin Hall].
    apply in_map_iff in Hin. destruct Hin as ([p v] & Ev & Hin).
    simpl in Ev. subst v.
    exists m, p. split; [ reflexivity | ]. split; [ discriminate | ].
    split; [ | split; [ exact Hin | split ] ].
    + unfold nonneg in Hn. rewrite Forall_forall in Hn. apply (Hn _ Hin).
    + apply HL. apply in_map_iff. exists (p, m). auto.
    + intros q v Hq. apply Hall. apply in_map_iff. exists (q, v). auto.
Qed.

(** X5. The loss of the 1-D learner never raises on a learner that was
    reached by [add_point] calls.  It is +infinity as long as fewer than
    two points are known (real points for [real=True], real and pending
    points otherwise); from two points on it is the largest loss stored
    for an interval between two adjacent points, which is not negative. *)
Theorem learner1d_loss_largest_interval (b : R * R)
  (calls : list (R * option R)) (real : bool) :
  exists st,
    add_points (init b) calls = Returned st
    /\ let N := if real then neighbors st else neighbors_combined st in
       let L := if real then losses st else losses_combined st in
       ((length (dict_keys N) < 2)%nat -> loss st real = Returned PInf)
       /\ ((2 <= length (dict_keys N))%nat ->
           exists m p,
             loss st real = Returned (Fin m)
             /\ 0 <= m /\ In (p, m) L /\ In p (adj (dict_keys N))
             /\ forall q v, In (q, v) L -> v <= m).
Proof.
  destruct (add_points_steady calls (init_steady b))
    as (st & E & [Hr Hc] & _ & Hnr & Hnc).
  exists st. split; [ exact E | ].
  assert (H : linked (if real then neighbors st else neighbors_combined st)
                     (if real then losses st else losses_combined st)
              /\ nonneg (if real then losses st else losses_combined st))
    by (destruct real; split; assumption).
  destruct H as [Hl Hn]. cbv zeta.
  destruct (loss_of_linked Hl Hn) as [Hshort Hlong].
  unfold loss. split.
  - intros Hlen. rewrite (Hshort Hlen). reflexivity.
  - intros Hlen. destruct (Hlong Hlen) as (m & p & Em & Hne & H0 & Hin & Hadj & Hall).
    exists m, p.
    destruct (if real then losses st else losses_combined st) as [ | kv L];
      [ congruence | ].
    rewrite Em. cbn [bind]. auto.
Qed.

(** X6. [add_point] and [remove_unfinished] calls, in any order, on a new
    learner: none of them raises, and both loss maps stay keyed by the
    adjacent pairs of their neighbour maps.  When the last call is
    [remove_unfinished], no pending point is left and the loss with the
    pending points is the loss of the real points. *)
Theorem learner1d_calls_never_raise (b : R * R) (cs : list call1d) :
  exists st,
    run_calls (init b) cs = Returned st
    /\ keyed (neighbors st) (losses st)
    /\ keyed (neighbors_combined st) (losses_combined st)
    /\ (forall cs', cs = cs' ++ [RemoveUnfinished] ->
        data_interp st = []
        /\ neighbors_combined st = neighbors st
        /\ loss st false = loss st true).
Proof.
  destruct (run_calls_steady cs (init_steady b)) as (st & E & [Hr Hc] & _).
  exists st. split; [ exact E | ].
  split; [ apply linked_keyed; exact Hr | ].
  split; [ apply linked_keyed; exact Hc | ].
  intros cs' Ecs. subst cs.
  assert (Hlast : forall l st0,
             run_calls l (cs' ++ [RemoveUnfinished]) = Returned st0 ->
             exists l', st0 = remove_unfinished l').
  { clear. induction cs' as [ | [x y | ] cs' IH]; intros l st0; cbn [app run_calls].
    - intros E. inversion E. eauto.
    - destruct (add_point l x y); cbn [bind]; [ apply IH | discriminate ].
    - apply IH. }
  destruct (Hlast _ _ E) as (l' & El'). subst st.
  unfold remove_unfinished, loss. simpl. auto.
Qed.

End Learner1DRuns.

Section Learner1DChoices.
Import Learner1D.

Lemma linspace_length a c n : length (linspace a c n) = n.
Proof. unfold linspace. rewrite length_map, length_seq. reflexivity. Qed.

Lemma linspace_nth a c n i :
  (i < n)%nat ->
  nth i (linspace a c n) 0 = a + INR i * ((c - a) / INR (n - 1)).
Proof.
  intros Hi. unfold linspace.
  set (f := fun i : nat => a + INR i * ((c - a) / INR (n - 1))).
  rewrite (nth_indep _ 0 (f 0%nat))
    by (rewrite length_map, length_seq; exact Hi).
  rewrite map_nth, seq_nth by exact Hi. reflexivity.
Qed.

Lemma missing_bounds_short l : (length (missing_bounds l) <= 2)%nat.
Proof.
  unfold missing_bounds. simpl.
  repeat match goal with |- context [if ?c then _ else _] => destruct c end;
    simpl; lia.
Qed.

(** X7. While a declared bound is neither in [data] nor pending,
    [choose_points(n)] proposes the bounds, adds nothing to the learner
    and returns [n] infinite loss improvements.  For [n <= 2] the points
    are the first [n] missing bounds: when only one bound is missing and
    two points are asked for, one point comes back.  For [n > 2] the
    points are [n] equally spaced abscissas from the lower to the upper
    bound, both included, also when one of them is already known. *)
Theorem choose_points_before_bounds (l : learner) (n : nat) (add : bool) :
  (1 <= n)%nat -> missing_bounds l <> [] ->
  exists xs,
    choose_points l n add = Returned (Chosen xs (repeat PInf n), l)
    /\ ((n <= 2)%nat ->
        xs = firstn n (missing_bounds l)
        /\ length xs = Nat.min n (length (missing_bounds l)))
    /\ ((2 < n)%nat ->
        length xs = n
        /\ nth 0 xs 0 = fst (bounds l)
        /\ nth (n - 1) xs 0 = snd (bounds l)
        /\ forall i, (i < n)%nat ->
             nth i xs 0
             = fst (bounds l)
               + INR i * ((snd (bounds l) - fst (bounds l)) / INR (n - 1))).
Proof.
  intros Hn Hm. unfold choose_points. destruct n as [ | n]; [ lia | ].
  destruct (missing_bounds l) as [ | x xs] eqn:Em; [ congruence | ].
  destruct (Nat.leb_spec (S n) 2) as [Hle | Hgt].
  - eexists. split; [ reflexivity | ]. split; [ | intros; lia ].
    intros _. split; [ reflexivity | ]. apply length_firstn.
  - eexists. split; [ reflexivity | ]. split; [ intros; lia | ].
    intros _. split; [ apply linspace_length | ].
    assert (Hpos : INR (S n - 1) <> 0).
    { apply not_0_INR. lia. }
    split; [ | split ].
    + rewrite linspace_nth by lia. simpl. lra.
    + rewrite linspace_nth by lia. field. exact Hpos.
    + intros i Hi. apply linspace_nth. exact Hi.
Qed.

(** X7 (witness). The lower bound of (0, 1) is known, the upper one is
    missing: two points are asked for and one comes back. *)
Lemma choose_points_before_bounds_witness :
  exists xs,
    choose_points run1 2 false = Returned (Chosen xs (repeat PInf 2), run1)
    /\ length xs = 1%nat.
Proof.
  assert (Hm : missing_bounds run1 = [1]).
  { unfold missing_bounds, run1.
    cbv [bounds data data_interp fst snd filter dict_mem dict_get dec_eq
         DecEq_R negb andb].
    repeat (rstep; cbv beta iota). reflexivity. }
  assert (Hne : missing_bounds run1 <> []) by (rewrite Hm; discriminate).
  destruct (@choose_points_before_bounds run1 2 false (le_S _ _ (le_n 1)) Hne)
    as (xs & E & Hsmall & _).
  exists xs. split; [ exact E | ].
  destruct (Hsmall (le_n 2)) as [_ Hl]. rewrite Hl, Hm. reflexivity.
Defined.

(** *** The allocation of [choose_points] *)

Lemma allocate_ranges n : forall quals quals',
  allocate n quals = Returned quals' ->
  Permutation (map range_of quals') (map range_of quals).
Proof.
  induction n as [ | n IH]; intros quals quals'; cbn [allocate].
  - intros E. inversion E. apply Permutation_refl.
  - destruct quals as [ | [[quality x] k] h]; [ discriminate | ].
    intros E. apply IH in E.
    eapply Permutation_trans; [ exact E | ].
    eapply Permutation_trans;
      [ apply Permutation_map; apply heapreplace_perm | ].
    apply Permutation_refl.
Qed.

Lemma returned_inj {A} (a b : A) : Returned a = Returned b -> a = b.
Proof. intros E. congruence. Qed.

Lemma points_formula a c k pts :
  points (a, c) k = Returned pts ->
  forall x, In x pts ->
    exists i, (1 <= i < k)%nat /\ x = a + (c - a) / INR k * INR i.
Proof.
  unfold points. destruct k as [ | [ | k]].
  - discriminate.
  - intros E. inversion E. intros x [].
  - intros E. cbn [fst snd] in E. apply returned_inj in E. subst pts.
    intros x Hx.
    apply in_map_iff in Hx. destruct Hx as (i & Ex & Hi).
    apply in_seq in Hi. exists i. split; [ lia | ].
    symmetry. exact Ex.
Qed.

Lemma traverse_in {A B} (f : A -> result B) l : forall l' y,
  traverse f l = Returned l' -> In y l' ->
  exists a, In a l /\ f a = Returned y.
Proof.
  induction l as [ | a l IH]; intros l' y; cbn [traverse].
  - intros E. inversion E. intros [].
  - destruct (f a) as [v | ] eqn:Ef; cbn [bind]; [ | discriminate ].
    destruct (traverse f l) as [r | ] eqn:Et; cbn [bind]; [ | discriminate ].
    intros E. inversion E. subst l'. intros [Ey | Hy].
    + subst v. exists a. split; [ left; reflexivity | exact Ef ].
    + destruct (IH r y eq_refl Hy) as (a' & Ha & Ea).
      exists a'. split; [ right; exact Ha | exact Ea ].
Qed.

Lemma chosen_points_formula (l : learner) n xs li l' :
  n <> 0%nat -> missing_bounds l = [] ->
  choose_points l n false = Returned (Chosen xs li, l') ->
  forall x, In x xs ->
    exists a c k i,
      In (a, c) (dict_keys (losses_combined l))
      /\ (1 <= i < k)%nat
      /\ x = a + (c - a) / INR k * INR i.
Proof.
  intros Hn Hm. unfold choose_points. destruct n as [ | n]; [ congruence | ].
  rewrite Hm.
  set (q0 := map (fun kv : R * R * R => (- snd kv, fst kv, 1%nat))
                 (losses_combined l)).
  destruct (allocate (S n) (heapify qual_ltb q0)) as [quals' | ] eqn:Ea;
    cbn [bind]; [ | discriminate ].
  destruct (traverse _ quals') as [xss | ] eqn:Et; cbn [bind]; [ | discriminate ].
  intros E. inversion E. subst xs l'. clear E. intros x Hx.
  apply in_concat in Hx. destruct Hx as (pts & Hpts & Hx).
  destruct (traverse_in _ _ _ Et Hpts) as (q & Hq & Eq).
  assert (Hrange : In (range_of q) (dict_keys (losses_combined l))).
  { assert (Hq1 : In (range_of q) (map range_of quals'))
      by (apply in_map; exact Hq).
    apply (Permutation_in _ (@allocate_ranges _ _ _ Ea)) in Hq1.
    apply (Permutation_in _ (Permutation_map range_of (heapify_perm qual_ltb q0)))
      in Hq1.
    unfold q0 in Hq1. rewrite map_map in Hq1. exact Hq1. }
  destruct q as [[quality [a c]] k]. cbn [range_of fst snd] in *.
  destruct (@points_formula a c k pts Eq x Hx) as (i & Hi & Ex).
  exists a, c, k, i. split; [ exact Hrange | ]. split; [ exact Hi | exact Ex ].
Qed.

(** X8. Once both bounds carry real values, [choose_points(n,
    add_data=False)] leaves the learner as it is and returns [n] points.
    Each of them divides an interval between two adjacent points of the
    learner (real or pending) into equal parts: it is the left end plus
    [i] steps of one [k]-th of the interval, for some [1 <= i < k].  The
    list of loss improvements has one entry per subdivision, [n] plus the
    number of intervals, not one per point.  The points are read over
    exact reals: the sum that gives a point is rounded on floats. *)
Theorem choose_points_subdivides (b : R * R) (calls : list (R * option R))
  (st : learner) (n : nat) :
  fst b <> snd b ->
  add_points (init b) calls = Returned st ->
  dict_mem (data st) (fst b) = true -> dict_mem (data st) (snd b) = true ->
  (1 <= n)%nat ->
  exists xs li,
    choose_points st n false = Returned (Chosen xs li, st)
    /\ length xs = n
    /\ length li = (n + length (losses_combined st))%nat
    /\ forall x, In x xs ->
         exists a c k i,
           In (a, c) (adj (dict_keys (neighbors_combined st)))
           /\ (1 <= i < k)%nat
           /\ x = a + (c - a) / INR k * INR i.
Proof.
  intros Hne Hrun H0 H1 Hn.
  destruct (@reachable_choose_points b calls st n Hne Hrun H0 H1 Hn)
    as (xs & li & E & Hx & Hli).
  exists xs, li. split; [ exact E | ]. split; [ exact Hx | ].
  split; [ exact Hli | ].
  destruct (@add_points_ok calls (init b) (init_inv b) (init_sound b))
    as (st' & E' & [_ Hc] & _).
  rewrite Hrun in E'. inversion E'; subst st'. clear E'.
  destruct Hc as (Hs & _ & _ & HL).
  pose proof (add_points_bounds _ _ Hrun) as Hb. simpl in Hb.
  assert (Hm : missing_bounds st = []).
  { unfold missing_bounds. rewrite Hb. simpl. rewrite H0, H1. reflexivity. }
  intros x Hin.
  destruct (@chosen_points_formula st n xs li st ltac:(lia) Hm E x Hin)
    as (a & c & k & i & Hk & Hi & Ex).
  apply HL in Hk. exists a, c, k, i.
  split; [ exact Hk | ]. split; [ exact Hi | exact Ex ].
Qed.

(** X8 (witness). With 0 and 1 observed at the bounds of (0, 1), a dry
    run for three points: three points and four loss improvements. *)
Lemma choose_points_subdivides_witness :
  exists xs li,
    choose_points run2 3 false = Returned (Chosen xs li, run2)
    /\ length xs = 3%nat
    /\ length li = 4%nat.
Proof.
  destruct (@choose_points_subdivides (0, 1) [(0, Some 0); (1, Some 1)]
              run2 3%nat) as (xs & li & E & Hx & Hli & _).
  - simpl. lra.
  - change (Learner1D.init (0, 1)) with run0.
    cbn [Learner1D.add_points]. rewrite run_step1. cbn [bind].
    rewrite run_step2. reflexivity.
  - apply dict_mem_In. simpl. auto.
  - apply dict_mem_In. simpl. auto.
  - lia.
  - exists xs, li. split; [ exact E | ]. split; [ exact Hx | exact Hli ].
Defined.

(** *** The bounding box *)

Lemma fold_min_spec l : forall x,
  let m := fold_left py_min2 l x in
  (m = x \/ In m l) /\ m <= x /\ (forall v, In v l -> m <= v).
Proof.
  induction l as [ | y l IH]; intros x; simpl.
  - split; [ auto | split; [ lra | tauto ] ].
  - destruct (IH (py_min2 x y)) as (Hin & Hle & Hall).
    assert (Hxy : py_min2 x y <= x /\ py_min2 x y <= y
                  /\ (py_min2 x y = x \/ py_min2 x y = y)).
    { unfold py_min2. destruct (Rlt_dec y x); lra. }
    destruct Hxy as (Hx & Hy & Hc). split; [ | split ].
    + destruct Hin as [E | Hin]; [ | auto ].
      destruct Hc as [E' | E']; [ left | right; left ]; congruence.
    + lra.
    + intros v [E | Hv]; [ subst; lra | auto ].
Qed.

Lemma add_point_box st x y st' :
  add_point st x y = Returned st' ->
  bbox_x st' = (py_min2 (fst (bbox_x st)) x, py_max2 (snd (bbox_x st)) x)
  /\ bbox_y st' = match y with
                  | Some v => widen (bbox_y st) v
                  | None => bbox_y st
                  end
  /\ scale st' = ((snd (bbox_x st') - fst (bbox_x st'))%R,
                  match bbox_y st' with
                  | None => NInf
                  | Some (lo, hi) => Fin (hi - lo)
                  end).
Proof.
  unfold add_point, update_scale, widen.
  destruct y as [v | ]; cbv zeta; cbn [fst snd].
  - destruct (update_losses _ x _ _ (losses_combined st)); cbn [bind];
      [ | discriminate ].
    destruct (update_losses _ x _ _ (losses st)); cbn [bind]; [ | discriminate ].
    destruct (list_gtb _ _).
    + destruct (recompute _ _ _); cbn [bind]; [ | discriminate ].
      destruct (recompute _ _ _); cbn [bind]; [ | discriminate ].
      intros E; inversion E; subst; clear E. cbn [bbox_x bbox_y scale fst snd].
      destruct (bbox_y st) as [[lo hi] | ]; auto.
    + intros E; inversion E; subst; clear E. cbn [bbox_x bbox_y scale fst snd].
      destruct (bbox_y st) as [[lo hi] | ]; auto.
  - destruct (update_losses _ x _ _ (losses_combined st)); cbn [bind];
      [ | discriminate ].
    intros E; inversion E; subst; clear E. cbn [bbox_x bbox_y scale fst snd].
    auto.
Qed.

Lemma add_points_box calls : forall st st',
  add_points st calls = Returned st' ->
  bbox_x st' = (fold_left py_min2 (map fst calls) (fst (bbox_x st)),
                fold_left py_max2 (map fst calls) (snd (bbox_x st)))
  /\ bbox_y st' = fold_left widen (observed1d calls) (bbox_y st)
  /\ (calls <> [] ->
      scale st' = ((snd (bbox_x st') - fst (bbox_x st'))%R,
                   match bbox_y st' with
                   | None => NInf
                   | Some (lo, hi) => Fin (hi - lo)
                   end)).
Proof.
  induction calls as [ | [x y] cs IH]; intros st st'; cbn [add_points].
  - intros E. inversion E. subst. simpl. split; [ | split ].
    + destruct (bbox_x st'); reflexivity.
    + reflexivity.
    + congruence.
  - destruct (add_point st x y) as [st1 | ] eqn:E1; cbn [bind]; [ | discriminate ].
    intros E. destruct (add_point_box _ _ _ E1) as (Bx & By & Sc).
    destruct (IH _ _ E) as (IHx & IHy & IHs).
    split; [ | split ].
    + rewrite IHx, Bx. reflexivity.
    + rewrite IHy, By. destruct y; reflexivity.
    + intros _. destruct cs as [ | c cs'].
      * cbn [add_points] in E. inversion E. subst st'. exact Sc.
      * apply IHs. discriminate.
Qed.

Lemma widen_spec ys : forall lo hi,
  lo <= hi ->
  exists lo' hi',
    fold_left widen ys (Some (lo, hi)) = Some (lo', hi')
    /\ lo' = fold_left py_min2 ys lo /\ hi' = fold_left py_max2 ys hi.
Proof.
  induction ys as [ | y ys IH]; intros lo hi Hle; simpl.
  - eauto.
  - apply IH. unfold py_min2, py_max2.
    destruct (Rlt_dec y lo), (Rlt_dec hi y); lra.
Qed.

(** X9. The bounding box of a 1-D learner after any sequence of
    [add_point] calls.  Its x-range starts from the declared bounds and is
    stretched by every point added, pending ones included: it runs from
    the smallest to the largest of them.  Its y-range is unset until a
    real value arrives and then runs from the smallest to the largest
    real value.  After the first call the scale is the width of the two
    ranges, with minus infinity for an unset y-range. *)
Theorem learner1d_bounding_box (b : R * R) (calls : list (R * option R)) :
  exists st,
    add_points (init b) calls = Returned st
    /\ (let xs := map fst calls in
        (In (fst (bbox_x st)) (fst b :: xs)
         /\ forall x, In x (fst b :: xs) -> fst (bbox_x st) <= x)
        /\ (In (snd (bbox_x st)) (snd b :: xs)
            /\ forall x, In x (snd b :: xs) -> x <= snd (bbox_x st)))
    /\ (let ys := observed1d calls in
        (ys = [] -> bbox_y st = None)
        /\ (ys <> [] ->
            exists lo hi,
              bbox_y st = Some (lo, hi)
              /\ In lo ys /\ In hi ys
              /\ forall y, In y ys -> lo <= y <= hi))
    /\ (calls <> [] ->
        scale st = ((snd (bbox_x st) - fst (bbox_x st))%R,
                    match bbox_y st with
                    | None => NInf
                    | Some (lo, hi) => Fin (hi - lo)
                    end)).
Proof.
  destruct (@add_points_ok calls (init b) (init_inv b) (init_sound b))
    as (st & E & _).
  exists st. split; [ exact E | ].
  destruct (add_points_box _ _ E) as (Bx & By & Sc). cbn [init bbox_x bbox_y] in *.
  split; [ | split; [ | exact Sc ] ].
  - cbv zeta. rewrite Bx. cbn [fst snd].
    destruct (fold_min_spec (map fst calls) (fst b)) as (H1 & H2 & H3).
    destruct (fold_max_spec (map fst calls) (snd b)) as (H4 & H5 & H6).
    cbv zeta in *. repeat split.
    + destruct H1 as [H1 | H1]; [ left; symmetry; exact H1 | right; exact H1 ].
    + intros x [Ex | Hx]; [ subst x; exact H2 | apply H3; exact Hx ].
    + destruct H4 as [H4 | H4]; [ left; symmetry; exact H4 | right; exact H4 ].
    + intros x [Ex | Hx]; [ subst x; exact H5 | apply H6; exact Hx ].
  - cbv zeta. rewrite By. split.
    + intros Ey. rewrite Ey. reflexivity.
    + intros Hy. destruct (observed1d calls) as [ | y ys]; [ congruence | ].
      cbn [fold_left widen].
      destruct (@widen_spec ys y y (Rle_refl y)) as (lo & hi & Ew & Elo & Ehi).
      exists lo, hi. split; [ exact Ew | ].
      destruct (fold_min_spec ys y) as (H1 & H2 & H3).
      destruct (fold_max_spec ys y) as (H4 & H5 & H6).
      cbv zeta in *. rewrite <- Elo in *. rewrite <- Ehi in *.
      repeat split.
      * destruct H1 as [H1 | H1]; [ left; symmetry; exact H1 | right; exact H1 ].
      * destruct H4 as [H4 | H4]; [ left; symmetry; exact H4 | right; exact H4 ].
      * destruct H as [Ev | Hv]; [ subst; exact H2 | apply H3; exact Hv ].
      * destruct H as [Ev | Hv]; [ subst; exact H5 | apply H6; exact Hv ].
Qed.

(** *** Interpolated values of pending points *)

Lemma sorted_before (ks : list R) : forall rest k r,
  StronglySorted Rlt (ks ++ rest) -> In k ks -> In r rest -> k < r.
Proof.
  induction ks as [ | k0 ks IH]; intros rest k r Hs Hk Hr; [ destruct Hk | ].
  cbn [app] in Hs. inversion Hs as [ | ? ? Hrest Hlt]. subst.
  rewrite Forall_forall in Hlt. destruct Hk as [E | Hk].
  - subst k0. apply Hlt. apply in_or_app. right. exact Hr.
  - eapply IH; eassumption.
Qed.

(** The first abscissa of a sorted list that goes on with [a]. *)
Lemma head_before (pre : list (R * R)) a ya rest x1 y1 rest' :
  StronglySorted Rlt (dict_keys (pre ++ (a, ya) :: rest)) ->
  pre ++ (a, ya) :: rest = (x1, y1) :: rest' -> x1 <= a.
Proof.
  intros Hs E. destruct pre as [ | p pre'].
  - cbn [app] in E. inversion E. lra.
  - cbn [app] in E. inversion E. subst p.
    unfold dict_keys in Hs. rewrite map_app in Hs. apply Rlt_le.
    apply (@sorted_before _ _ x1 a Hs).
    + left. reflexivity.
    + left. reflexivity.
Qed.

Lemma np_interp_right (pre : list (R * R)) : forall x c yc,
  StronglySorted Rlt (dict_keys (pre ++ [(c, yc)])) -> c <= x ->
  np_interp x (pre ++ [(c, yc)]) = yc.
Proof.
  induction pre as [ | [x0 y0] pre IH]; intros x c yc Hs Hx.
  - cbn [app np_interp]. destruct (Rle_dec x c); reflexivity.
  - pose proof Hs as Hs0.
    cbn [app dict_keys map fst] in Hs. inversion Hs as [ | ? ? Hrest Hlt]. subst.
    rewrite Forall_forall in Hlt.
    assert (H0 : x0 < c).
    { apply Hlt. apply in_map_iff. exists (c, yc). split; [ reflexivity | ].
      apply in_or_app. right. left. reflexivity. }
    cbn [app np_interp]. destruct (Rle_dec x x0); [ lra | ].
    destruct (pre ++ [(c, yc)]) as [ | [x1 y1] rest'] eqn:E.
    { destruct pre; discriminate. }
    assert (H1 : x1 <= c).
    { apply (@head_before pre c yc [] x1 y1 rest'); [ | exact E ].
      rewrite E. exact Hrest. }
    destruct (Rlt_dec x x1); [ lra | ].
    rewrite <- E. apply IH; [ rewrite E; exact Hrest | exact Hx ].
Qed.

Lemma np_interp_between (pre : list (R * R)) : forall x a ya c yc post,
  StronglySorted Rlt (dict_keys (pre ++ (a, ya) :: (c, yc) :: post)) ->
  a <= x < c ->
  np_interp x (pre ++ (a, ya) :: (c, yc) :: post)
  = (yc - ya) / (c - a) * (x - a) + ya.
Proof.
  induction pre as [ | [x0 y0] pre IH]; intros x a ya c yc post Hs Hx.
  - cbn [app np_interp]. destruct (Rle_dec x a) as [Hle | Hgt].
    + assert (E : x = a) by lra. rewrite E. lra.
    + destruct (Rlt_dec x c); [ reflexivity | lra ].
  - cbn [app dict_keys map fst] in Hs. inversion Hs as [ | ? ? Hrest Hlt]. subst.
    rewrite Forall_forall in Hlt.
    assert (H0 : x0 < a).
    { apply Hlt. apply in_map_iff. exists (a, ya). split; [ reflexivity | ].
      apply in_or_app. right. left. reflexivity. }
    cbn [app np_interp]. destruct (Rle_dec x x0); [ lra | ].
    destruct (pre ++ (a, ya) :: (c, yc) :: post) as [ | [x1 y1] rest'] eqn:E.
    { destruct pre; discriminate. }
    assert (H1 : x1 <= a).
    { apply (@head_before pre a ya ((c, yc) :: post) x1 y1 rest'); [ | exact E ].
      rewrite E. exact Hrest. }
    destruct (Rlt_dec x x1); [ lra | ].
    rewrite <- E. apply IH; [ rewrite E; exact Hrest | exact Hx ].
Qed.

Lemma np_interp_node (d : list (R * R)) : forall x y,
  StronglySorted Rlt (dict_keys d) -> In (x, y) d -> np_interp x d = y.
Proof.
  induction d as [ | [x0 y0] rest IH]; intros x y Hs Hin; [ destruct Hin | ].
  cbn [dict_keys map fst] in Hs. inversion Hs as [ | ? ? Hrest Hlt]. subst.
  rewrite Forall_forall in Hlt.
  cbn [np_interp]. destruct Hin as [E | Hin].
  - inversion E; subst. destruct (Rle_dec x x); [ reflexivity | lra ].
  - assert (Hx0 : x0 < x).
    { apply Hlt. apply in_map_iff. exists (x, y). auto. }
    destruct (Rle_dec x x0); [ lra | ].
    destruct rest as [ | [x1 y1] rest']; [ destruct Hin | ].
    destruct (Rlt_dec x x1) as [Hx1 | Hx1].
    + exfalso. destruct Hin as [E | Hin].
      * inversion E; subst. lra.
      * cbn [map fst] in Hrest. inversion Hrest as [ | ? ? _ Hlt1]. subst.
        rewrite Forall_forall in Hlt1.
        assert (x1 < x) by (apply Hlt1; apply in_map_iff; exists (x, y); auto).
        lra.
    + apply IH; [ exact Hrest | exact Hin ].
Qed.

Lemma add_points_split c1 : forall c2 st,
  add_points st (c1 ++ c2)
  = (st1 <- add_points st c1 ;; add_points st1 c2).
Proof.
  induction c1 as [ | [x y] c1 IH]; intros c2 st; cbn [app add_points bind].
  - reflexivity.
  - destruct (add_point st x y); cbn [bind]; [ apply IH | reflexivity ].
Qed.

Lemma add_pending_interp st x st' :
  add_point st x None = Returned st' ->
  data st' = data st
  /\ data_interp st' = interpolate (data st) (dict_set (data_interp st) x None).
Proof.
  unfold add_point.
  destruct (update_scale (bbox_x st) (bbox_y st) x None) as [[bx byy] sc].
  destruct (update_losses _ _ _ _ _); cbn [bind]; [ | discriminate ].
  intros E. inversion E. auto.
Qed.

(** X10. Right after a point was added as pending, every pending point
    has an estimate.  It is zero when the learner has no real value yet.
    Otherwise it is the piecewise linear interpolation of the real
    values, which are kept in ascending order of their abscissas: the
    first real value at or before the first abscissa, the last one at or
    after the last, and between two adjacent abscissas [a] and [c] the
    value at [a] plus the slope times the distance from [a]; at a point
    that also has a real value it is that value. *)
Theorem pending_values_interpolate (b : R * R)
  (calls : list (R * option R)) (x : R) :
  exists st,
    add_points (init b) (calls ++ [(x, None)]) = Returned st
    /\ In x (dict_keys (data_interp st))
    /\ StronglySorted Rlt (dict_keys (data st))
    /\ forall k v, In (k, v) (data_interp st) ->
         exists r,
           v = Some r
           /\ (data st = [] -> r = 0)
           /\ (forall a ya rest, data st = (a, ya) :: rest -> k <= a -> r = ya)
           /\ (forall pre c yc, data st = pre ++ [(c, yc)] -> c <= k -> r = yc)
           /\ (forall pre a ya c yc post,
                 data st = pre ++ (a, ya) :: (c, yc) :: post ->
                 a <= k < c ->
                 r = (yc - ya) / (c - a) * (k - a) + ya)
           /\ (forall y, In (k, y) (data st) -> r = y).
Proof.
  destruct (@add_points_ok (calls ++ [(x, None)]) (init b)
              (init_inv b) (init_sound b)) as (st & E & [Hr _] & (Hk & _)).
  exists st. split; [ exact E | ].
  rewrite add_points_split in E.
  destruct (add_points (init b) calls) as [st0 | ]; cbn [bind] in E;
    [ | discriminate ].
  cbn [add_points] in E.
  destruct (add_point st0 x None) as [st1 | ] eqn:E1; cbn [bind] in E;
    [ | discriminate ].
  inversion E; subst st1. clear E.
  destruct (add_pending_interp _ _ E1) as (Ed & Ei).
  assert (Hs : StronglySorted Rlt (dict_keys (data st))).
  { rewrite <- Hk. apply Hr. }
  rewrite Ei. split; [ | split; [ exact Hs | ] ].
  - rewrite interpolate_keys. apply dict_set_keys_in. left. reflexivity.
  - intros k v Hin. unfold interpolate in Hin. apply in_map_iff in Hin.
    destruct Hin as (kv & Ekv & _). inversion Ekv; subst k v. clear Ekv.
    rewrite <- Ed. eexists. split; [ reflexivity | ].
    split; [ | split; [ | split; [ | split ] ] ].
    + intros E0. rewrite E0. reflexivity.
    + intros a ya rest E0 Hle. rewrite E0. cbn [np_interp].
      destruct (Rle_dec (fst kv) a); [ reflexivity | contradiction ].
    + intros pre c yc E0 Hle. rewrite E0 in Hs |- *.
      destruct (pre ++ [(c, yc)]) eqn:E2; [ destruct pre; discriminate | ].
      rewrite <- E2 in *. apply np_interp_right; assumption.
    + intros pre a ya c yc post E0 Hx. rewrite E0 in Hs |- *.
      destruct (pre ++ (a, ya) :: (c, yc) :: post) eqn:E2;
        [ destruct pre; discriminate | ].
      rewrite <- E2 in *. apply np_interp_between; assumption.
    + intros y Hy.
      destruct (data st) as [ | p d] eqn:Edata; [ destruct Hy | ].
      apply np_interp_node; assumption.
Qed.

End Learner1DChoices.

(** ** 2-D learner: areas, deviations, scaling *)

Section Geometry2D.
Import Learner2D.

(** X11. The area that the default loss uses is the absolute value of the
    signed area that the point placement uses: it is never negative and
    does not depend on the order in which the vertices are listed. *)
Theorem areas_are_unsigned (t : triangle) :
  area t = Rabs (signed_area t)
  /\ 0 <= area t
  /\ area (roll t) = area t
  /\ area (vertex t 1, vertex t 0, vertex t 2) = area t.
Proof.
  destruct t as [[[a1 a2] [b1 b2]] [c1 c2]].
  unfold area, signed_area, cross, roll. cbn [vertex psub fst snd].
  assert (Hhalf : forall x, Rabs (0.5 * x) = Rabs x / 2).
  { intros x. rewrite Rabs_mult, (Rabs_pos_eq 0.5) by lra. lra. }
  split; [ | split; [ | split ] ].
  - rewrite Hhalf. f_equal. f_equal. ring.
  - pose proof (Rabs_pos ((a1 - c1) * (b2 - c2) - (a2 - c2) * (b1 - c1))). lra.
  - f_equal. f_equal. ring.
  - f_equal. rewrite <- Rabs_Ropp. f_equal. ring.
Qed.

Lemma max3_spec a b c :
  a <= max3 a b c /\ b <= max3 a b c /\ c <= max3 a b c
  /\ (max3 a b c = a \/ max3 a b c = b \/ max3 a b c = c).
Proof.
  unfold max3, py_max2.
  destruct (Rlt_dec a b);
    match goal with |- context [Rlt_dec ?x ?y] => destruct (Rlt_dec x y) end;
    (split; [ lra | split; [ lra | split; [ lra | ] ] ]);
    first [ left; reflexivity | right; left; reflexivity
          | right; right; reflexivity ].
Qed.

Lemma deviation_unfold p v g :
  deviation p v g
  = 0 + max3 (Rabs (vest p v g 0 0 - value3 v 0))
             (Rabs (vest p v g 0 1 - value3 v 1))
             (Rabs (vest p v g 0 2 - value3 v 2))
      + max3 (Rabs (vest p v g 1 0 - value3 v 0))
             (Rabs (vest p v g 1 1 - value3 v 1))
             (Rabs (vest p v g 1 2 - value3 v 2))
      + max3 (Rabs (vest p v g 2 0 - value3 v 0))
             (Rabs (vest p v g 2 1 - value3 v 1))
             (Rabs (vest p v g 2 2 - value3 v 2)).
Proof. reflexivity. Qed.

Lemma max3_abs_zero a b c :
  0 <= max3 (Rabs a) (Rabs b) (Rabs c)
  /\ (max3 (Rabs a) (Rabs b) (Rabs c) = 0 <-> a = 0 /\ b = 0 /\ c = 0).
Proof.
  pose proof (Rabs_pos a). pose proof (Rabs_pos b). pose proof (Rabs_pos c).
  destruct (max3_spec (Rabs a) (Rabs b) (Rabs c)) as (Ha & Hb & Hc & Hm).
  split; [ lra | ]. split.
  - intros E. rewrite E in Ha, Hb, Hc.
    assert (Hz : forall x, Rabs x <= 0 -> x = 0).
    { intros x Hx. destruct (Req_dec_T x 0) as [E0 | N]; [ exact E0 | ].
      pose proof (Rabs_pos_lt x N). lra. }
    repeat split; apply Hz; assumption.
  - intros (Ea & Eb & Ec). subst. rewrite Rabs_R0 in *.
    destruct Hm as [E | [E | E]]; exact E.
Qed.

Lemma fold_plus_nonneg l : forall acc,
  0 <= acc -> Forall (fun x => 0 <= x) l -> 0 <= fold_left Rplus l acc.
Proof.
  induction l as [ | x l IH]; intros acc Hacc Hl; simpl; [ exact Hacc | ].
  inversion Hl; subst. apply IH; [ lra | assumption ].
Qed.

(** X12. The deviation of a triangle from the linear estimates is never
    negative, and it is zero exactly when the value and the gradient at
    every vertex predict the values at the three vertices; so the default
    loss of a triangle is never negative. *)
Theorem deviation_measures_misfit (p : triangle) (v : R * R * R)
  (g : triangle) (levels : list ((R * R * R) * triangle)) :
  0 <= deviation p v g
  /\ (deviation p v g = 0
      <-> forall j k, (j < 3)%nat -> (k < 3)%nat -> vest p v g j k = value3 v k)
  /\ 0 <= default_loss_per_triangle p levels.
Proof.
  assert (Hdev : forall v' g',
             0 <= deviation p v' g'
             /\ (deviation p v' g' = 0
                 <-> forall j k, (j < 3)%nat -> (k < 3)%nat ->
                                 vest p v' g' j k = value3 v' k)).
  { intros v' g'. rewrite deviation_unfold.
    destruct (max3_abs_zero (vest p v' g' 0 0 - value3 v' 0)
                (vest p v' g' 0 1 - value3 v' 1) (vest p v' g' 0 2 - value3 v' 2))
      as [P0 Z0].
    destruct (max3_abs_zero (vest p v' g' 1 0 - value3 v' 0)
                (vest p v' g' 1 1 - value3 v' 1) (vest p v' g' 1 2 - value3 v' 2))
      as [P1 Z1].
    destruct (max3_abs_zero (vest p v' g' 2 0 - value3 v' 0)
                (vest p v' g' 2 1 - value3 v' 1) (vest p v' g' 2 2 - value3 v' 2))
      as [P2 Z2].
    split; [ lra | ]. split.
    - intros E.
      assert (E0 : max3 (Rabs (vest p v' g' 0 0 - value3 v' 0))
                     (Rabs (vest p v' g' 0 1 - value3 v' 1))
                     (Rabs (vest p v' g' 0 2 - value3 v' 2)) = 0) by lra.
      assert (E1 : max3 (Rabs (vest p v' g' 1 0 - value3 v' 0))
                     (Rabs (vest p v' g' 1 1 - value3 v' 1))
                     (Rabs (vest p v' g' 1 2 - value3 v' 2)) = 0) by lra.
      assert (E2 : max3 (Rabs (vest p v' g' 2 0 - value3 v' 0))
                     (Rabs (vest p v' g' 2 1 - value3 v' 1))
                     (Rabs (vest p v' g' 2 2 - value3 v' 2)) = 0) by lra.
      apply Z0 in E0. apply Z1 in E1. apply Z2 in E2.
      intros j k Hj Hk.
      destruct j as [ | [ | [ | j]]]; try lia;
        destruct k as [ | [ | [ | k]]]; try lia; lra.
    - intros Hall.
      assert (E0 : max3 (Rabs (vest p v' g' 0 0 - value3 v' 0))
                     (Rabs (vest p v' g' 0 1 - value3 v' 1))
                     (Rabs (vest p v' g' 0 2 - value3 v' 2)) = 0).
      { apply Z0. repeat split; rewrite Hall by lia; lra. }
      assert (E1 : max3 (Rabs (vest p v' g' 1 0 - value3 v' 0))
                     (Rabs (vest p v' g' 1 1 - value3 v' 1))
                     (Rabs (vest p v' g' 1 2 - value3 v' 2)) = 0).
      { apply Z1. repeat split; rewrite Hall by lia; lra. }
      assert (E2 : max3 (Rabs (vest p v' g' 2 0 - value3 v' 0))
                     (Rabs (vest p v' g' 2 1 - value3 v' 1))
                     (Rabs (vest p v' g' 2 2 - value3 v' 2)) = 0).
      { apply Z2. repeat split; rewrite Hall by lia; lra. }
      lra. }
  split; [ apply Hdev | ]. split; [ apply Hdev | ].
  unfold default_loss_per_triangle. apply fold_plus_nonneg; [ lra | ].
  apply Forall_forall. intros x Hx. apply in_map_iff in Hx.
  destruct Hx as (lv & E & _). subst x.
  apply Rmult_le_pos; [ apply Hdev | apply sqrt_pos ].
Qed.

Lemma xy_scale_positive (b : (R * R) * (R * R)) :
  fst (fst b) <> snd (fst b) -> fst (snd b) <> snd (snd b) ->
  0 < fst (xy_scale b) /\ 0 < snd (xy_scale b).
Proof.
  destruct b as [[a1 b1] [a2 b2]]. cbn [fst snd xy_scale]. intros H1 H2.
  unfold Rmax, Rmin.
  destruct (Rle_dec a1 b1), (Rle_dec a2 b2); split; lra.
Qed.

Lemma scale_point (b : (R * R) * (R * R)) (p : point) pts :
  scale b (p :: pts)
  = Returned
      (map (fun p => ((fst p - fst (xy_mean b)) / fst (xy_scale b),
                      (snd p - snd (xy_mean b)) / snd (xy_scale b)))
           (p :: pts)).
Proof. reflexivity. Qed.

(** X13. On bounds that are not degenerate, in whatever order each pair
    is given, the scale is the positive width of the bounds, and on a
    list of points that is not empty [unscale] undoes [scale] and [scale]
    undoes [unscale].  With both pairs in ascending order [scale] takes
    the corners of the bounds to the corners of the square from -1/2 to
    1/2; with the first pair in descending order the first coordinate is
    mirrored.  An empty list of points cannot be scaled. *)
Theorem scale_unscale_round_trip (b : (R * R) * (R * R))
  (pts : list point) :
  fst (fst b) <> snd (fst b) -> fst (snd b) <> snd (snd b) ->
  scale b [] = Raised ValueError
  /\ xy_scale b = (Rabs (snd (fst b) - fst (fst b)),
                   Rabs (snd (snd b) - fst (snd b)))
  /\ (pts <> [] ->
      exists qs,
        scale b pts = Returned qs
        /\ map (unscale b) qs = pts
        /\ scale b (map (unscale b) pts) = Returned pts)
  /\ (fst (fst b) < snd (fst b) -> fst (snd b) < snd (snd b) ->
      scale b (corners b)
      = Returned [(- (1 / 2), - (1 / 2)); (- (1 / 2), 1 / 2);
                  (1 / 2, - (1 / 2)); (1 / 2, 1 / 2)])
  /\ (snd (fst b) < fst (fst b) -> fst (snd b) < snd (snd b) ->
      scale b (corners b)
      = Returned [(1 / 2, - (1 / 2)); (1 / 2, 1 / 2);
                  (- (1 / 2), - (1 / 2)); (- (1 / 2), 1 / 2)]).
Proof.
  intros H1 H2. destruct (xy_scale_positive b H1 H2) as [P1 P2].
  split; [ reflexivity | ]. split; [ | split; [ | split ] ].
  - destruct b as [[a1 b1] [a2 b2]]. clear P1 P2.
    unfold xy_scale. cbn [fst snd] in *. unfold Rmax, Rmin, Rabs.
    destruct (Rle_dec a1 b1), (Rle_dec a2 b2),
      (Rcase_abs (b1 - a1)), (Rcase_abs (b2 - a2));
      try (exfalso; lra); apply f_equal2; lra.
  - intros Hne. destruct pts as [ | p pts]; [ congruence | ].
    eexists. split; [ apply scale_point | ]. split.
    + rewrite map_map.
      transitivity (map (fun q : point => q) (p :: pts)); [ | apply map_id ].
      apply map_ext. intros [x y]. unfold unscale. cbn [fst snd].
      f_equal; field; lra.
    + rewrite map_cons, scale_point. apply f_equal.
      rewrite <- (map_cons (unscale b) p pts), map_map.
      transitivity (map (fun q : point => q) (p :: pts)); [ | apply map_id ].
      apply map_ext. intros [x y]. unfold unscale. cbn [fst snd].
      f_equal; field; lra.
  - destruct b as [[a1 b1] [a2 b2]]. cbn [fst snd] in *. intros O1 O2.
    unfold corners. rewrite scale_point. apply f_equal.
    unfold xy_mean, xy_scale, Rmax, Rmin. cbn [map fst snd].
    destruct (Rle_dec a1 b1), (Rle_dec a2 b2); try lra.
    repeat (f_equal; try (field; lra)).
  - destruct b as [[a1 b1] [a2 b2]]. cbn [fst snd] in *. intros O1 O2.
    unfold corners. rewrite scale_point. apply f_equal.
    unfold xy_mean, xy_scale, Rmax, Rmin. cbn [map fst snd].
    destruct (Rle_dec a1 b1), (Rle_dec a2 b2); try lra.
    repeat (f_equal; try (field; lra)).
Qed.

(** X13 (witness). The square with its first pair of bounds given in
    descending order: the corner (1, 0) goes to (1/2, -1/2). *)
Lemma scale_unscale_round_trip_witness :
  scale ((1, 0), (0, 1)) (corners ((1, 0), (0, 1)))
  = Returned [(1 / 2, - (1 / 2)); (1 / 2, 1 / 2);
              (- (1 / 2), - (1 / 2)); (- (1 / 2), 1 / 2)].
Proof.
  refine (proj2 (proj2 (proj2 (proj2
            (@scale_unscale_round_trip ((1, 0), (0, 1)) [] _ _)))) _ _);
    simpl; lra.
Defined.

End Geometry2D.

(** ** 2-D learner: the stack of candidates *)

Section DictOrder.
Context {K V : Type} `{DecEq K}.

Lemma dict_del_last (d : dict K V) k v :
  ~ In k (dict_keys d) -> dict_del (d ++ [(k, v)]) k = d.
Proof.
  induction d as [ | [k0 v0] d IH]; simpl; intros Hk.
  - destruct (dec_eq k k); [ reflexivity | congruence ].
  - destruct (dec_eq k k0) as [E | E]; [ exfalso; apply Hk; left; congruence | ].
    rewrite IH; [ reflexivity | ]. intros Hin. apply Hk. right. exact Hin.
Qed.

Lemma dict_keys_app (d1 d2 : dict K V) :
  dict_keys (d1 ++ d2) = dict_keys d1 ++ dict_keys d2.
Proof. unfold dict_keys. apply map_app. Qed.

Lemma del_suffix (A B : dict K V) :
  NoDup (dict_keys (A ++ B)) ->
  fold_left (fun s p => dict_del s p) (rev (dict_keys B)) (A ++ B) = A.
Proof.
  induction B as [ | [k v] B IH] using rev_ind; intros Hnd.
  - simpl. apply app_nil_r.
  - rewrite dict_keys_app. cbn [dict_keys map fst]. rewrite rev_app_distr.
    cbn [rev app fold_left]. rewrite app_assoc.
    rewrite app_assoc, dict_keys_app in Hnd. cbn [dict_keys map fst] in Hnd.
    apply NoDup_remove in Hnd. rewrite app_nil_r in Hnd. destruct Hnd as [Hnd Hk].
    rewrite dict_del_last by exact Hk. apply IH. exact Hnd.
Qed.

Lemma dict_set_new (d : dict K V) k v :
  ~ In k (dict_keys d) -> dict_set d k v = d ++ [(k, v)].
Proof.
  induction d as [ | [k0 v0] d IH]; simpl; intros Hk; [ reflexivity | ].
  destruct (dec_eq k k0) as [E | E]; [ exfalso; apply Hk; left; congruence | ].
  rewrite IH; [ reflexivity | ]. intros Hin. apply Hk. right. exact Hin.
Qed.

Lemma set_all_new (pts : dict K V) : forall stk,
  NoDup (dict_keys pts) ->
  (forall p, In p (dict_keys pts) -> ~ In p (dict_keys stk)) ->
  fold_left (fun s pl => dict_set s (fst pl) (snd pl)) pts stk = stk ++ pts.
Proof.
  induction pts as [ | [k v] pts IH]; intros stk Hnd Hnew; simpl.
  - symmetry. apply app_nil_r.
  - cbn [dict_keys map fst] in Hnd. inversion Hnd as [ | ? ? Hk Hnd']. subst.
    rewrite dict_set_new by (apply Hnew; left; reflexivity).
    rewrite IH; [ rewrite <- app_assoc; reflexivity | exact Hnd' | ].
    intros p Hp. rewrite dict_keys_app. cbn [dict_keys map fst].
    intros Hin. apply in_app_or in Hin. destruct Hin as [Hin | [E | []]].
    + apply (Hnew p); [ right; exact Hp | exact Hin ].
    + subst p. exact (Hk Hp).
Qed.
End DictOrder.

Lemma in_firstn {A} (x : A) n : forall l, In x (firstn n l) -> In x l.
Proof.
  induction n as [ | n IH]; intros [ | a l]; simpl; try tauto.
  intros [E | Hin]; [ left; exact E | right; apply IH; exact Hin ].
Qed.

Lemma combine_fst_snd {A B} (l : list (A * B)) :
  combine (map fst l) (map snd l) = l.
Proof.
  induction l as [ | [a b] l IH]; simpl; [ reflexivity | ].
  rewrite IH. reflexivity.
Qed.

Section Pending2D.
Import Learner2D.

Lemma set_add_in (s : list point) p q :
  In q (set_add s p) <-> In q s \/ q = p.
Proof.
  unfold set_add. destruct (in_dec dec_eq p s) as [Hin | Hin].
  - split; [ auto | ]. intros [Hq | Eq]; [ exact Hq | subst; exact Hin ].
  - rewrite in_app_iff. simpl. split.
    + intros [Hq | [E | []]]; auto.
    + intros [Hq | E]; auto.
Qed.

Lemma fold_set_add_in pts : forall (s : list point) q,
  In q (fold_left set_add pts s) <-> In q s \/ In q pts.
Proof.
  induction pts as [ | p pts IH]; intros s q; simpl; [ tauto | ].
  rewrite IH, set_add_in. split.
  - intros [[Hq | E] | Hq]; auto.
  - intros [Hq | [E | Hq]]; auto.
Qed.

Lemma set_add_all pts : forall s : list point,
  NoDup pts -> (forall p, In p pts -> ~ In p s) ->
  fold_left set_add pts s = s ++ pts.
Proof.
  induction pts as [ | p pts IH]; intros s Hnd Hnew; simpl.
  - symmetry. apply app_nil_r.
  - inversion Hnd as [ | ? ? Hp Hnd']. subst.
    assert (Es : set_add s p = s ++ [p]).
    { unfold set_add. destruct (in_dec dec_eq p s) as [Hin | _]; [ | reflexivity ].
      exfalso. apply (Hnew p); [ left; reflexivity | exact Hin ]. }
    rewrite Es, IH; [ rewrite <- app_assoc; reflexivity | exact Hnd' | ].
    intros q Hq Hin. apply in_app_or in Hin. destruct Hin as [Hin | [E | []]].
    + apply (Hnew q); [ right; exact Hq | exact Hin ].
    + subst q. exact (Hp Hq).
Qed.

Lemma set_discard_absent (s : list point) p :
  ~ In p s -> set_discard s p = s.
Proof.
  unfold set_discard. induction s as [ | q s IH]; simpl; intros Hp; [ reflexivity | ].
  destruct (dec_eq q p) as [E | _]; [ exfalso; apply Hp; left; exact E | ].
  rewrite IH; [ reflexivity | ]. intros Hin. apply Hp. right. exact Hin.
Qed.

Lemma set_discard_in (s : list point) p q :
  In q (set_discard s p) <-> In q s /\ q <> p.
Proof.
  unfold set_discard. rewrite filter_In.
  destruct (dec_eq q p); split; intros [H1 H2]; split; auto; try discriminate;
    contradiction.
Qed.

Lemma remove_all_added pts : forall s : list point,
  NoDup pts -> (forall p, In p pts -> ~ In p s) ->
  remove_all (s ++ pts) pts = Returned s.
Proof.
  induction pts as [ | p pts IH]; intros s Hnd Hnew; cbn [remove_all].
  - rewrite app_nil_r. reflexivity.
  - inversion Hnd as [ | ? ? Hp Hnd']. subst.
    unfold set_remove, set_mem.
    destruct (in_dec dec_eq p (s ++ p :: pts)) as [_ | N];
      [ | exfalso; apply N; apply in_or_app; right; left; reflexivity ].
    cbn [bind].
    assert (Ed : set_discard (s ++ p :: pts) p = s ++ pts).
    { unfold set_discard. rewrite filter_app. cbn [filter].
      destruct (dec_eq p p) as [_ | N]; [ | congruence ].
      fold (set_discard s p). fold (set_discard pts p).
      rewrite !set_discard_absent; [ reflexivity | exact Hp | ].
      apply Hnew. left. reflexivity. }
    rewrite Ed. apply IH; [ exact Hnd' | ].
    intros q Hq. apply Hnew. right. exact Hq.
Qed.

Section Engine2D.
Variable V : Type.
Variable zeros : V.
Variable Interp : Type.
Variable LinearNDInterpolator : list point -> list V -> result Interp.
Variable ip_call : Interp -> list point -> list V.
Variable simplex : Interp -> nat -> triangle.

Lemma add_pending_fields pts : forall l : learner V Interp,
  data (add_pending l pts) = data l
  /\ stack (add_pending l pts)
     = fold_left (fun s p => dict_del s p) pts (stack l)
  /\ interp (add_pending l pts) = fold_left set_add pts (interp l)
  /\ bounds_points (add_pending l pts) = bounds_points l
  /\ bounds (add_pending l pts) = bounds l
  /\ loss_per_triangle (add_pending l pts) = loss_per_triangle l
  /\ ip_cache (add_pending l pts) = ip_cache l
  /\ stack_size (add_pending l pts) = stack_size l
  /\ ip_combined_cache (add_pending l pts)
     = match pts with [] => ip_combined_cache l | _ => None end.
Proof.
  unfold add_pending.
  induction pts as [ | p pts IH]; intros l; cbn [fold_left].
  - repeat split.
  - destruct (IH (add_point l p None)) as (H1 & H2 & H3 & H4 & H5 & H6 & H7 & H8 & H9).
    cbn [add_point data stack interp bounds_points bounds loss_per_triangle
         ip_cache stack_size ip_combined_cache] in *.
    repeat split; try assumption.
    rewrite H9. destruct pts; reflexivity.
Qed.

Lemma restack_false n pts : forall i (stk : dict point pyfloat),
  restack n false i pts stk
  = fold_left (fun s pl => dict_set s (fst pl) (snd pl)) pts stk.
Proof.
  induction pts as [ | [p li] pts IH]; intros i stk; cbn [restack fold_left];
    [ reflexivity | ].
  cbn [negb]. rewrite orb_true_r. apply IH.
Qed.

Lemma restack_true n pts : forall i (stk : dict point pyfloat),
  (i + length pts <= n)%nat -> restack n true i pts stk = stk.
Proof.
  induction pts as [ | [p li] pts IH]; intros i stk Hn; cbn [restack];
    [ reflexivity | ].
  cbn [length] in Hn. cbn [negb]. rewrite orb_false_r.
  destruct (Nat.leb_spec n i); [ lia | ]. apply IH. lia.
Qed.

(** The [n] entries at the end of the stack, last one first. *)
Lemma top_of_stack (S : dict point pyfloat) n :
  NoDup (dict_keys S) -> (n <= length S)%nat ->
  let top := firstn n (rev S) in
  let rest := firstn (length S - n) S in
  length top = n
  /\ NoDup (dict_keys top)
  /\ (forall p, In p (dict_keys top) -> ~ In p (dict_keys rest))
  /\ fold_left (fun s p => dict_del s p) (dict_keys top) S = rest.
Proof.
  intros Hnd Hn top rest.
  set (B := skipn (length S - n) S).
  assert (ES : S = rest ++ B) by (symmetry; apply firstn_skipn).
  assert (HB : length B = n) by (unfold B; rewrite length_skipn; lia).
  assert (Etop : top = rev B).
  { unfold top. rewrite ES at 1. rewrite rev_app_distr, firstn_app.
    rewrite length_rev, HB, Nat.sub_diag. cbn [firstn]. rewrite app_nil_r.
    apply firstn_all2. rewrite length_rev. lia. }
  assert (Ekeys : dict_keys top = rev (dict_keys B)).
  { rewrite Etop. unfold dict_keys. apply map_rev. }
  rewrite ES, dict_keys_app in Hnd.
  split; [ rewrite Etop, length_rev; exact HB | ]. split; [ | split ].
  - rewrite Ekeys. apply NoDup_rev. eapply NoDup_app_remove_l. exact Hnd.
  - intros p Hp Hr. rewrite Ekeys in Hp. apply in_rev in Hp.
    revert Hnd Hr Hp. generalize (dict_keys rest) (dict_keys B). clear.
    intros l1 l2 Hnd H1 H2. induction l1 as [ | a l1 IH]; [ exact H1 | ].
    simpl in Hnd. inversion Hnd as [ | ? ? Ha Hnd']. subst.
    destruct H1 as [E | H1]; [ | exact (IH Hnd' H1) ].
    subst a. apply Ha. apply in_or_app. right. exact H2.
  - rewrite Ekeys. rewrite ES at 1. apply del_suffix.
    rewrite dict_keys_app. exact Hnd.
Qed.

Lemma split_stack_top (l : learner V Interp) n :
  split_stack l n
  = (dict_keys (firstn n (rev (stack l))),
     dict_values (firstn n (rev (stack l)))).
Proof.
  unfold split_stack, dict_keys, dict_values.
  rewrite !firstn_map. reflexivity.
Qed.

Lemma refill_done fuel (l : learner V Interp) pts lis :
  refill zeros LinearNDInterpolator ip_call simplex fuel l 0 pts lis
  = Some (Returned (pts, lis, l)).
Proof. destruct fuel; reflexivity. Qed.

Lemma serves_from_stack (fuel : nat) (l : learner V Interp) (n : nat) :
  NoDup (dict_keys (stack l)) -> (n <= length (stack l))%nat ->
  let top := firstn n (rev (stack l)) in
  exists l',
    choose_points zeros LinearNDInterpolator ip_call simplex fuel l n true
    = Some (Returned (dict_keys top, dict_values top, l'))
    /\ length top = n
    /\ data l' = data l
    /\ stack l' = firstn (length (stack l) - n) (stack l)
    /\ (forall p, In p (interp l') <-> In p (interp l) \/ In p (dict_keys top))
    /\ ip_cache l' = ip_cache l
    /\ (n <> 0%nat -> ip_combined_cache l' = None)
    /\ bounds_points l' = bounds_points l.
Proof.
  intros Hnd Hn top.
  destruct (@top_of_stack (stack l) n Hnd Hn) as (Hlen & Hndt & Hnew & Hdel). fold top in Hlen, Hndt, Hnew, Hdel.
  destruct (add_pending_fields (dict_keys top) l)
    as (F1 & F2 & F3 & F4 & F5 & F6 & F7 & F8 & F9).
  assert (Hpts : length (dict_keys top) = n).
  { unfold dict_keys. rewrite length_map. exact Hlen. }
  unfold choose_points. rewrite split_stack_top. fold top. cbv beta iota zeta.
  rewrite Hpts, Nat.sub_diag, refill_done.
  rewrite restack_true
    by (unfold dict_keys, dict_values;
        rewrite length_combine, !length_map, Hlen; lia).
  cbn [bind].
  rewrite !firstn_all2
    by (unfold dict_keys, dict_values; rewrite length_map; lia).
  eexists. split; [ reflexivity | ].
  cbn [with_interp with_stack data stack interp ip_cache ip_combined_cache
       bounds_points].
  split; [ exact Hlen | ]. split; [ exact F1 | ].
  split; [ rewrite F2; exact Hdel | ].
  split; [ intros p; rewrite F3; apply fold_set_add_in | ].
  split; [ exact F7 | ]. split; [ | exact F4 ].
  intros Hn0. rewrite F9. destruct (dict_keys top) eqn:E; [ | reflexivity ].
  simpl in Hpts. congruence.
Qed.

(** X15. As long as a request does not exceed the stack of candidates,
    [choose_points(n)] serves it from the stack alone, without touching
    the interpolator: it returns the [n] entries at the end of the stack,
    the last one first, with the loss improvements stored there; these
    leave the stack and become pending, the real data stay as they are
    and the cached interpolant of the combined data is dropped. *)
Theorem learner2d_serves_from_stack (fuel : nat) (l : learner V Interp)
  (n : nat) :
  NoDup (dict_keys (stack l)) -> (n <= length (stack l))%nat ->
  let top := firstn n (rev (stack l)) in
  exists l',
    choose_points zeros LinearNDInterpolator ip_call simplex fuel l n true
    = Some (Returned (dict_keys top, dict_values top, l'))
    /\ length top = n
    /\ data l' = data l
    /\ stack l' = firstn (length (stack l) - n) (stack l)
    /\ (forall p, In p (interp l') <-> In p (interp l) \/ In p (dict_keys top))
    /\ ip_cache l' = ip_cache l
    /\ (n <> 0%nat -> ip_combined_cache l' = None).
Proof.
  intros Hnd Hn top.
  destruct (@serves_from_stack fuel l n Hnd Hn)
    as (l' & E & H1 & H2 & H3 & H4 & H5 & H6 & _).
  exists l'. repeat split; try assumption; apply H4.
Qed.

Lemma dry_run_from_stack (fuel : nat) (l : learner V Interp) (n : nat) :
  NoDup (dict_keys (stack l)) -> (n <= length (stack l))%nat ->
  (forall p, In p (dict_keys (stack l)) -> ~ In p (interp l)) ->
  let top := firstn n (rev (stack l)) in
  exists l',
    choose_points zeros LinearNDInterpolator ip_call simplex fuel l n false
    = Some (Returned (dict_keys top, dict_values top, l'))
    /\ data l' = data l
    /\ interp l' = interp l
    /\ stack l' = firstn (length (stack l) - n) (stack l) ++ top
    /\ Permutation (stack l') (stack l)
    /\ ip_cache l' = ip_cache l
    /\ (n <> 0%nat -> ip_combined_cache l' = None)
    /\ bounds_points l' = bounds_points l.
Proof.
  intros Hnd Hn Hdisj top.
  destruct (@top_of_stack (stack l) n Hnd Hn) as (Hlen & Hndt & Hnew & Hdel). fold top in Hlen, Hndt, Hnew, Hdel.
  destruct (add_pending_fields (dict_keys top) l)
    as (F1 & F2 & F3 & F4 & F5 & F6 & F7 & F8 & F9).
  assert (Hpts : length (dict_keys top) = n).
  { unfold dict_keys. rewrite length_map. exact Hlen. }
  assert (Hsub : forall p, In p (dict_keys top) -> In p (dict_keys (stack l))).
  { intros p Hp. unfold top, dict_keys in Hp. apply in_map_iff in Hp.
    destruct Hp as (kv & E & Hkv). apply in_firstn, in_rev in Hkv.
    apply in_map_iff. exists kv. auto. }
  assert (Hfresh : forall p, In p (dict_keys top) -> ~ In p (interp l)).
  { intros p Hp. apply Hdisj, Hsub, Hp. }
  unfold choose_points. rewrite split_stack_top. fold top. cbv beta iota zeta.
  rewrite Hpts, Nat.sub_diag, refill_done.
  rewrite restack_false.
  replace (combine (dict_keys top) (dict_values top)) with top
    by (symmetry; apply combine_fst_snd).
  cbn [with_stack interp stack].
  rewrite F3, (@set_add_all (dict_keys top) (interp l) Hndt Hfresh),
    (@remove_all_added (dict_keys top) (interp l) Hndt Hfresh).
  cbn [bind].
  rewrite !firstn_all2
    by (unfold dict_keys, dict_values; rewrite length_map; lia).
  eexists. split; [ reflexivity | ].
  cbn [with_interp with_stack data stack interp ip_cache ip_combined_cache
       bounds_points].
  assert (Estack : fold_left (fun s pl => dict_set s (fst pl) (snd pl)) top
                     (stack (add_pending l (dict_keys top)))
                   = firstn (length (stack l) - n) (stack l) ++ top).
  { rewrite F2, Hdel. apply set_all_new; assumption. }
  split; [ exact F1 | ]. split; [ reflexivity | ].
  split; [ exact Estack | ].
  split; [ | split; [ exact F7 | split; [ | exact F4 ] ] ].
  - rewrite Estack.
    rewrite <- (firstn_skipn (length (stack l) - n) (stack l)) at 3.
    apply Permutation_app_head.
    assert (Etop : top = rev (skipn (length (stack l) - n) (stack l))).
    { unfold top.
      rewrite <- (firstn_skipn (length (stack l) - n) (stack l)) at 1.
      rewrite rev_app_distr, firstn_app.
      rewrite length_rev, length_skipn.
      replace (n - (length (stack l) - (length (stack l) - n)))%nat with 0%nat
        by lia.
      cbn [firstn]. rewrite app_nil_r.
      apply firstn_all2. rewrite length_rev, length_skipn. lia. }
    rewrite Etop. apply Permutation_sym, Permutation_rev.
  - intros Hn0. rewrite F9. destruct (dict_keys top) eqn:E; [ | reflexivity ].
    simpl in Hpts. congruence.
Qed.

(** X16. A dry run that the stack can serve, on a learner none of whose
    stacked points is pending: [choose_points(n, add_data=False)] returns
    the same points as the call that adds them, and it leaves the real
    data and the pending points as they were.  The learner is not left
    untouched, though: the returned entries are put back at the end of
    the stack in the order in which they were returned, so the last [n]
    entries of the stack are reversed, and the cached interpolant of the
    combined data is dropped. *)
Theorem learner2d_dry_run_reorders_stack (fuel : nat) (l : learner V Interp)
  (n : nat) :
  NoDup (dict_keys (stack l)) -> (n <= length (stack l))%nat ->
  (forall p, In p (dict_keys (stack l)) -> ~ In p (interp l)) ->
  let top := firstn n (rev (stack l)) in
  exists l',
    choose_points zeros LinearNDInterpolator ip_call simplex fuel l n false
    = Some (Returned (dict_keys top, dict_values top, l'))
    /\ data l' = data l
    /\ interp l' = interp l
    /\ stack l' = firstn (length (stack l) - n) (stack l) ++ top
    /\ Permutation (stack l') (stack l)
    /\ ip_cache l' = ip_cache l
    /\ (n <> 0%nat -> ip_combined_cache l' = None).
Proof.
  intros Hnd Hn Hdisj top.
  destruct (@dry_run_from_stack fuel l n Hnd Hn Hdisj)
    as (l' & E & H1 & H2 & H3 & H4 & H5 & H6 & _).
  exists l'. repeat split; assumption.
Qed.

(** X17. With an empty stack and fewer than three points, real and
    pending together, [choose_points] cannot triangulate: asked for at
    least one point it raises [ValueError]. *)
Theorem learner2d_too_few_points (fuel : nat) (l : learner V Interp) (n : nat)
  (add : bool) :
  stack l = [] -> (length (data l) + length (interp l) < 3)%nat ->
  (1 <= n)%nat ->
  choose_points zeros LinearNDInterpolator ip_call simplex (S fuel) l n add
  = Some (Raised ValueError).
Proof.
  intros Hs Hfew Hn. unfold choose_points, split_stack. rewrite Hs.
  cbn [rev map firstn]. rewrite !firstn_nil.
  cbv beta iota zeta. cbn [add_pending fold_left length].
  rewrite Nat.sub_0_r. destruct n as [ | n]; [ lia | ].
  cbn [refill]. unfold fill_stack.
  destruct (Nat.ltb_spec (length (data l) + length (interp l)) 3);
    [ reflexivity | lia ].
Qed.

End Engine2D.
End Pending2D.

(** ** 2-D learner: corners, and the filling of the stack *)

Section Floats.

Lemma fl_leb_refl a : fl_leb a a = true.
Proof.
  unfold fl_leb. destruct a; simpl; try reflexivity.
  unfold Rltb. destruct (Rlt_dec r r); [ lra | reflexivity ].
Qed.

Lemma fl_leb_ninf a : fl_leb NInf a = true.
Proof. unfold fl_leb. destruct a; reflexivity. Qed.

Lemma fl_leb_trans a b c :
  fl_leb a b = true -> fl_leb b c = true -> fl_leb a c = true.
Proof.
  unfold fl_leb. destruct a, b, c; simpl; unfold Rltb;
    repeat match goal with |- context [Rlt_dec ?x ?y] => destruct (Rlt_dec x y) end;
    simpl; intros; try reflexivity; try discriminate; lra.
Qed.

Lemma fl_ltb_leb a b : fl_ltb a b = true -> fl_leb a b = true.
Proof.
  unfold fl_leb. destruct a, b; simpl; unfold Rltb;
    repeat match goal with |- context [Rlt_dec ?x ?y] => destruct (Rlt_dec x y) end;
    simpl; intros; try reflexivity; try discriminate; lra.
Qed.

End Floats.

Lemma nth_list_set_same {A} (l : list A) : forall i x d,
  (i < length l)%nat -> nth i (list_set l i x) d = x.
Proof.
  induction l as [ | a l IH]; intros [ | i] x d; simpl; try lia; auto.
  intros Hi. apply IH. lia.
Qed.

Lemma nth_list_set_other {A} (l : list A) : forall i j x d,
  i <> j -> nth j (list_set l i x) d = nth j l d.
Proof.
  induction l as [ | a l IH]; intros [ | i] [ | j] x d Hne; simpl;
    try reflexivity; try congruence.
  apply IH. congruence.
Qed.

Section FillStack.
Import Learner2D.

Lemma argmax_from_spec l : forall pre best ibest,
  (ibest < length pre)%nat -> nth ibest pre NInf = best ->
  (forall x, In x pre -> fl_leb x best = true) ->
  let r := argmax_from best ibest (length pre) l in
  (r < length (pre ++ l))%nat
  /\ forall x, In x (pre ++ l) -> fl_leb x (nth r (pre ++ l) NInf) = true.
Proof.
  induction l as [ | x l IH]; intros pre best ibest Hi Hb Hall; cbn [argmax_from].
  - rewrite app_nil_r. split; [ exact Hi | ].
    intros y Hy. rewrite Hb. apply Hall. exact Hy.
  - assert (Elen : S (length pre) = length (pre ++ [x]))
      by (rewrite length_app; simpl; lia).
    assert (Eapp : pre ++ x :: l = (pre ++ [x]) ++ l)
      by (rewrite <- app_assoc; reflexivity).
    rewrite Elen, Eapp.
    destruct (fl_gtb x best) eqn:Eg.
    + replace (length pre) with (length (pre ++ [x]) - 1)%nat at 1
        by (rewrite <- Elen; lia).
      replace (length (pre ++ [x]) - 1)%nat with (length pre)
        by (rewrite <- Elen; lia).
      apply IH.
      * rewrite <- Elen. lia.
      * rewrite app_nth2, Nat.sub_diag by lia. reflexivity.
      * intros y Hy. apply in_app_or in Hy. destruct Hy as [Hy | [E | []]].
        -- eapply fl_leb_trans; [ apply Hall; exact Hy | ].
           apply fl_ltb_leb. exact Eg.
        -- subst y. apply fl_leb_refl.
    + apply IH.
      * rewrite <- Elen. lia.
      * rewrite app_nth1 by exact Hi. exact Hb.
      * intros y Hy. apply in_app_or in Hy. destruct Hy as [Hy | [E | []]].
        -- apply Hall. exact Hy.
        -- subst y. unfold fl_leb. unfold fl_gtb in Eg. rewrite Eg. reflexivity.
Qed.

Lemma argmax_spec (l : list pyfloat) :
  (l <> [] -> (argmax l < length l)%nat)
  /\ forall x, In x l -> fl_leb x (nth (argmax l) l NInf) = true.
Proof.
  destruct l as [ | x l]; [ split; [ congruence | intros y [] ] | ].
  unfold argmax.
  destruct (@argmax_from_spec l [x] x 0%nat) as [H1 H2].
  - simpl. lia.
  - reflexivity.
  - intros y [E | []]. subst. apply fl_leb_refl.
  - cbv zeta in H1, H2. cbn [length app] in H1, H2.
    split; [ intros _; exact H1 | exact H2 ].
Qed.

Lemma in_list_set {A} (l : list A) : forall j a x,
  In x (list_set l j a) -> x = a \/ In x l.
Proof.
  induction l as [ | b l IH]; intros j a x; simpl; [ tauto | ].
  destruct j as [ | j]; simpl.
  - intros [E | Hin]; [ left; congruence | right; right; exact Hin ].
  - intros [E | Hin]; [ right; left; exact E | ].
    destruct (IH _ _ _ Hin); [ left | right; right ]; assumption.
Qed.

Lemma list_set_length {A} (l : list A) : forall j a,
  length (list_set l j a) = length l.
Proof.
  induction l as [ | b l IH]; intros [ | j] a; simpl; try reflexivity.
  rewrite IH. reflexivity.
Qed.

Section Loop.
Variable Interp : Type.
Variable simplex : Interp -> nat -> triangle.
Variable i : Interp.
Variable b : (R * R) * (R * R).
Variable stack_till : nat.

Lemma fill_loop_sorted rounds : forall losses stk B ps ls stk',
  fill_loop simplex rounds i b stack_till losses stk = (ps, ls, stk') ->
  (forall x, In x losses -> fl_leb x B = true) ->
  StronglySorted (fun a c => fl_leb c a = true) ls
  /\ Forall (fun x => fl_leb x B = true) ls
  /\ length ps = length ls
  /\ (length ps <= rounds)%nat
  /\ (forall p, In p ps -> In p (dict_keys stk'))
  /\ (forall p, In p (dict_keys stk) -> In p (dict_keys stk'))
  /\ (length ps = rounds \/ (stack_till <= length stk')%nat).
Proof.
  induction rounds as [ | rounds IH]; intros losses stk B ps ls stk';
    cbn [fill_loop].
  - intros E HB. inversion E; subst.
    repeat split; try constructor; auto. intros p [].
  - set (j := argmax losses).
    set (point_new := unscale b (choose_point_in_triangle (simplex i j) 5)).
    set (loss_new := nth j losses NInf).
    set (stk1 := dict_set stk point_new loss_new).
    intros E HB.
    assert (Hnew : fl_leb loss_new B = true).
    { unfold loss_new, j. clear E. destruct losses as [ | x0 l0].
      - apply fl_leb_ninf.
      - apply HB. apply nth_In.
        apply (proj1 (argmax_spec (x0 :: l0))). discriminate. }
    assert (Hstk1 : forall p, In p (dict_keys stk) -> In p (dict_keys stk1)).
    { intros p Hp. apply dict_set_keys_in. right. exact Hp. }
    assert (Hpn : In point_new (dict_keys stk1)).
    { apply dict_set_keys_in. left. reflexivity. }
    destruct (Nat.leb_spec stack_till (length stk1)) as [Hfull | Hmore].
    + inversion E; subst ps ls stk'.
      split; [ repeat constructor | ].
      split; [ repeat constructor; exact Hnew | ].
      split; [ reflexivity | ]. split; [ simpl; lia | ].
      split; [ intros p [Ep | []]; subst p; exact Hpn | ].
      split; [ exact Hstk1 | right; exact Hfull ].
    + destruct (fill_loop simplex rounds i b stack_till
                  (list_set losses j NInf) stk1) as [[ps' ls'] stk''] eqn:Er.
      inversion E; subst ps ls stk'. clear E.
      destruct (IH _ _ loss_new _ _ _ Er)
        as (Hs & Hf & Hl & Hr & Hp & Hk & Hend).
      { intros x Hx. apply in_list_set in Hx. destruct Hx as [Ex | Hx].
        - subst x. apply fl_leb_ninf.
        - apply (proj2 (argmax_spec losses)). exact Hx. }
      split; [ constructor; [ exact Hs | exact Hf ] | ].
      split.
      { constructor; [ exact Hnew | ].
        eapply Forall_impl; [ | exact Hf ].
        intros x Hx. cbv beta in Hx. eapply fl_leb_trans; eassumption. }
      split; [ simpl; congruence | ]. split; [ simpl; lia | ].
      split.
      { intros p [Ep | Hin]; [ subst p; apply Hk; exact Hpn | apply Hp; exact Hin ]. }
      split; [ intros p Hin; apply Hk, Hstk1, Hin | ].
      destruct Hend as [Hend | Hend]; [ left; simpl; congruence | right; exact Hend ].
Qed.

Lemma unused_positive losses :
  Forall finite_or_used losses -> (1 <= unused losses)%nat ->
  exists r, nth (argmax losses) losses NInf = Fin r.
Proof.
  intros Hall Hcount.
  assert (Hfin : exists r0, In (Fin r0) losses).
  { clear Hall. unfold unused in Hcount. induction losses as [ | x l IH];
      [ simpl in Hcount; lia | ].
    destruct x as [r0 | | ].
    - exists r0. left. reflexivity.
    - simpl in Hcount. destruct (IH Hcount) as (r0 & Hr). exists r0. right. exact Hr.
    - simpl in Hcount. destruct (IH Hcount) as (r0 & Hr). exists r0. right. exact Hr. }
  destruct Hfin as (r0 & Hr0).
  assert (Hne : losses <> []) by (intros E; rewrite E in Hr0; destruct Hr0).
  destruct (argmax_spec losses) as [Hlt Hmax].
  pose proof (Hmax _ Hr0) as Hle.
  assert (Hin : In (nth (argmax losses) losses NInf) losses)
    by (apply nth_In; apply Hlt; exact Hne).
  rewrite Forall_forall in Hall. destruct (Hall _ Hin) as [E | (r & E)].
  - rewrite E in Hle. discriminate.
  - exists r. exact E.
Qed.

Lemma unused_after_use losses : forall j r,
  nth j losses NInf = Fin r ->
  (unused (list_set losses j NInf) = unused losses - 1)%nat
  /\ (1 <= unused losses)%nat.
Proof.
  unfold unused. induction losses as [ | x l IH]; intros j r.
  - destruct j; discriminate.
  - destruct j as [ | j]; cbn [nth list_set].
    + intros E. subst x. cbn [filter length]. lia.
    + intros E. destruct (IH j r E) as [IH1 IH2].
      cbn [filter]. destruct x; cbn [length]; lia.
Qed.

Lemma list_set_finite_or_used losses j :
  Forall finite_or_used losses ->
  Forall finite_or_used (list_set losses j NInf).
Proof.
  intros Hall. apply Forall_forall. intros x Hx.
  apply in_list_set in Hx. destruct Hx as [E | Hx].
  - left. exact E.
  - rewrite Forall_forall in Hall. apply Hall. exact Hx.
Qed.

Lemma fill_loop_losses rounds : forall losses stk ps ls stk',
  fill_loop simplex rounds i b stack_till losses stk = (ps, ls, stk') ->
  Forall finite_or_used losses -> (rounds <= unused losses)%nat ->
  Forall (fun x => exists r, x = Fin r /\ In (Fin r) losses) ls.
Proof.
  induction rounds as [ | rounds IH]; intros losses stk ps ls stk';
    cbn [fill_loop].
  - intros E _ _. inversion E. constructor.
  - set (j := argmax losses).
    set (point_new := unscale b (choose_point_in_triangle (simplex i j) 5)).
    set (loss_new := nth j losses NInf).
    set (stk1 := dict_set stk point_new loss_new).
    intros E Hall Hcount.
    destruct (@unused_positive losses Hall ltac:(lia)) as (r & Er).
    fold j in Er. fold loss_new in Er.
    assert (Hin : In (Fin r) losses).
    { rewrite <- Er. unfold loss_new. apply nth_In.
      apply (proj1 (argmax_spec losses)).
      intros E0. rewrite E0 in Hcount. unfold unused in Hcount.
      simpl in Hcount. lia. }
    destruct (stack_till <=? length stk1)%nat.
    + inversion E; subst. constructor; [ | constructor ].
      exists r. split; [ exact Er | exact Hin ].
    + destruct (fill_loop simplex rounds i b stack_till
                  (list_set losses j NInf) stk1) as [[ps' ls'] stk''] eqn:Eloop.
      inversion E; subst ps ls stk'. clear E.
      destruct (@unused_after_use losses j r Er) as [Hu _].
      assert (Hrest : Forall (fun x => exists r1, x = Fin r1
                                /\ In (Fin r1) (list_set losses j NInf)) ls').
      { eapply IH; [ exact Eloop | apply list_set_finite_or_used; exact Hall | lia ]. }
      constructor.
      * exists r. split; [ exact Er | exact Hin ].
      * eapply Forall_impl; [ | exact Hrest ].
        intros x (r1 & Ex & Hx). exists r1. split; [ exact Ex | ].
        apply in_list_set in Hx. destruct Hx as [E0 | Hx]; [ discriminate | exact Hx ].
Qed.

(** The triangles that the loop picks: each at most once, each the
    largest of those that are left. *)
Lemma fill_loop_choices rounds : forall losses stk ps ls stk',
  fill_loop simplex rounds i b stack_till losses stk = (ps, ls, stk') ->
  Forall finite_or_used losses -> (rounds <= unused losses)%nat ->
  exists js,
    NoDup js
    /\ (forall j, In j js ->
          (j < length losses)%nat /\ exists r, nth j losses NInf = Fin r)
    /\ ps = map (fun j => unscale b (choose_point_in_triangle (simplex i j) 5))
                js
    /\ ls = map (fun j => nth j losses NInf) js
    /\ (forall j' x, (j' < length losses)%nat -> ~ In j' js -> In x ls ->
          fl_leb (nth j' losses NInf) x = true).
Proof.
  induction rounds as [ | rounds IH]; intros losses stk ps ls stk';
    cbn [fill_loop].
  - intros E _ _. inversion E. exists []. split; [ constructor | ].
    split; [ intros j [] | ]. split; [ reflexivity | ].
    split; [ reflexivity | intros j' x _ _ [] ].
  - set (j := argmax losses).
    set (point_new := unscale b (choose_point_in_triangle (simplex i j) 5)).
    set (loss_new := nth j losses NInf).
    set (stk1 := dict_set stk point_new loss_new).
    intros E Hall Hcount.
    destruct (@unused_positive losses Hall ltac:(lia)) as (r & Er).
    fold j in Er. fold loss_new in Er.
    assert (Hne : losses <> []).
    { intros E0. rewrite E0 in Hcount. unfold unused in Hcount.
      simpl in Hcount. lia. }
    assert (Hj : (j < length losses)%nat)
      by (apply (proj1 (argmax_spec losses)); exact Hne).
    assert (Hmax : forall j', (j' < length losses)%nat ->
                     fl_leb (nth j' losses NInf) loss_new = true).
    { intros j' Hj'. apply (proj2 (argmax_spec losses)).
      apply nth_In. exact Hj'. }
    destruct (stack_till <=? length stk1)%nat.
    + inversion E; subst ps ls stk'. exists [j].
      split; [ constructor; [ intros [] | constructor ] | ].
      split.
      { intros j0 [E0 | []]. subst j0. split; [ exact Hj | ].
        exists r. exact Er. }
      split; [ reflexivity | ]. split; [ reflexivity | ].
      intros j' x Hj' _ [Ex | []]. subst x. apply Hmax. exact Hj'.
    + destruct (fill_loop simplex rounds i b stack_till
                  (list_set losses j NInf) stk1) as [[ps' ls'] stk''] eqn:Eloop.
      inversion E; subst ps ls stk'. clear E.
      destruct (@unused_after_use losses j r Er) as [Hu _].
      destruct (IH _ _ _ _ _ Eloop) as (js & Hnd & Hjs & Eps & Els & Hrest).
      { apply list_set_finite_or_used. exact Hall. }
      { lia. }
      assert (Hother : forall j0, In j0 js ->
                j0 <> j /\ (j0 < length losses)%nat
                /\ nth j0 (list_set losses j NInf) NInf = nth j0 losses NInf
                /\ exists r0, nth j0 losses NInf = Fin r0).
      { intros j0 Hin. destruct (Hjs j0 Hin) as (Hlt & r0 & Er0).
        rewrite list_set_length in Hlt.
        assert (Hne0 : j0 <> j).
        { intros E0. subst j0. rewrite nth_list_set_same in Er0 by exact Hj.
          discriminate. }
        assert (Enth : nth j0 (list_set losses j NInf) NInf = nth j0 losses NInf)
          by (apply nth_list_set_other; congruence).
        split; [ exact Hne0 | ]. split; [ exact Hlt | ].
        split; [ exact Enth | ]. exists r0. rewrite <- Enth. exact Er0. }
      exists (j :: js). split.
      { constructor; [ | exact Hnd ].
        intros Hin. destruct (Hother j Hin) as [N _]. congruence. }
      split.
      { intros j0 [E0 | Hin].
        - subst j0. split; [ exact Hj | ]. exists r. exact Er.
        - destruct (Hother j0 Hin) as (_ & Hlt & _ & Hr0). split; assumption. }
      split; [ cbn [map]; rewrite Eps; reflexivity | ].
      assert (Els' : ls' = map (fun j0 => nth j0 losses NInf) js).
      { rewrite Els. apply map_ext_in. intros j0 Hin.
        destruct (Hother j0 Hin) as (_ & _ & Enth & _). exact Enth. }
      split; [ cbn [map]; rewrite Els'; reflexivity | ].
      intros j' x Hj' Hnot [Ex | Hx].
      * subst x. apply Hmax. exact Hj'.
      * assert (Hne' : j' <> j) by (intros E0; apply Hnot; left; congruence).
        rewrite <- (@nth_list_set_other _ losses j j' NInf NInf)
          by congruence.
        apply Hrest.
        -- rewrite list_set_length. exact Hj'.
        -- intros Hin. apply Hnot. right. exact Hin.
        -- exact Hx.
Qed.

End Loop.

Section Engine2D.
Variable V : Type.
Variable zeros : V.
Variable Interp : Type.
Variable LinearNDInterpolator : list point -> list V -> result Interp.
Variable ip_call : Interp -> list point -> list V.
Variable simplex : Interp -> nat -> triangle.

Lemma ip_fields (l : learner V Interp) i l' :
  ip LinearNDInterpolator l = Returned (i, l') ->
  data l' = data l /\ stack l' = stack l /\ interp l' = interp l
  /\ loss_per_triangle l' = loss_per_triangle l
  /\ bounds l' = bounds l.
Proof.
  unfold ip. destruct (ip_cache l).
  - intros E. inversion E; subst. auto.
  - destruct (scale _ _); cbn [bind]; [ | discriminate ].
    destruct (LinearNDInterpolator _ _); cbn [bind]; [ | discriminate ].
    intros E. inversion E; subst. cbn. auto.
Qed.

Lemma data_combined_fields (l : learner V Interp) dc l' :
  data_combined zeros LinearNDInterpolator ip_call l = Returned (dc, l') ->
  data l' = data l /\ stack l' = stack l /\ interp l' = interp l
  /\ loss_per_triangle l' = loss_per_triangle l
  /\ bounds l' = bounds l.
Proof.
  unfold data_combined. destruct (interp l) as [ | p pts] eqn:Ei.
  - intros E. inversion E; subst. auto.
  - destruct (bounds_are_done l).
    + destruct (ip LinearNDInterpolator l) as [[i0 l0] | ] eqn:Eip;
        cbn [bind]; [ | discriminate ].
      destruct (scale _ _); cbn [bind]; [ | discriminate ].
      intros E. inversion E; subst.
      destruct (ip_fields _ Eip) as (H1 & H2 & H3 & H4 & H5).
      rewrite H3. auto.
    + cbn [bind]. intros E. inversion E; subst. auto.
Qed.

Lemma ip_combined_fields (l : learner V Interp) i l' :
  ip_combined zeros LinearNDInterpolator ip_call l = Returned (i, l') ->
  data l' = data l /\ stack l' = stack l /\ interp l' = interp l
  /\ loss_per_triangle l' = loss_per_triangle l
  /\ bounds l' = bounds l.
Proof.
  unfold ip_combined. destruct (ip_combined_cache l).
  - intros E. inversion E; subst. auto.
  - destruct (data_combined zeros LinearNDInterpolator ip_call l)
      as [[dc l0] | ] eqn:Ed; cbn [bind]; [ | discriminate ].
    destruct (scale _ _); cbn [bind]; [ | discriminate ].
    destruct (LinearNDInterpolator _ _); cbn [bind]; [ | discriminate ].
    intros E. inversion E; subst. cbn.
    apply (data_combined_fields _ Ed).
Qed.

Lemma unused_all (rs : list R) : unused (map Fin rs) = length rs.
Proof.
  unfold unused. induction rs as [ | r rs IH]; simpl; [ reflexivity | ].
  rewrite IH. reflexivity.
Qed.

Lemma nth_map_Fin (rs : list R) j :
  (j < length rs)%nat -> nth j (map Fin rs) NInf = Fin (nth j rs 0).
Proof.
  intros Hj. rewrite (nth_indep _ NInf (Fin 0)) by (rewrite length_map; exact Hj).
  apply map_nth.
Qed.

Lemma fl_leb_Fin a c : fl_leb (Fin a) (Fin c) = true -> a <= c.
Proof.
  unfold fl_leb, fl_ltb, Rltb. destruct (Rlt_dec c a); [ discriminate | lra ].
Qed.

(** X18. What [_fill_stack] returns when it returns.  Every candidate
    comes from a triangle of the interpolant of the combined data, and no
    triangle gives two: the candidates are the points placed in the
    triangles [js], the losses returned are the losses of these
    triangles, in order of decreasing loss, and no triangle that was left
    out has a greater loss than one that was taken.  Every candidate is
    on the stack afterwards, and nothing that was on the stack is lost.
    The filling stops when the stack has reached [stack_till] or every
    triangle has given its candidate.  The real and the pending points
    are not touched. *)
Theorem fill_stack_orders_candidates (l : learner V Interp)
  (stack_till : nat) (ps : list point) (ls : list pyfloat)
  (l' : learner V Interp) :
  fill_stack zeros LinearNDInterpolator ip_call simplex l stack_till
  = Returned (ps, ls, l') ->
  exists i l0 js,
    ip_combined zeros LinearNDInterpolator ip_call l = Returned (i, l0)
    /\ NoDup js
    /\ (forall j, In j js -> (j < length (loss_per_triangle l i))%nat)
    /\ ps = map (fun j => unscale (bounds l)
                            (choose_point_in_triangle (simplex i j) 5)) js
    /\ ls = map (fun j => Fin (nth j (loss_per_triangle l i) 0)) js
    /\ StronglySorted (fun a c => fl_leb c a = true) ls
    /\ (forall j' j, (j' < length (loss_per_triangle l i))%nat ->
          ~ In j' js -> In j js ->
          nth j' (loss_per_triangle l i) 0 <= nth j (loss_per_triangle l i) 0)
    /\ (forall p, In p ps -> In p (dict_keys (stack l')))
    /\ (forall p, In p (dict_keys (stack l)) -> In p (dict_keys (stack l')))
    /\ ((forall j, (j < length (loss_per_triangle l i))%nat -> In j js)
        \/ (stack_till <= length (stack l'))%nat)
    /\ data l' = data l /\ interp l' = interp l.
Proof.
  unfold fill_stack.
  destruct (length (data l) + length (interp l) <? 3)%nat; [ discriminate | ].
  destruct (ip_combined zeros LinearNDInterpolator ip_call l)
    as [[i l0] | ] eqn:Eip; cbn [bind]; [ | discriminate ].
  destruct (ip_combined_fields _ Eip) as (F1 & F2 & F3 & F4 & F5).
  set (lpt := loss_per_triangle l i).
  destruct (fill_loop simplex (length (map Fin lpt)) i
              (bounds l) stack_till (map Fin lpt)
              (stack l0)) as [[ps0 ls0] stk] eqn:Eloop.
  intros E. inversion E; subst ps0 ls0 l'. clear E.
  destruct (@fill_loop_sorted Interp simplex i (bounds l) stack_till _ _ _ PInf
              _ _ _ Eloop)
    as (Hs & _ & Hl & Hr & Hp & Hk & Hend).
  { intros x _. unfold fl_leb. destruct x; reflexivity. }
  destruct (@fill_loop_choices Interp simplex i (bounds l) stack_till _ _ _
              _ _ _ Eloop) as (js & Hnd & Hjs & Eps & Els & Hrest).
  { apply Forall_forall. intros x Hx. apply in_map_iff in Hx.
    destruct Hx as (r & Er & _). right. exists r. symmetry. exact Er. }
  { rewrite unused_all, length_map. lia. }
  rewrite length_map in *. cbn [with_stack stack data interp].
  assert (Hlt : forall j, In j js -> (j < length lpt)%nat).
  { intros j Hin. apply (Hjs j Hin). }
  assert (Els' : ls = map (fun j => Fin (nth j lpt 0)) js).
  { rewrite Els. apply map_ext_in. intros j Hin. apply nth_map_Fin.
    apply Hlt. exact Hin. }
  exists i, l0, js. split; [ reflexivity | ]. split; [ exact Hnd | ].
  split; [ exact Hlt | ]. split; [ exact Eps | ]. split; [ exact Els' | ].
  split; [ exact Hs | ]. split.
  { intros j' j Hj' Hnot Hin. apply fl_leb_Fin.
    rewrite <- !nth_map_Fin by (try exact Hj'; apply Hlt; exact Hin).
    apply Hrest; [ exact Hj' | exact Hnot | ].
    rewrite Els. apply in_map_iff. exists j. split; [ reflexivity | exact Hin ]. }
  split; [ exact Hp | ].
  split; [ intros p Hin; apply Hk; rewrite F2; exact Hin | ].
  split; [ | split; assumption ].
  destruct Hend as [Hall | Hfull]; [ left | right; exact Hfull ].
  intros j Hj. destruct (in_dec Nat.eq_dec j js) as [Hin | Hnot]; [ exact Hin | ].
  exfalso. fold lpt in Hj.
  assert (Hincl : incl (j :: js) (seq 0 (length lpt))).
  { intros k [Ek | Hk']; apply in_seq; [ subst k | apply Hlt in Hk' ]; lia. }
  assert (Hnd' : NoDup (j :: js)) by (constructor; assumption).
  pose proof (NoDup_incl_length Hnd' Hincl) as Hle.
  rewrite length_seq in Hle. cbn [length] in Hle.
  rewrite Eps, length_map in Hall. lia.
Qed.

(** *** The corners *)

Lemma loss_infinite (l : learner V Interp) (real : bool) c :
  In c (bounds_points l) ->
  In c (interp l) \/ In c (dict_keys (stack l)) ->
  loss zeros LinearNDInterpolator ip_call l real = Returned (PInf, l).
Proof.
  intros Hc Hin.
  assert (Hd : bounds_are_done l = false).
  { apply bounds_are_done_false. exists c. split; assumption. }
  unfold loss. rewrite Hd. reflexivity.
Qed.

Lemma corners_distinct (b : (R * R) * (R * R)) :
  fst (fst b) <> snd (fst b) -> fst (snd b) <> snd (snd b) ->
  NoDup (corners b).
Proof.
  destruct b as [[a1 b1] [a2 b2]]. cbn [fst snd corners]. intros H1 H2.
  repeat constructor; simpl; intros H; decompose [or] H;
    try contradiction;
    match goal with E : (_, _) = (_, _) |- _ => inversion E; congruence end.
Qed.

(** X19. A new learner on bounds that are not degenerate proposes its
    four corners first, the last corner of the product of the bounds
    first, each with an infinite loss improvement; this needs no
    interpolator.  After such a call, whether it added the points or not,
    the loss of the learner is still infinite. *)
Theorem new_learner2d_proposes_corners (lpt : Interp -> list R)
  (b : (R * R) * (R * R)) (fuel n : nat) (add : bool) :
  fst (fst b) <> snd (fst b) -> fst (snd b) <> snd (snd b) ->
  (n <= 4)%nat ->
  exists l',
    choose_points zeros LinearNDInterpolator ip_call simplex fuel
      (init V lpt b) n add
    = Some (Returned (firstn n (corners_last_first b), repeat PInf n, l'))
    /\ data l' = []
    /\ forall real,
         loss zeros LinearNDInterpolator ip_call l' real = Returned (PInf, l').
Proof.
  intros H1 H2 Hn.
  pose proof (corners_distinct b H1 H2) as Hnd.
  set (l := init V lpt b).
  assert (Hkeys : dict_keys (stack l) = corners b).
  { unfold l, init. cbn [stack]. unfold dict_keys. rewrite map_map.
    apply map_id. }
  assert (Hlen : length (stack l) = 4%nat).
  { unfold l, init. cbn [stack]. rewrite length_map.
    destruct b as [[a1 b1] [a2 b2]]. reflexivity. }
  assert (Htop : dict_keys (firstn n (rev (stack l)))
                 = firstn n (corners_last_first b)
                 /\ dict_values (firstn n (rev (stack l))) = repeat PInf n).
  { unfold l, init, corners_last_first. cbn [stack].
    destruct b as [[a1 b1] [a2 b2]].
    destruct n as [ | [ | [ | [ | [ | n]]]]]; try lia; split; reflexivity. }
  destruct Htop as [Hk Hv].
  assert (Hfirst : In (fst (fst b), fst (snd b)) (bounds_points l)).
  { unfold l, init. cbn [bounds_points].
    destruct b as [[a1 b1] [a2 b2]]. left. reflexivity. }
  destruct add.
  - destruct (@serves_from_stack V zeros Interp LinearNDInterpolator ip_call
                simplex fuel l n)
      as (l' & E & _ & Hd & Hs & Hi & _ & _ & Hb).
    { rewrite Hkeys. exact Hnd. }
    { lia. }
    rewrite Hk, Hv in E. exists l'. split; [ exact E | ].
    split; [ rewrite Hd; reflexivity | ].
    intros real. apply loss_infinite with (c := (fst (fst b), fst (snd b))).
    + rewrite Hb. exact Hfirst.
    + rewrite Hs, Hlen.
      destruct (Nat.eq_dec n 4) as [E4 | N4].
      * left. apply Hi. right. rewrite Hk. subst n.
        unfold corners_last_first. destruct b as [[a1 b1] [a2 b2]].
        simpl. auto.
      * right. unfold l, init. cbn [stack].
        destruct b as [[a1 b1] [a2 b2]].
        destruct n as [ | [ | [ | [ | n]]]]; try lia; simpl; auto.
  - destruct (@dry_run_from_stack V zeros Interp LinearNDInterpolator ip_call
                simplex fuel l n)
      as (l' & E & Hd & _ & _ & Hperm & _ & _ & Hb).
    { rewrite Hkeys. exact Hnd. }
    { lia. }
    { intros p _. unfold l, init. cbn [interp]. intros []. }
    rewrite Hk, Hv in E. exists l'. split; [ exact E | ].
    split; [ rewrite Hd; reflexivity | ].
    intros real. apply loss_infinite with (c := (fst (fst b), fst (snd b))).
    + rewrite Hb. exact Hfirst.
    + right.
      apply (Permutation_in _ (Permutation_sym (Permutation_map fst Hperm))).
      fold (dict_keys (stack l)). rewrite Hkeys.
      destruct b as [[a1 b1] [a2 b2]]. left. reflexivity.
Qed.

(** *** Real values at the corners *)

Lemma add_value_keeps_clear (l : learner V Interp) p v q :
  ~ In q (interp l) -> ~ In q (dict_keys (stack l)) ->
  ~ In q (interp (add_point l p (Some v)))
  /\ ~ In q (dict_keys (stack (add_point l p (Some v)))).
Proof.
  intros Hi Hs. cbn [add_point interp stack]. split.
  - intros Hin. apply set_discard_in in Hin. apply Hi, Hin.
  - intros Hin. apply dict_del_keys_sub in Hin. exact (Hs Hin).
Qed.

Lemma add_value_clears (l : learner V Interp) p v :
  NoDup (dict_keys (stack l)) ->
  NoDup (dict_keys (stack (add_point l p (Some v))))
  /\ ~ In p (interp (add_point l p (Some v)))
  /\ ~ In p (dict_keys (stack (add_point l p (Some v)))).
Proof.
  intros Hnd. cbn [add_point interp stack]. split; [ | split ].
  - apply dict_del_NoDup. exact Hnd.
  - intros Hin. apply set_discard_in in Hin. destruct Hin as [_ N]. congruence.
  - intros Hin. apply dict_del_keys_in in Hin; [ | exact Hnd ].
    destruct Hin as [N _]. congruence.
Qed.

Lemma add_values_clear pvs : forall l : learner V Interp,
  NoDup (dict_keys (stack l)) ->
  let l' := fold_left (fun l pv => add_point l (fst pv) (Some (snd pv))) pvs l in
  NoDup (dict_keys (stack l'))
  /\ bounds_points l' = bounds_points l
  /\ forall q,
       In q (map fst pvs)
       \/ (~ In q (interp l) /\ ~ In q (dict_keys (stack l))) ->
       ~ In q (interp l') /\ ~ In q (dict_keys (stack l')).
Proof.
  induction pvs as [ | [p v] pvs IH]; intros l Hnd; cbn [fold_left fst snd map].
  - split; [ exact Hnd | ]. split; [ reflexivity | ].
    intros q [[] | H]. exact H.
  - destruct (add_value_clears l p v Hnd) as (Hnd1 & Hc1 & Hc2).
    destruct (IH (add_point l p (Some v)) Hnd1) as (Hnd' & Hb & Hq).
    cbv zeta in *. split; [ exact Hnd' | ]. split; [ rewrite Hb; reflexivity | ].
    intros q [[Eq | Hin] | [Hi Hs]].
    + subst q. apply Hq. right. split; assumption.
    + apply Hq. left. exact Hin.
    + apply Hq. right. apply add_value_keeps_clear; assumption.
Qed.

(** X20. Real values at the corners end the infinite loss.  After a real
    value was added for each corner, no corner is pending or on the
    stack and [bounds_are_done] holds; further real values keep it so.
    Asking for a corner again (adding it as pending) undoes it. *)
Theorem corner_values_finish_bounds (l : learner V Interp) (vs : list V) :
  NoDup (dict_keys (stack l)) ->
  length vs = length (bounds_points l) ->
  bounds_are_done
    (fold_left (fun l pv => add_point l (fst pv) (Some (snd pv)))
               (combine (bounds_points l) vs) l) = true
  /\ (forall (l0 : learner V Interp) p v,
        bounds_are_done l0 = true ->
        bounds_are_done (add_point l0 p (Some v)) = true)
  /\ (forall (l0 : learner V Interp) c,
        In c (bounds_points l0) ->
        bounds_are_done (add_point l0 c None) = false).
Proof.
  intros Hnd Hlen. split; [ | split ].
  - destruct (add_values_clear (combine (bounds_points l) vs) l Hnd)
      as (_ & Hb & Hq). cbv zeta in Hb, Hq.
    destruct (bounds_are_done _) eqn:Ed; [ reflexivity | exfalso ].
    apply bounds_are_done_false in Ed. destruct Ed as (c & Hc & Hin).
    rewrite Hb in Hc.
    assert (Hfst : map fst (combine (bounds_points l) vs) = bounds_points l).
    { clear - Hlen. revert vs Hlen.
      induction (bounds_points l) as [ | p ps IH]; intros [ | v vs] Hlen;
        simpl in *; try reflexivity; try lia.
      rewrite IH by lia. reflexivity. }
    destruct (Hq c) as [Hi Hs]; [ left; rewrite Hfst; exact Hc | ].
    destruct Hin; contradiction.
  - intros l0 p v Hd.
    destruct (bounds_are_done (add_point l0 p (Some v))) eqn:Ed;
      [ reflexivity | exfalso ].
    apply bounds_are_done_false in Ed. destruct Ed as (c & Hc & Hin).
    cbn [add_point bounds_points interp stack] in Hc, Hin.
    assert (Hf : bounds_are_done l0 = false).
    { apply bounds_are_done_false. exists c. split; [ exact Hc | ].
      destruct Hin as [Hin | Hin].
      - left. apply set_discard_in in Hin. apply Hin.
      - right. apply dict_del_keys_sub in Hin. exact Hin. }
    congruence.
  - intros l0 c Hc. apply bounds_are_done_false. exists c.
    cbn [add_point bounds_points interp]. split; [ exact Hc | ].
    left. apply set_add_in. right. reflexivity.
Qed.

End Engine2D.
End FillStack.

(** *** Witnesses on the unit square *)

Lemma fresh_stack_distinct : NoDup (dict_keys (Learner2D.stack fresh2d)).
Proof.
  change (dict_keys (Learner2D.stack fresh2d))
    with (Learner2D.corners unit_square).
  apply corners_distinct; simpl; lra.
Qed.

(** X15 (witness). Two points asked of a new learner on the unit
    square. *)
Lemma learner2d_serves_from_stack_witness :
  exists l',
    Learner2D.choose_points 0 no_interpolator (fun _ _ => [])
      (fun _ _ => right_triangle) 0 fresh2d 2 true
    = Some (Returned
              (dict_keys (firstn 2 (rev (Learner2D.stack fresh2d))),
               dict_values (firstn 2 (rev (Learner2D.stack fresh2d))), l')).
Proof.
  destruct (@learner2d_serves_from_stack R 0 unit no_interpolator
              (fun _ _ => []) (fun _ _ => right_triangle) 0%nat fresh2d 2%nat
              fresh_stack_distinct) as (l' & E & _).
  - simpl. lia.
  - exists l'. exact E.
Defined.

(** X16 (witness). The same two points in a dry run. *)
Lemma learner2d_dry_run_reorders_stack_witness :
  exists l',
    Learner2D.choose_points 0 no_interpolator (fun _ _ => [])
      (fun _ _ => right_triangle) 0 fresh2d 2 false
    = Some (Returned
              (dict_keys (firstn 2 (rev (Learner2D.stack fresh2d))),
               dict_values (firstn 2 (rev (Learner2D.stack fresh2d))), l'))
    /\ Learner2D.stack l'
       = firstn 2 (Learner2D.stack fresh2d)
         ++ firstn 2 (rev (Learner2D.stack fresh2d)).
Proof.
  destruct (@learner2d_dry_run_reorders_stack R 0 unit no_interpolator
              (fun _ _ => []) (fun _ _ => right_triangle) 0%nat fresh2d 2%nat
              fresh_stack_distinct) as (l' & E & _ & _ & Hs & _).
  - simpl. lia.
  - intros p _ [].
  - exists l'. split; [ exact E | exact Hs ].
Defined.

(** X17 (witness). The learner whose corners were handed out and
    forgotten. *)
Lemma learner2d_too_few_points_witness :
  Learner2D.choose_points 0 no_interpolator (fun _ _ => [])
    (fun _ _ => right_triangle) 1 forgotten2d 1 true
  = Some (Raised ValueError).
Proof.
  apply (@learner2d_too_few_points R 0 unit no_interpolator (fun _ _ => [])
           (fun _ _ => right_triangle) 0%nat forgotten2d 1%nat true).
  - reflexivity.
  - simpl. lia.
  - lia.
Defined.

(** X18 (witness). Three real points and three triangles with the losses
    2, 1 and 3, filled until the stack holds two points: the candidates
    come from two different triangles. *)
Lemma fill_stack_orders_candidates_witness :
  exists ps ls l' js,
    Learner2D.fill_stack 0 stub_interpolator (fun _ _ => [])
      (fun _ _ => right_triangle) three_points 2
    = Returned (ps, ls, l')
    /\ NoDup js
    /\ ls = map (fun j => Fin (nth j [2; 1; 3] 0)) js
    /\ StronglySorted (fun a c => fl_leb c a = true) ls.
Proof.
  assert (H : exists ps ls l',
             Learner2D.fill_stack 0 stub_interpolator (fun _ _ => [])
               (fun _ _ => right_triangle) three_points 2
             = Returned (ps, ls, l')).
  { unfold Learner2D.fill_stack, three_points.
    cbn [Learner2D.data Learner2D.interp length Nat.add Nat.ltb Nat.leb].
    unfold Learner2D.ip_combined, Learner2D.data_combined.
    cbn [Learner2D.ip_combined_cache Learner2D.interp Learner2D.data bind
         Learner2D.bounds].
    unfold Learner2D.scale, stub_interpolator. cbn [dict_keys map bind].
    destruct (Learner2D.fill_loop _ _ _ _ _ _ _) as [[ps ls] stk].
    eexists. eexists. eexists. reflexivity. }
  destruct H as (ps & ls & l' & E).
  destruct (@fill_stack_orders_candidates R 0 unit stub_interpolator
              (fun _ _ => []) (fun _ _ => right_triangle) three_points 2%nat
              ps ls l' E) as (i & l0 & js & _ & Hnd & _ & _ & Els & Hs & _).
  exists ps, ls, l', js. split; [ exact E | ]. split; [ exact Hnd | ].
  split; [ exact Els | exact Hs ].
Defined.

(** X19 (witness). The unit square. *)
Lemma new_learner2d_proposes_corners_witness :
  exists l',
    Learner2D.choose_points 0 no_interpolator (fun _ _ => [])
      (fun _ _ => right_triangle) 0 fresh2d 4 true
    = Some (Returned (firstn 4 (corners_last_first unit_square),
                      repeat PInf 4, l')).
Proof.
  destruct (@new_learner2d_proposes_corners R 0 unit no_interpolator
              (fun _ _ => []) (fun _ _ => right_triangle) (fun _ => [])
              unit_square 0%nat 4%nat true) as (l' & E & _).
  - simpl. lra.
  - simpl. lra.
  - lia.
  - exists l'. exact E.
Defined.

(** X20 (witness). The value 0 at each corner of the unit square. *)
Lemma corner_values_finish_bounds_witness :
  Learner2D.bounds_are_done
    (fold_left (fun l pv => Learner2D.add_point l (fst pv) (Some (snd pv)))
               (combine (Learner2D.bounds_points fresh2d) [0; 0; 0; 0])
               fresh2d) = true.
Proof.
  refine (proj1 (@corner_values_finish_bounds R unit fresh2d [0; 0; 0; 0]
                   fresh_stack_distinct _)).
  reflexivity.
Defined.

(** ** Balancing learner *)

Section BalancingFacts.
Variables L X Y LI : Type.
Variable cc : L -> nat -> bool -> result (list X * list LI * L).
Variable ca : L -> X -> option Y -> result L.
Variable gt : LI -> LI -> result bool.

Lemma propose_frame indices : forall (s s' : store L) r,
  propose cc s indices = (s', r) ->
  (forall o, ~ In o indices -> s' o = s o)
  /\ forall ps, r = Returned ps ->
       forall c, In c ps -> In (fst (fst c)) indices.
Proof.
  induction indices as [ | index rest IH]; intros s s' r; cbn [propose].
  - intros E. inversion E; subst. split; [ reflexivity | ].
    intros ps Eps. inversion Eps. intros c [].
  - destruct (cc (s index) 1 false) as [[[point li] l'] | e].
    + destruct li as [ | li0 lis]; [ | destruct point as [ | p pts] ].
      * intros E. inversion E; subst. split; [ | discriminate ].
        intros o Ho. apply setstate_other. intros Eo. apply Ho. left. congruence.
      * intros E. inversion E; subst. split; [ | discriminate ].
        intros o Ho. apply setstate_other. intros Eo. apply Ho. left. congruence.
      * destruct (propose cc (setstate s index l') rest) as [s'' [ps | e]] eqn:Er;
          intros E; inversion E; subst; clear E;
          destruct (IH _ _ _ Er) as [Hf Hi].
        -- split.
           ++ intros o Ho. rewrite Hf by (intros Hr; apply Ho; right; exact Hr).
              apply setstate_other. intros Eo. apply Ho. left. congruence.
           ++ intros ps0 Eps. inversion Eps; subst. intros c [Ec | Hc].
              ** subst c. left. reflexivity.
              ** right. apply (Hi ps eq_refl c Hc).
        -- split; [ | discriminate ].
           intros o Ho. rewrite Hf by (intros Hr; apply Ho; right; exact Hr).
           apply setstate_other. intros Eo. apply Ho. left. congruence.
    + intros E. inversion E; subst. split; [ reflexivity | discriminate ].
Qed.

Lemma max_by_key_in (l : list ((nat * X) * LI)) : forall best c,
  max_by_key gt best l = Returned c -> c = best \/ In c l.
Proof.
  induction l as [ | d l IH]; intros best c; cbn [max_by_key].
  - intros E. inversion E. left. reflexivity.
  - destruct (gt (snd d) (snd best)) as [g | e]; cbn [bind]; [ | discriminate ].
    intros E. apply IH in E. destruct E as [E | E]; [ | right; right; exact E ].
    destruct g; [ right; left; congruence | left; exact E ].
Qed.

Lemma choose_and_add_frame k n : forall (s s' : store L) r,
  choose_and_add_points cc ca gt k n s = (s', r) ->
  forall o, ~ In o (seq 0 k) -> s' o = s o.
Proof.
  induction n as [ | n IH]; intros s s' r; cbn [choose_and_add_points].
  - intros E. inversion E. reflexivity.
  - destruct (propose cc s (seq 0 k)) as [s1 [[ | c cs] | e]] eqn:Ep;
      try (intros E; inversion E; subst;
           apply (proj1 (propose_frame _ _ Ep))).
    destruct (propose_frame _ _ Ep) as [Hf Hi].
    destruct (max_by_key gt c cs) as [[x li] | e] eqn:Em;
      [ | intros E; inversion E; subst; exact Hf ].
    assert (Hx : In (fst x) (seq 0 k)).
    { apply max_by_key_in in Em.
      apply (Hi (c :: cs) eq_refl (x, li)).
      destruct Em as [E | E]; [ left; congruence | right; exact E ]. }
    unfold balancing_add_point.
    destruct (ca (s1 (fst x)) (snd x) None) as [l' | e].
    + destruct (choose_and_add_points cc ca gt k n (setstate s1 (fst x) l'))
        as [s3 [[points none] | e]] eqn:Er;
        intros E; inversion E; subst; clear E;
        intros o Ho; rewrite (IH _ _ _ Er o Ho), setstate_other;
        try (apply Hf; exact Ho); intros Eo; apply Ho; congruence.
    + intros E; inversion E; subst. exact Hf.
Qed.

(** X21. A dry run of the balancing learner.  [choose_points(n,
    add_data=False)] gives back what the call that adds the points gives
    back, also when a child raises, and afterwards every learner is in
    the state in which it was before: the children's own dry runs and the
    points added on the way are undone. *)
Theorem balancing_dry_run_leaves_learners (k n : nat) (s : store L) :
  snd (balancing_choose_points cc ca gt k n false s)
  = snd (balancing_choose_points cc ca gt k n true s)
  /\ forall o, fst (balancing_choose_points cc ca gt k n false s) o = s o.
Proof.
  unfold balancing_choose_points. cbn [negb]. unfold restore.
  destruct (choose_and_add_points cc ca gt k n s) as [s' r] eqn:E.
  cbn [fst snd]. split; [ reflexivity | ].
  intros o. destruct (finally_restores s (seq 0 k) s') as [Hin Hout].
  cbv zeta in Hin, Hout.
  destruct (in_dec Nat.eq_dec o (seq 0 k)) as [Ho | Ho].
  - apply Hin. exact Ho.
  - rewrite (Hout o Ho). eapply choose_and_add_frame; eassumption.
Qed.

End BalancingFacts.

Section BalancingEdges.

Lemma propose_average indices : forall s : store AverageLearner.learner,
  exists s' ps,
    propose AverageLearner.choose_points s indices = (s', Returned ps)
    /\ length ps = length indices
    /\ Forall (fun c => snd c = None) ps.
Proof.
  induction indices as [ | index rest IH]; intros s; cbn [propose].
  - exists s, []. repeat split. constructor.
  - unfold AverageLearner.choose_points at 1. cbn [bind repeat].
    unfold AverageLearner.range. cbn [seq map].
    destruct (IH (setstate s index (s index))) as (s' & ps & E & Hl & Hn).
    rewrite E. eexists. eexists. split; [ reflexivity | ].
    split; [ simpl; congruence | ]. constructor; [ reflexivity | exact Hn ].
Qed.

Lemma snd_restore {L A} (learners : list nat)
  (body : store L -> store L * result A) (s : store L) :
  snd (restore learners body s) = snd (body s).
Proof. unfold restore. destruct (body s). reflexivity. Qed.

(** X22. The ends of [choose_points] of the balancing learner.  Asked for
    no point it returns an empty list (and [None]).  Without learners it
    raises [ValueError] as soon as a point is asked for.  Over two or more
    scalar-average learners it raises [TypeError]: their loss
    improvements are [None], which [max] cannot order. *)
Theorem balancing_choose_points_ends :
  (forall (L X Y LI : Type)
          (cc : L -> nat -> bool -> result (list X * list LI * L))
          (ca : L -> X -> option Y -> result L)
          (gt : LI -> LI -> result bool) k add (s : store L),
      snd (balancing_choose_points cc ca gt k 0 add s) = Returned ([], None))
  /\ (forall (L X Y LI : Type)
             (cc : L -> nat -> bool -> result (list X * list LI * L))
             (ca : L -> X -> option Y -> result L)
             (gt : LI -> LI -> result bool) n add (s : store L),
         snd (balancing_choose_points cc ca gt 0 (S n) add s)
         = Raised ValueError)
  /\ (forall k n add (s : store AverageLearner.learner),
         (2 <= k)%nat ->
         snd (balancing_choose_points AverageLearner.choose_points
                AverageLearner.add_point_r none_gtb k (S n) add s)
         = Raised TypeError).
Proof.
  split; [ | split ].
  - intros. unfold balancing_choose_points.
    destruct add; cbn [negb]; [ reflexivity | ].
    rewrite snd_restore. reflexivity.
  - intros. unfold balancing_choose_points.
    destruct add; cbn [negb]; [ reflexivity | ].
    rewrite snd_restore. reflexivity.
  - intros k n add s Hk.
    assert (H : snd (choose_and_add_points AverageLearner.choose_points
                       AverageLearner.add_point_r none_gtb k (S n) s)
                = Raised TypeError).
    { cbn [choose_and_add_points].
      destruct (propose_average (seq 0 k) s) as (s' & ps & E & Hl & Hn).
      rewrite E. rewrite length_seq in Hl.
      destruct ps as [ | c [ | d ps]]; simpl in Hl; try lia.
      inversion Hn as [ | ? ? Hc Hn']. inversion Hn' as [ | ? ? Hd _]. subst.
      cbn [max_by_key]. rewrite Hc, Hd. reflexivity. }
    unfold balancing_choose_points. destruct add; cbn [negb]; [ exact H | ].
    rewrite snd_restore. exact H.
Qed.

End BalancingEdges.

Lemma Forall2_right {A B} (R : A -> B -> Prop) l1 l2 :
  Forall2 R l1 l2 -> forall y, In y l2 -> exists x, In x l1 /\ R x y.
Proof.
  induction 1 as [ | a b l1 l2 Hab _ IH]; intros y; [ intros [] | ].
  intros [E | Hy].
  - subst. exists a. split; [ left; reflexivity | exact Hab ].
  - destruct (IH y Hy) as (x & Hx & Hr). exists x. split; [ right; exact Hx | exact Hr ].
Qed.

Lemma Forall2_left {A B} (R : A -> B -> Prop) l1 l2 :
  Forall2 R l1 l2 -> forall x, In x l1 -> exists y, In y l2 /\ R x y.
Proof.
  induction 1 as [ | a b l1 l2 Hab _ IH]; intros x; [ intros [] | ].
  intros [E | Hx].
  - subst. exists b. split; [ left; reflexivity | exact Hab ].
  - destruct (IH x Hx) as (y & Hy & Hr). exists y. split; [ right; exact Hy | exact Hr ].
Qed.

Section BalancingLossFacts.
Variable L : Type.
Variable child_loss : L -> bool -> result (pyfloat * L).

Lemma fl_max2_spec a b :
  fl_leb a (fl_max2 a b) = true /\ fl_leb b (fl_max2 a b) = true
  /\ (fl_max2 a b = a \/ fl_max2 a b = b).
Proof.
  unfold fl_max2, fl_gtb. destruct (fl_ltb a b) eqn:E.
  - split; [ apply fl_ltb_leb; exact E | ]. split; [ apply fl_leb_refl | auto ].
  - split; [ apply fl_leb_refl | ]. split; [ | auto ].
    unfold fl_leb. rewrite E. reflexivity.
Qed.

Lemma fold_fl_max_spec vs : forall v,
  let m := fold_left fl_max2 vs v in
  In m (v :: vs) /\ forall x, In x (v :: vs) -> fl_leb x m = true.
Proof.
  induction vs as [ | w vs IH]; intros v; cbn [fold_left].
  - split; [ left; reflexivity | ].
    intros x [E | []]. subst. apply fl_leb_refl.
  - destruct (IH (fl_max2 v w)) as [Hin Hall]. cbv zeta in *.
    destruct (fl_max2_spec v w) as (Hv & Hw & Hc).
    split.
    + destruct Hin as [E | Hin]; [ | right; right; exact Hin ].
      destruct Hc as [Ec | Ec]; [ left | right; left ]; congruence.
    + intros x [E | [E | Hx]].
      * subst x. eapply fl_leb_trans; [ exact Hv | ]. apply Hall. left. reflexivity.
      * subst x. eapply fl_leb_trans; [ exact Hw | ]. apply Hall. left. reflexivity.
      * apply Hall. right. exact Hx.
Qed.

Lemma child_losses_spec real indices : forall (s s' : store L) vs,
  NoDup indices ->
  child_losses child_loss real s indices = (s', Returned vs) ->
  Forall2 (fun i v => exists l', child_loss (s i) real = Returned (v, l'))
          indices vs
  /\ forall o, ~ In o indices -> s' o = s o.
Proof.
  induction indices as [ | index rest IH]; intros s s' vs Hnd;
    cbn [child_losses].
  - intros E. inversion E; subst. split; [ constructor | reflexivity ].
  - inversion Hnd as [ | ? ? Hi Hnd']. subst.
    destruct (child_loss (s index) real) as [[v l'] | e] eqn:Ec;
      [ | discriminate ].
    destruct (child_losses child_loss real (setstate s index l') rest)
      as [s'' [vs' | e]] eqn:Er; [ | discriminate ].
    intros E. inversion E; subst. clear E.
    destruct (IH _ _ _ Hnd' Er) as [Hall Hf]. split.
    + constructor; [ exists l'; exact Ec | ].
      clear - Hall Hi. induction Hall as [ | i v idx vs (l0 & E0) _ IH];
        constructor.
      * exists l0. rewrite setstate_other in E0; [ exact E0 | ].
        intros E. apply Hi. left. congruence.
      * apply IH. intros Hin. apply Hi. right. exact Hin.
    + intros o Ho. rewrite Hf by (intros Hr; apply Ho; right; exact Hr).
      apply setstate_other. intros E. apply Ho. left. congruence.
Qed.

(** X23. The loss of the balancing learner.  Without learners it raises
    [ValueError].  When it returns, its value is the loss of one of the
    learners and no learner has a greater loss; it is infinite as soon as
    the loss of one learner is.  Learners beyond the [k] wrapped ones are
    not touched. *)
Theorem balancing_loss_is_worst_child (k : nat) (real : bool)
  (s : store L) :
  (k = 0%nat -> snd (balancing_loss child_loss k real s) = Raised ValueError)
  /\ forall s' m,
       balancing_loss child_loss k real s = (s', Returned m) ->
       (exists i l', (i < k)%nat /\ child_loss (s i) real = Returned (m, l'))
       /\ (forall i, (i < k)%nat ->
             exists v l',
               child_loss (s i) real = Returned (v, l')
               /\ fl_leb v m = true
               /\ (v = PInf -> m = PInf))
       /\ (forall o, (k <= o)%nat -> s' o = s o).
Proof.
  split.
  - intros Ek. subst k. reflexivity.
  - intros s' m. unfold balancing_loss.
    destruct (child_losses child_loss real s (seq 0 k)) as [s0 [vs | e]] eqn:E;
      [ | discriminate ].
    destruct vs as [ | v vs]; [ discriminate | ].
    intros Em. inversion Em; subst s0 m. clear Em.
    destruct (@child_losses_spec real (seq 0 k) s s' (v :: vs)
                (seq_NoDup k 0) E) as [Hall Hf].
    destruct (fold_fl_max_spec vs v) as [Hin Hmax]. cbv zeta in Hin, Hmax.
    set (m := fold_left fl_max2 vs v) in *.
    split; [ | split ].
    + destruct (Forall2_right Hall m Hin) as (i & Hi & l' & Ei).
      apply in_seq in Hi. exists i, l'. split; [ lia | exact Ei ].
    + intros i Hi.
      destruct (Forall2_left Hall i) as (x & Hx & l' & Ei);
        [ apply in_seq; lia | ].
      exists x, l'. split; [ exact Ei | ].
      pose proof (Hmax x Hx) as Hle. split; [ exact Hle | ].
      intros Ex. subst x. destruct m; try discriminate. reflexivity.
    + intros o Ho. apply Hf. intros Hin'. apply in_seq in Hin'. lia.
Qed.

End BalancingLossFacts.

(** X22 (witness). Two scalar-average learners, one point. *)
Lemma balancing_choose_points_ends_witness :
  snd (balancing_choose_points AverageLearner.choose_points
         AverageLearner.add_point_r none_gtb 2 1 true averages)
  = Raised TypeError.
Proof.
  apply (proj2 (proj2 balancing_choose_points_ends) 2%nat 0%nat true averages).
  lia.
Defined.

(** X23 (witness). Two new scalar-average learners: the loss of the
    balancing learner is the infinite loss of one of them. *)
Lemma balancing_loss_is_worst_child_witness :
  exists i l',
    (i < 2)%nat /\ average_child_loss (averages i) true = Returned (PInf, l').
Proof.
  assert (E : exists s',
             balancing_loss average_child_loss 2 true averages
             = (s', Returned PInf)).
  { eexists. reflexivity. }
  destruct E as (s' & E).
  exact (proj1 (proj2 (balancing_loss_is_worst_child average_child_loss 2 true
                         averages) s' PInf E)).
Defined.

(** ** Every engine's [choose_points]: how much comes back, and when *)

Section Counts2D.
Import Learner2D.
Variable V : Type.
Variable zeros : V.
Variable Interp : Type.
Variable LinearNDInterpolator : list point -> list V -> result Interp.
Variable ip_call : Interp -> list point -> list V.
Variable simplex : Interp -> nat -> triangle.




End Counts2D.

Section BalancingReturns.
Variables L X Y LI : Type.
Variable cc : L -> nat -> bool -> result (list X * list LI * L).
Variable ca : L -> X -> option Y -> result L.
Variable gt : LI -> LI -> result bool.
Variable good : L -> Prop.
Variable k : nat.

Hypothesis cc_returns : forall l, good l ->
  exists p ps li lis l',
    cc l 1%nat false = Returned (p :: ps, li :: lis, l') /\ good l'.
Hypothesis ca_returns : forall l x, good l ->
  exists l', ca l x None = Returned l' /\ good l'.





End BalancingReturns.



(** ** 2-D learner: what the caches outlive *)

Section Caches2D.
Import Learner2D.
Variable V : Type.
Variable zeros : V.
Variable Interp : Type.
Variable LinearNDInterpolator : list point -> list V -> result Interp.
Variable ip_call : Interp -> list point -> list V.

(** X24. The cached interpolant of the combined data is dropped when a
    pending point is added and at no other time.  A real value drops the
    cached interpolant of the real data only, and [remove_unfinished]
    drops neither: after a real value has arrived or the pending points
    were removed, [ip_combined()] still hands out the interpolant that was
    built before, and [loss(real=False)] is still the largest loss of its
    triangles. *)
Theorem combined_interpolant_outlives_real_values (l : learner V Interp)
  (i : Interp) :
  ip_combined_cache l = Some i ->
  (forall p v,
      ip_combined zeros LinearNDInterpolator ip_call (add_point l p (Some v))
      = Returned (i, add_point l p (Some v)))
  /\ ip_combined zeros LinearNDInterpolator ip_call (remove_unfinished l)
     = Returned (i, remove_unfinished l)
  /\ (forall p v,
        bounds_are_done (add_point l p (Some v)) = true ->
        loss zeros LinearNDInterpolator ip_call (add_point l p (Some v)) false
        = (m <- py_max (loss_per_triangle l i) ;;
           Returned (Fin m, add_point l p (Some v))))
  /\ (forall p, ip_combined_cache (add_point l p None) = None)
  /\ (forall p v, ip_cache (add_point l p (Some v)) = None).
Proof.
  intros Hc. split; [ | split; [ | split; [ | split ] ] ].
  - intros p v. unfold ip_combined. cbn [add_point ip_combined_cache].
    rewrite Hc. reflexivity.
  - unfold ip_combined, remove_unfinished. cbn [with_interp ip_combined_cache].
    rewrite Hc. reflexivity.
  - intros p v Hd. unfold loss. rewrite Hd. cbn [negb].
    unfold ip_combined. cbn [add_point ip_combined_cache loss_per_triangle].
    rewrite Hc. reflexivity.
  - reflexivity.
  - reflexivity.
Qed.

End Caches2D.

(** X24 (witness). A real value for a learner with a cached interpolant
    of the combined data. *)
Lemma combined_interpolant_outlives_real_values_witness :
  Learner2D.ip_combined 0 stub_interpolator (fun _ _ => [])
    (Learner2D.add_point three_points_cached (1, 1) (Some 5))
  = Returned (tt, Learner2D.add_point three_points_cached (1, 1) (Some 5)).
Proof.
  exact (proj1 (@combined_interpolant_outlives_real_values R 0 unit
                  stub_interpolator (fun _ _ => []) three_points_cached tt
                  eq_refl) (1, 1) 5).
Defined.

(** ** The 2-D learner of [learner.py] *)

Section ListRows.
Context {A : Type}.

Lemma np_resize_length (z : A) a m :
  length (LegacyLearner2D.np_resize z a m) = m.
Proof.
  unfold LegacyLearner2D.np_resize. destruct a.
  - apply repeat_length.
  - rewrite length_map, length_seq. reflexivity.
Qed.

Lemma np_resize_nth (z : A) a m i d :
  (i < length a)%nat -> (i < m)%nat ->
  nth i (LegacyLearner2D.np_resize z a m) d = nth i a d.
Proof.
  intros Ha Hm. unfold LegacyLearner2D.np_resize.
  destruct a as [ | a0 a']; [ simpl in Ha; lia | ].
  set (a := a0 :: a') in *.
  set (f := fun i : nat => nth (i mod length a) a z).
  rewrite (nth_indep _ d (f 0%nat)) by (rewrite length_map, length_seq; exact Hm).
  rewrite map_nth, seq_nth by exact Hm. unfold f. cbn [Nat.add].
  rewrite Nat.mod_small by exact Ha. apply nth_indep. exact Ha.
Qed.

Lemma store_at_spec (a : list A) i x :
  (i < length a)%nat ->
  LegacyLearner2D.store_at a i x = Returned (list_set a i x).
Proof.
  intros Hi. unfold LegacyLearner2D.store_at.
  destruct (Nat.ltb_spec i (length a)); [ reflexivity | lia ].
Qed.

(** The rows that a filter on the row numbers keeps. *)
Lemma kept_rows (a : list A) (keep : nat -> bool) : forall start,
  length (filter (fun ir => keep (fst ir))
                 (combine (seq start (length a)) a))
  = length (filter keep (seq start (length a)))
  /\ forall x,
       In x (map snd (filter (fun ir => keep (fst ir))
                             (combine (seq start (length a)) a)))
       <-> exists k, nth_error a k = Some x /\ keep (start + k)%nat = true.
Proof.
  induction a as [ | a0 a IH]; intros start; cbn [length seq combine filter].
  - split; [ reflexivity | ].
    intros x. simpl. split; [ tauto | ]. intros (k & Hk & _).
    destruct k; discriminate.
  - destruct (IH (S start)) as (Hlen & Hin). cbn [fst]. split.
    + destruct (keep start); cbn [length]; rewrite Hlen; reflexivity.
    + intros x. split.
      * intros Hx.
        assert (Hcases : (keep start = true /\ a0 = x)
                         \/ In x (map snd (filter (fun ir => keep (fst ir))
                                    (combine (seq (S start) (length a)) a)))).
        { destruct (keep start) eqn:Ek; [ | right; exact Hx ].
          cbn [map snd] in Hx. destruct Hx as [E | Hx]; [ left | right ]; auto. }
        destruct Hcases as [[Ek E] | Hx'].
        -- exists 0%nat. subst. rewrite Nat.add_0_r. split; [ reflexivity | exact Ek ].
        -- apply Hin in Hx'. destruct Hx' as (k & E2 & Ekeep).
           exists (S k). rewrite Nat.add_succ_r. split; [ exact E2 | exact Ekeep ].
      * intros (k & E2 & Ekeep). destruct k as [ | k].
        -- rewrite Nat.add_0_r in Ekeep. rewrite Ekeep. cbn [map snd].
           left. simpl in E2. congruence.
        -- assert (Hx' : In x (map snd (filter (fun ir => keep (fst ir))
                                   (combine (seq (S start) (length a)) a)))).
           { apply Hin. exists k. rewrite Nat.add_succ_r in Ekeep.
             split; [ exact E2 | exact Ekeep ]. }
           destruct (keep start); [ right | ]; exact Hx'.
Qed.

Lemma listed_false (idx : list nat) k :
  existsb (Nat.eqb k) idx = false <-> ~ In k idx.
Proof.
  split.
  - intros E Hin. assert (Ht : existsb (Nat.eqb k) idx = true).
    { apply existsb_exists. exists k. split; [ exact Hin | apply Nat.eqb_refl ]. }
    congruence.
  - intros Hn. destruct (existsb (Nat.eqb k) idx) eqn:E; [ | reflexivity ].
    apply existsb_exists in E. destruct E as (j & Hj & Ej).
    apply Nat.eqb_eq in Ej. subst. contradiction.
Qed.

Lemma rows_left (idx : list nat) len :
  NoDup idx -> (forall k, In k idx -> (k < len)%nat) ->
  length (filter (fun k => negb (existsb (Nat.eqb k) idx)) (seq 0 len))
  = (len - length idx)%nat.
Proof.
  intros Hnd Hb.
  pose proof (filter_length (fun k => existsb (Nat.eqb k) idx) (seq 0 len)) as Hsum.
  rewrite length_seq in Hsum.
  assert (Hp : Permutation (filter (fun k => existsb (Nat.eqb k) idx) (seq 0 len))
                           idx).
  { apply NoDup_Permutation; [ apply NoDup_filter, seq_NoDup | exact Hnd | ].
    intros k. rewrite filter_In, in_seq. split.
    - intros [_ E]. apply existsb_exists in E. destruct E as (j & Hj & Ej).
      apply Nat.eqb_eq in Ej. subst. exact Hj.
    - intros Hk. split; [ specialize (Hb k Hk); lia | ].
      apply existsb_exists. exists k. split; [ exact Hk | apply Nat.eqb_refl ]. }
  apply Permutation_length in Hp. lia.
Qed.

(** The kept rows, in the order of the array. *)
Lemma kept_rows_in_order (a : list A) (keep : nat -> bool) (d : A) :
  forall start,
  map snd (filter (fun ir => keep (fst ir))
                  (combine (seq start (length a)) a))
  = map (fun k => nth (k - start) a d)
        (filter keep (seq start (length a))).
Proof.
  induction a as [ | a0 a IH]; intros start; cbn [length seq combine filter].
  - reflexivity.
  - cbn [fst].
    assert (Etail : map snd (filter (fun ir => keep (fst ir))
                               (combine (seq (S start) (length a)) a))
                    = map (fun k => nth (k - start) (a0 :: a) d)
                          (filter keep (seq (S start) (length a)))).
    { rewrite (IH (S start)). apply map_ext_in. intros k Hk.
      apply filter_In in Hk. destruct Hk as [Hk _]. apply in_seq in Hk.
      replace (k - start)%nat with (S (k - S start)) by lia. reflexivity. }
    destruct (keep start); cbn [map snd]; rewrite Etail;
      [ rewrite Nat.sub_diag | ]; reflexivity.
Qed.

Lemma filter_seq_sorted (keep : nat -> bool) : forall len start,
  StronglySorted lt (filter keep (seq start len)).
Proof.
  induction len as [ | len IH]; intros start; cbn [seq filter].
  - constructor.
  - destruct (keep start); [ | apply IH ].
    constructor; [ apply IH | ].
    apply Forall_forall. intros k Hk. apply filter_In in Hk.
    destruct Hk as [Hk _]. apply in_seq in Hk. lia.
Qed.

Lemma np_delete_rows (a : list A) (idx : list nat) (d : A) :
  (forall k, In k idx -> (k < length a)%nat) ->
  LegacyLearner2D.np_delete a idx
  = Returned (map (fun k => nth k a d)
                  (filter (fun k => negb (existsb (Nat.eqb k) idx))
                          (seq 0 (length a)))).
Proof.
  intros Hb. unfold LegacyLearner2D.np_delete.
  assert (Hall : forallb (fun j => (j <? length a)%nat) idx = true).
  { apply forallb_forall. intros k Hk. apply Nat.ltb_lt. apply Hb. exact Hk. }
  rewrite Hall. f_equal.
  rewrite (kept_rows_in_order a (fun k => negb (existsb (Nat.eqb k) idx)) d 0).
  apply map_ext. intros k. rewrite Nat.sub_0_r. reflexivity.
Qed.

Lemma np_delete_spec (a : list A) (idx : list nat) :
  NoDup idx -> (forall k, In k idx -> (k < length a)%nat) ->
  exists rows,
    LegacyLearner2D.np_delete a idx = Returned rows
    /\ length rows = (length a - length idx)%nat
    /\ forall x, In x rows
                 <-> exists k, nth_error a k = Some x /\ ~ In k idx.
Proof.
  intros Hnd Hb. unfold LegacyLearner2D.np_delete.
  assert (Hall : forallb (fun j => (j <? length a)%nat) idx = true).
  { apply forallb_forall. intros k Hk. apply Nat.ltb_lt. apply Hb. exact Hk. }
  rewrite Hall. eexists. split; [ reflexivity | ].
  destruct (kept_rows a (fun k => negb (existsb (Nat.eqb k) idx)) 0)
    as [Hlen Hin].
  split.
  - rewrite length_map, Hlen. apply rows_left; assumption.
  - intros x. rewrite Hin. split.
    + intros (k & E & Ek). exists k. split; [ exact E | ].
      apply listed_false. apply negb_true_iff. exact Ek.
    + intros (k & E & Ek). exists k. split; [ exact E | ].
      apply negb_true_iff. apply listed_false. exact Ek.
Qed.

End ListRows.

Section DictValues.
Context {K V : Type} `{DecEq K}.

Lemma dict_values_set (d : dict K V) k v x :
  In x (dict_values (dict_set d k v)) -> x = v \/ In x (dict_values d).
Proof.
  induction d as [ | [k0 v0] d IH]; simpl.
  - intros [E | []]. left. congruence.
  - destruct (dec_eq k k0); simpl.
    + intros [E | Hin]; [ left; congruence | right; right; exact Hin ].
    + intros [E | Hin]; [ right; left; exact E | ].
      destruct (IH Hin); [ left | right; right ]; assumption.
Qed.

Lemma dict_values_set_NoDup (d : dict K V) k v :
  NoDup (dict_values d) -> ~ In v (dict_values d) ->
  NoDup (dict_values (dict_set d k v)).
Proof.
  induction d as [ | [k0 v0] d IH]; simpl; intros Hnd Hv.
  - constructor; [ intros [] | constructor ].
  - inversion Hnd as [ | ? ? Hv0 Hnd']. subst.
    destruct (dec_eq k k0); simpl.
    + constructor; [ | exact Hnd' ].
      intros Hin. apply Hv. right. exact Hin.
    + constructor.
      * intros Hin. apply dict_values_set in Hin.
        destruct Hin as [E | Hin]; [ apply Hv; left; congruence | exact (Hv0 Hin) ].
      * apply IH; [ exact Hnd' | ]. intros Hin. apply Hv. right. exact Hin.
Qed.

Lemma dict_values_del (d : dict K V) k x :
  In x (dict_values (dict_del d k)) -> In x (dict_values d).
Proof.
  induction d as [ | [k0 v0] d IH]; simpl; [ tauto | ].
  destruct (dec_eq k k0); simpl; [ tauto | ].
  intros [E | Hin]; [ left; exact E | right; apply IH; exact Hin ].
Qed.

Lemma dict_values_del_NoDup (d : dict K V) k :
  NoDup (dict_values d) -> NoDup (dict_values (dict_del d k)).
Proof.
  induction d as [ | [k0 v0] d IH]; simpl; intros Hnd; [ constructor | ].
  inversion Hnd as [ | ? ? Hv0 Hnd']. subst.
  destruct (dec_eq k k0); simpl; [ exact Hnd' | ].
  constructor; [ | apply IH; exact Hnd' ].
  intros Hin. apply Hv0. eapply dict_values_del. exact Hin.
Qed.

Lemma dict_get_del_other (d : dict K V) k k' :
  k' <> k -> dict_get (dict_del d k) k' = dict_get d k'.
Proof.
  intros Hne. induction d as [ | [k0 v0] d IH]; simpl; [ reflexivity | ].
  destruct (dec_eq k k0) as [E | E].
  - subst k0. destruct (dec_eq k' k); [ contradiction | reflexivity ].
  - simpl. destruct (dec_eq k' k0); [ reflexivity | exact IH ].
Qed.

Lemma dict_get_del_same (d : dict K V) k :
  NoDup (dict_keys d) -> dict_get (dict_del d k) k = None.
Proof.
  intros Hnd. apply dict_get_None. intros Hin.
  apply dict_del_keys_in in Hin; [ | exact Hnd ]. destruct Hin as [N _].
  congruence.
Qed.

Lemma dict_get_value (d : dict K V) k v :
  dict_get d k = Some v -> In v (dict_values d).
Proof.
  intros E. apply dict_get_in in E. unfold dict_values.
  apply in_map_iff. exists (k, v). auto.
Qed.

Lemma dict_value_key (d : dict K V) v :
  In v (dict_values d) -> NoDup (dict_keys d) ->
  exists k, dict_get d k = Some v.
Proof.
  induction d as [ | [k0 v0] d IH]; simpl; [ tauto | ].
  intros Hin Hnd. inversion Hnd as [ | ? ? Hk0 Hnd']. subst.
  destruct Hin as [E | Hin].
  - subst. exists k0. destruct (dec_eq k0 k0); [ reflexivity | congruence ].
  - destruct (IH Hin Hnd') as (k & Ek). exists k.
    destruct (dec_eq k k0) as [E | _]; [ | exact Ek ].
    exfalso. subst. apply Hk0. eapply dict_get_some_key. exact Ek.
Qed.

Lemma dict_values_unique (d : dict K V) k k' v :
  NoDup (dict_values d) ->
  dict_get d k = Some v -> dict_get d k' = Some v -> k = k'.
Proof.
  induction d as [ | [k0 v0] d IH]; simpl; [ discriminate | ].
  intros Hnd. inversion Hnd as [ | ? ? Hv0 Hnd']. subst.
  destruct (dec_eq k k0) as [E | E], (dec_eq k' k0) as [E' | E'].
  - congruence.
  - intros E1 E2. inversion E1; subst. exfalso. apply Hv0.
    eapply dict_get_value. exact E2.
  - intros E1 E2. inversion E2; subst. exfalso. apply Hv0.
    eapply dict_get_value. exact E1.
  - apply IH. exact Hnd'.
Qed.

Lemma dict_set_length (d : dict K V) k v :
  length (dict_set d k v)
  = if dict_mem d k then length d else S (length d).
Proof.
  unfold dict_mem. induction d as [ | [k0 v0] d IH]; simpl; [ reflexivity | ].
  destruct (dec_eq k k0); simpl; [ reflexivity | ].
  rewrite IH. destruct (dict_get d k); reflexivity.
Qed.

Lemma dict_del_length (d : dict K V) k :
  dict_mem d k = true -> S (length (dict_del d k)) = length d.
Proof.
  unfold dict_mem. induction d as [ | [k0 v0] d IH]; simpl; [ discriminate | ].
  destruct (dec_eq k k0); simpl; [ reflexivity | ].
  intros E. rewrite IH by exact E. reflexivity.
Qed.

End DictValues.

Section Legacy.
Import LegacyLearner2D.

Lemma pending_below (l : learner) :
  consistent l ->
  (forall k, In k (dict_values (interp l)) -> (k < n l)%nat)
  /\ (length (interp l) <= n l)%nat.
Proof.
  intros (_ & _ & Hndk & Hnd & Hp).
  assert (Hb : forall k, In k (dict_values (interp l)) -> (k < n l)%nat).
  { intros k Hk. destruct (dict_value_key _ _ Hk Hndk) as (p & Ep).
    apply (Hp p k Ep). }
  split; [ exact Hb | ].
  assert (Hincl : incl (dict_values (interp l)) (seq 0 (n l))).
  { intros k Hk. apply in_seq. specialize (Hb k Hk). lia. }
  pose proof (NoDup_incl_length Hnd Hincl) as Hle.
  unfold dict_values in Hle. rewrite length_map, length_seq in Hle. exact Hle.
Qed.

Lemma init_consistent b : consistent (init b).
Proof.
  destruct b as [[a1 b1] [a2 b2]]. unfold consistent, init.
  cbn [raw_points raw_values n interp]. rewrite !repeat_length.
  repeat split; try constructor; try lia; simpl in *; discriminate.
Qed.

(** [add_point] on a consistent learner, case by case. *)
Lemma add_point_cases (l : learner) p value :
  consistent l ->
  let pts := np_resize (0%R, 0%R) (raw_points l) (2 * n l + 10) in
  let vals := np_resize (Some 0%R) (raw_values l) (2 * n l + 10) in
  add_point l p value
  = Returned
      match value with
      | None =>
          mk (bounds l) (list_set pts (n l) p) (list_set vals (n l) None)
             (S (n l)) (nstack l) (stack l) (dict_set (interp l) p (n l))
      | Some y =>
          match dict_get (interp l) p with
          | Some k =>
              mk (bounds l) (list_set pts k p) (list_set vals k (Some y))
                 (n l) (nstack l) (stack l) (dict_del (interp l) p)
          | None =>
              mk (bounds l) (list_set pts (n l) p)
                 (list_set vals (n l) (Some y))
                 (S (n l)) (nstack l) (stack l) (interp l)
          end
      end.
Proof.
  intros Hc pts vals.
  destruct (pending_below Hc) as [Hb _].
  destruct Hc as (Hlen & Hn & _ & _ & Hp).
  assert (Hv : length (values l) = n l).
  { unfold values. rewrite length_firstn. lia. }
  unfold add_point. rewrite Hv, Nat.leb_refl. fold pts. fold vals.
  assert (Lp : length pts = (2 * n l + 10)%nat) by apply np_resize_length.
  assert (Lv : length vals = (2 * n l + 10)%nat) by apply np_resize_length.
  destruct value as [y | ].
  - unfold dict_mem. destruct (dict_get (interp l) p) as [k | ] eqn:Ek.
    + destruct (Hp p k Ek) as (Hk & _).
      rewrite !store_at_spec by lia. reflexivity.
    + rewrite !store_at_spec by lia. reflexivity.
  - rewrite !store_at_spec by lia. reflexivity.
Qed.

Lemma resized_row {A} (z d : A) (a : list A) m k i x :
  (k < length a)%nat -> (k < m)%nat -> i <> k ->
  nth k (list_set (np_resize z a m) i x) d = nth k a d.
Proof.
  intros Ha Hm Hne. rewrite nth_list_set_other by exact Hne.
  apply np_resize_nth; assumption.
Qed.

Lemma add_point_consistent (l : learner) p value :
  consistent l ->
  exists l', add_point l p value = Returned l' /\ consistent l'.
Proof.
  intros Hc. rewrite (add_point_cases p value Hc). eexists.
  split; [ reflexivity | ].
  destruct (pending_below Hc) as [Hb Hcount].
  destruct Hc as (Hlen & Hn & Hndk & Hndv & Hp).
  destruct value as [y | ].
  - destruct (dict_get (interp l) p) as [k0 | ] eqn:Ek0.
    + (* a value for a pending point *)
      destruct (Hp p k0 Ek0) as (Hk0 & _).
      unfold consistent. cbn [raw_points raw_values n interp].
      rewrite !list_set_length, !np_resize_length.
      split; [ reflexivity | ]. split; [ lia | ].
      split; [ apply dict_del_NoDup; exact Hndk | ].
      split; [ apply dict_values_del_NoDup; exact Hndv | ].
      intros q k Eq.
      assert (Hqp : q <> p).
      { intros E. subst q. rewrite dict_get_del_same in Eq by exact Hndk.
        discriminate. }
      rewrite dict_get_del_other in Eq by exact Hqp.
      destruct (Hp q k Eq) as (Hk & Hrow & Hval).
      assert (Hkk : k0 <> k).
      { intros E. subst k0. apply Hqp.
        eapply dict_values_unique; eassumption. }
      split; [ exact Hk | ].
      rewrite !resized_row by lia. split; assumption.
    + (* a value for a new point *)
      unfold consistent. cbn [raw_points raw_values n interp].
      rewrite !list_set_length, !np_resize_length.
      split; [ reflexivity | ]. split; [ lia | ].
      split; [ exact Hndk | ]. split; [ exact Hndv | ].
      intros q k Eq. destruct (Hp q k Eq) as (Hk & Hrow & Hval).
      split; [ lia | ]. rewrite !resized_row by lia. split; assumption.
  - (* a pending point *)
    unfold consistent. cbn [raw_points raw_values n interp].
    rewrite !list_set_length, !np_resize_length.
    split; [ reflexivity | ]. split; [ lia | ].
    split; [ apply dict_set_NoDup; exact Hndk | ].
    split.
    { apply dict_values_set_NoDup; [ exact Hndv | ].
      intros Hin. specialize (Hb _ Hin). lia. }
    intros q k Eq. destruct (dec_eq q p) as [E | Hqp].
    + subst q. rewrite dict_get_set_same in Eq. inversion Eq; subst k.
      split; [ lia | ].
      rewrite !nth_list_set_same by (rewrite np_resize_length; lia).
      split; reflexivity.
    + rewrite dict_get_set_other in Eq by exact Hqp.
      destruct (Hp q k Eq) as (Hk & Hrow & Hval).
      split; [ lia | ]. rewrite !resized_row by lia. split; assumption.
Qed.

Lemma remove_unfinished_spec (l : learner) :
  consistent l ->
  exists l',
    remove_unfinished l = Returned l'
    /\ consistent l'
    /\ interp l' = []
    /\ n l' = (n l - length (interp l))%nat
    /\ length (raw_points l') = n l'
    /\ length (raw_values l') = n l'
    /\ (forall x, In x (raw_points l')
                  <-> exists k, nth_error (points l) k = Some x
                                /\ ~ In k (dict_values (interp l)))
    /\ (forall y, In y (raw_values l')
                  <-> exists k, nth_error (values l) k = Some y
                                /\ ~ In k (dict_values (interp l))).
Proof.
  intros Hc. destruct (pending_below Hc) as [Hb Hcount].
  destruct Hc as (Hlen & Hn & Hndk & Hndv & Hp).
  assert (Lp : length (points l) = n l)
    by (unfold points; rewrite length_firstn; lia).
  assert (Lv : length (values l) = n l)
    by (unfold values; rewrite length_firstn; lia).
  destruct (@np_delete_spec _ (points l) (dict_values (interp l)) Hndv)
    as (pr & Epr & Lpr & Hpr).
  { intros k Hk. rewrite Lp. apply Hb. exact Hk. }
  destruct (@np_delete_spec _ (values l) (dict_values (interp l)) Hndv)
    as (vr & Evr & Lvr & Hvr).
  { intros k Hk. rewrite Lv. apply Hb. exact Hk. }
  unfold remove_unfinished, points_real, values_real.
  rewrite Epr, Evr. cbn [bind]. eexists. split; [ reflexivity | ].
  assert (Ecount : length (dict_values (interp l)) = length (interp l))
    by (unfold dict_values; apply length_map).
  rewrite Lp, Ecount in Lpr. rewrite Lv, Ecount in Lvr.
  cbn [raw_points raw_values n interp].
  split.
  { unfold consistent. cbn [raw_points raw_values n interp].
    split; [ lia | ]. split; [ lia | ].
    split; [ constructor | ]. split; [ constructor | ].
    intros q k Eq. discriminate. }
  split; [ reflexivity | ]. split; [ reflexivity | ].
  split; [ exact Lpr | ]. split; [ exact Lvr | ].
  split; assumption.
Qed.

(** The rows that [remove_unfinished] keeps, in their order. *)
Lemma remove_unfinished_rows (l l' : learner) :
  consistent l ->
  remove_unfinished l = Returned l' ->
  let kept := filter (fun k => negb (existsb (Nat.eqb k)
                                       (dict_values (interp l))))
                     (seq 0 (n l)) in
  raw_points l' = map (fun k => nth k (raw_points l) (0%R, 0%R)) kept
  /\ raw_values l' = map (fun k => nth k (raw_values l) (Some 0%R)) kept
  /\ n l' = length kept.
Proof.
  intros Hc E kept. destruct (pending_below Hc) as [Hb Hcount].
  destruct Hc as (Hlen & Hn & Hndk & Hndv & Hp).
  assert (Lp : length (points l) = n l)
    by (unfold points; rewrite length_firstn; lia).
  assert (Lv : length (values l) = n l)
    by (unfold values; rewrite length_firstn; lia).
  assert (Hin : forall k, In k kept -> (k < n l)%nat).
  { intros k Hk. apply filter_In in Hk. destruct Hk as [Hk _].
    apply in_seq in Hk. lia. }
  unfold remove_unfinished, points_real, values_real in E.
  rewrite (@np_delete_rows _ (points l) (dict_values (interp l)) (0%R, 0%R))
    in E by (intros k Hk; rewrite Lp; apply Hb; exact Hk).
  rewrite (@np_delete_rows _ (values l) (dict_values (interp l)) (Some 0%R))
    in E by (intros k Hk; rewrite Lv; apply Hb; exact Hk).
  rewrite Lp, Lv in E. cbn [bind] in E. inversion E; subst l'; clear E.
  cbn [raw_points raw_values n]. fold kept.
  split; [ | split ].
  - apply map_ext_in. intros k Hk. specialize (Hin k Hk). unfold points.
    rewrite nth_firstn. destruct (Nat.ltb_spec k (n l)); [ reflexivity | lia ].
  - apply map_ext_in. intros k Hk. specialize (Hin k Hk). unfold values.
    rewrite nth_firstn. destruct (Nat.ltb_spec k (n l)); [ reflexivity | lia ].
  - unfold kept. rewrite rows_left; [ | exact Hndv | exact Hb ].
    f_equal. unfold dict_values. symmetry. apply length_map.
Qed.

Lemma run_consistent cs : forall l,
  consistent l -> exists l', run l cs = Returned l' /\ consistent l'.
Proof.
  induction cs as [ | [p v | ] cs IH]; intros l Hc; cbn [run].
  - eauto.
  - destruct (add_point_consistent p v Hc) as (l1 & E1 & H1).
    rewrite E1. cbn [bind]. apply IH. exact H1.
  - destruct (remove_unfinished_spec Hc) as (l1 & E1 & H1 & _).
    rewrite E1. cbn [bind]. apply IH. exact H1.
Qed.

(** X25. [add_point] and [remove_unfinished] calls, in any order, on a new
    learner of [learner.py]'s [Learner2D]: none of them raises.  The two
    arrays keep one length and always have room for the rows in use (the
    arrays are resized at every [add_point]); every pending point has a
    row of its own among the rows in use, which holds the point and no
    value; so the pending points never outnumber the rows and the loss,
    the number of real points, is not negative. *)
Theorem legacy2d_calls_never_raise (b : (R * R) * (R * R))
  (cs : list call) :
  exists st,
    run (init b) cs = Returned st
    /\ length (raw_points st) = length (raw_values st)
    /\ (n st <= length (raw_points st))%nat
    /\ NoDup (dict_values (interp st))
    /\ (forall p k,
          dict_get (interp st) p = Some k ->
          (k < n st)%nat
          /\ nth k (raw_points st) (0%R, 0%R) = p
          /\ nth k (raw_values st) (Some 0%R) = None)
    /\ (0 <= loss st)%Z.
Proof.
  destruct (run_consistent cs (init_consistent b)) as (st & E & Hc).
  exists st. split; [ exact E | ].
  destruct (pending_below Hc) as [_ Hcount].
  destruct Hc as (Hlen & Hn & _ & Hndv & Hp).
  split; [ exact Hlen | ]. split; [ exact Hn | ]. split; [ exact Hndv | ].
  split; [ exact Hp | ].
  unfold loss, n_real. lia.
Qed.

(** X26. The bookkeeping of [add_point] on a learner built by such calls.
    A real value for a pending point goes into the row that was reserved
    for the point: the number of rows stays, the point is no longer
    pending.  A real value for any other point takes the next row.  Either
    way the loss grows by one.  A pending point always takes the next row,
    also when the point is pending already: its earlier row is then left
    without a value, and the loss grows by one though no value has
    arrived; otherwise the loss stays. *)
Theorem legacy2d_add_point_bookkeeping (b : (R * R) * (R * R))
  (cs : list call) (st : learner) (p : point) :
  run (init b) cs = Returned st ->
  (forall y k,
      dict_get (interp st) p = Some k ->
      exists st',
        add_point st p (Some y) = Returned st'
        /\ n st' = n st
        /\ dict_get (interp st') p = None
        /\ nth k (raw_points st') (0%R, 0%R) = p
        /\ nth k (raw_values st') (Some 0%R) = Some y
        /\ loss st' = (loss st + 1)%Z)
  /\ (forall y,
        dict_get (interp st) p = None ->
        exists st',
          add_point st p (Some y) = Returned st'
          /\ n st' = S (n st)
          /\ interp st' = interp st
          /\ nth (n st) (raw_points st') (0%R, 0%R) = p
          /\ nth (n st) (raw_values st') (Some 0%R) = Some y
          /\ loss st' = (loss st + 1)%Z)
  /\ exists st',
       add_point st p None = Returned st'
       /\ n st' = S (n st)
       /\ dict_get (interp st') p = Some (n st)
       /\ nth (n st) (raw_points st') (0%R, 0%R) = p
       /\ nth (n st) (raw_values st') (Some 0%R) = None
       /\ (dict_get (interp st) p = None -> loss st' = loss st)
       /\ (dict_get (interp st) p <> None -> loss st' = (loss st + 1)%Z).
Proof.
  intros Hrun.
  destruct (run_consistent cs (init_consistent b)) as (st0 & E & Hc).
  rewrite Hrun in E. inversion E; subst st0. clear E.
  destruct (pending_below Hc) as [_ Hcount].
  pose proof Hc as (Hlen & Hn & Hndk & Hndv & Hp).
  split; [ | split ].
  - intros y k Ek. rewrite (add_point_cases p (Some y) Hc), Ek.
    destruct (Hp p k Ek) as (Hk & _).
    eexists. split; [ reflexivity | ].
    cbn [n interp raw_points raw_values].
    split; [ reflexivity | ].
    split; [ apply dict_get_del_same; exact Hndk | ].
    rewrite !nth_list_set_same by (rewrite np_resize_length; lia).
    split; [ reflexivity | ]. split; [ reflexivity | ].
    unfold loss, n_real. cbn [n interp].
    assert (Hm : dict_mem (interp st) p = true) by (unfold dict_mem; rewrite Ek; reflexivity).
    pose proof (dict_del_length _ _ Hm). lia.
  - intros y Ek. rewrite (add_point_cases p (Some y) Hc), Ek.
    eexists. split; [ reflexivity | ].
    cbn [n interp raw_points raw_values].
    rewrite !nth_list_set_same by (rewrite np_resize_length; lia).
    repeat split. unfold loss, n_real. cbn [n interp]. lia.
  - rewrite (add_point_cases p None Hc).
    eexists. split; [ reflexivity | ].
    cbn [n interp raw_points raw_values].
    rewrite !nth_list_set_same by (rewrite np_resize_length; lia).
    split; [ reflexivity | ]. split; [ apply dict_get_set_same | ].
    split; [ reflexivity | ]. split; [ reflexivity | ].
    unfold loss, n_real. cbn [n interp]. rewrite dict_set_length.
    unfold dict_mem. split.
    + intros Ek. rewrite Ek. lia.
    + intros Ek. destruct (dict_get (interp st) p); [ lia | congruence ].
Qed.

(** X26 (witness). The first pending point of a new learner on the unit
    square takes row 0. *)
Lemma legacy2d_add_point_bookkeeping_witness :
  exists st',
    add_point (init unit_square) (0%R, 0%R) None = Returned st'
    /\ n st' = 1%nat
    /\ dict_get (interp st') (0%R, 0%R) = Some 0%nat.
Proof.
  destruct (proj2 (proj2 (@legacy2d_add_point_bookkeeping unit_square []
                            (init unit_square) (0%R, 0%R) eq_refl)))
    as (st' & E & Hn & Hi & _).
  exists st'. split; [ exact E | ]. split; [ exact Hn | exact Hi ].
Defined.

(** X27. [remove_unfinished] on a learner built by such calls does not
    raise.  The rows it keeps are the rows in use that are not reserved for
    a pending point, in the order they have in the arrays; [_points] and
    [_values] keep the same rows, so a point and its value stay in one row.
    Afterwards no point is pending, the arrays hold just the rows in use,
    and the loss is what it was. *)
Theorem legacy2d_remove_unfinished_keeps_real_rows
  (b : (R * R) * (R * R)) (cs : list call) (st : learner) :
  run (init b) cs = Returned st ->
  exists st' kept,
    remove_unfinished st = Returned st'
    /\ interp st' = []
    /\ loss st' = loss st
    /\ StronglySorted lt kept
    /\ (forall k, In k kept
                  <-> (k < n st)%nat /\ ~ In k (dict_values (interp st)))
    /\ n st' = length kept
    /\ raw_points st' = map (fun k => nth k (raw_points st) (0%R, 0%R)) kept
    /\ raw_values st' = map (fun k => nth k (raw_values st) (Some 0%R)) kept.
Proof.
  intros Hrun.
  destruct (run_consistent cs (init_consistent b)) as (st0 & E & Hc).
  rewrite Hrun in E. inversion E; subst st0. clear E.
  destruct (pending_below Hc) as [_ Hcount].
  destruct (remove_unfinished_spec Hc)
    as (st' & E & _ & Hi & Hn & _).
  destruct (remove_unfinished_rows Hc E) as (Hp & Hv & Hk).
  exists st'.
  exists (filter (fun k => negb (existsb (Nat.eqb k)
                                   (dict_values (interp st))))
                 (seq 0 (n st))).
  split; [ exact E | ]. split; [ exact Hi | ].
  split.
  { unfold loss, n_real. rewrite Hi, Hn. simpl. lia. }
  split; [ apply filter_seq_sorted | ].
  split.
  { intros k. rewrite filter_In, in_seq, negb_true_iff, listed_false.
    split; intros [H1 H2]; (split; [ lia | exact H2 ]). }
  split; [ exact Hk | ]. split; [ exact Hp | exact Hv ].
Qed.

(** X27 (witness). One observed point, then one pending point: the row of
    the observed point stays, with its value. *)
Lemma legacy2d_remove_unfinished_keeps_real_rows_witness :
  exists st st',
    run (init unit_square)
        [AddPoint (1%R, 1%R) (Some 5%R); AddPoint (0%R, 0%R) None]
    = Returned st
    /\ remove_unfinished st = Returned st'
    /\ interp st' = []
    /\ raw_points st' = [(1%R, 1%R)]
    /\ raw_values st' = [Some 5%R].
Proof.
  assert (Hrun : exists st,
             run (init unit_square)
                 [AddPoint (1%R, 1%R) (Some 5%R); AddPoint (0%R, 0%R) None]
             = Returned st).
  { eexists. vm_compute. reflexivity. }
  destruct Hrun as (st & Hrun).
  destruct (@legacy2d_remove_unfinished_keeps_real_rows unit_square _ st Hrun)
    as (st' & kept & E & Hi & _).
  exists st, st'. split; [ exact Hrun | ]. split; [ exact E | ].
  split; [ exact Hi | ].
  vm_compute in Hrun. inversion Hrun; subst st; clear Hrun.
  vm_compute in E. inversion E; subst st'. split; reflexivity.
Defined.

End Legacy.
